(** * Scribe: the commit engine, embedded and verified

    A shallow embedding of the commit engine of Scribe (envelope model,
    digest primitives, Merkle tree, commit store, repository facade and the
    commit command), followed by the properties proved about it.

    Conventions of the embedding.
    - A C pointer that the code tests against NULL is an [option].
    - A [char *] is a [string]; a [uint8_t] is an [ascii].
    - Functions that mutate an object through a pointer return the new
      object next to their result.
    - The repository's own calls to [malloc], [calloc], [realloc] and
      [strdup], and its reads of the clock, go through the [World] monad:
      every allocation request consumes one entry of an oracle that says
      whether it is granted.  Library calls (OpenSSL, yyjson, SQLite) are
      modelled by their functional behaviour on a healthy handle. *)

From Stdlib Require Import ZArith NArith List String Ascii Lia DecimalString.
From stdpp Require Import gmap strings list vector.
From Equations Require Import Equations.

Local Open Scope string_scope.
Local Open Scope nat_scope.

(* ===================================================================== *)
(** * SHA-256 (FIPS 180-4), the digest OpenSSL's [EVP_sha256] computes     *)
(* ===================================================================== *)

Module SHA256.
Local Open Scope N_scope.

(** 32-bit words are [N] with the wrap-around written out. *)
Definition mask32 : N := 0xFFFFFFFF.
Definition add32 (x y : N) : N := N.land (x + y) mask32.
Definition not32 (x : N) : N := N.lxor x mask32.
Definition SHR (n x : N) : N := N.shiftr x n.
Definition ROTR (n x : N) : N :=
  N.lor (N.shiftr x n) (N.land (N.shiftl x (32 - n)) mask32).

Definition Ch (x y z : N) : N := N.lxor (N.land x y) (N.land (not32 x) z).
Definition Maj (x y z : N) : N :=
  N.lxor (N.lxor (N.land x y) (N.land x z)) (N.land y z).
Definition BSIG0 (x : N) : N := N.lxor (N.lxor (ROTR 2 x) (ROTR 13 x)) (ROTR 22 x).
Definition BSIG1 (x : N) : N := N.lxor (N.lxor (ROTR 6 x) (ROTR 11 x)) (ROTR 25 x).
Definition SSIG0 (x : N) : N := N.lxor (N.lxor (ROTR 7 x) (ROTR 18 x)) (SHR 3 x).
Definition SSIG1 (x : N) : N := N.lxor (N.lxor (ROTR 17 x) (ROTR 19 x)) (SHR 10 x).

(** Round constants: fractional parts of the cube roots of the first 64 primes. *)
Definition K : list N :=
  [ 0x428A2F98; 0x71374491; 0xB5C0FBCF; 0xE9B5DBA5;
    0x3956C25B; 0x59F111F1; 0x923F82A4; 0xAB1C5ED5;
    0xD807AA98; 0x12835B01; 0x243185BE; 0x550C7DC3;
    0x72BE5D74; 0x80DEB1FE; 0x9BDC06A7; 0xC19BF174;
    0xE49B69C1; 0xEFBE4786; 0x0FC19DC6; 0x240CA1CC;
    0x2DE92C6F; 0x4A7484AA; 0x5CB0A9DC; 0x76F988DA;
    0x983E5152; 0xA831C66D; 0xB00327C8; 0xBF597FC7;
    0xC6E00BF3; 0xD5A79147; 0x06CA6351; 0x14292967;
    0x27B70A85; 0x2E1B2138; 0x4D2C6DFC; 0x53380D13;
    0x650A7354; 0x766A0ABB; 0x81C2C92E; 0x92722C85;
    0xA2BFE8A1; 0xA81A664B; 0xC24B8B70; 0xC76C51A3;
    0xD192E819; 0xD6990624; 0xF40E3585; 0x106AA070;
    0x19A4C116; 0x1E376C08; 0x2748774C; 0x34B0BCB5;
    0x391C0CB3; 0x4ED8AA4A; 0x5B9CCA4F; 0x682E6FF3;
    0x748F82EE; 0x78A5636F; 0x84C87814; 0x8CC70208;
    0x90BEFFFA; 0xA4506CEB; 0xBEF9A3F7; 0xC67178F2 ].

(** Initial hash value: fractional parts of the square roots of the first 8 primes. *)
Definition H0 : list N :=
  [ 0x6A09E667; 0xBB67AE85; 0x3C6EF372; 0xA54FF53A;
    0x510E527F; 0x9B05688C; 0x1F83D9AB; 0x5BE0CD19 ].

(** [n] bytes of [x], most significant first. *)
Fixpoint be_bytes (n : nat) (x : N) : list N :=
  match n with
  | O => []
  | S n' => N.land (N.shiftr x (8 * N.of_nat n')) 0xFF :: be_bytes n' x
  end.

Definition be_word (bs : list N) : N :=
  fold_left (fun acc b => N.lor (N.shiftl acc 8) b) bs 0.

(** Cut a list into pieces of [n] elements ([fuel] bounds the number of pieces). *)
Fixpoint chunks {A} (fuel n : nat) (l : list A) : list (list A) :=
  match fuel with
  | O => []
  | S fuel' =>
      match l with
      | [] => []
      | _ => take n l :: chunks fuel' n (drop n l)
      end
  end.

(** Section 5.1.1: a 1 bit, zero bits up to 56 mod 64 bytes, the bit length
    on 64 bits. *)
Definition pad (msg : list N) : list N :=
  let len := length msg in
  let k := ((64 - ((len + 9) mod 64)) mod 64)%nat in
  msg ++ [0x80] ++ replicate k 0 ++ be_bytes 8 (8 * N.of_nat len).

(** Section 6.2.2, step 1: the message schedule, extended by [n] words. *)
Fixpoint schedule (n : nat) (w : list N) : list N :=
  match n with
  | O => w
  | S n' =>
      let t := length w in
      let g i := nth (t - i) w 0 in
      schedule n'
        (w ++ [add32 (add32 (add32 (SSIG1 (g 2%nat)) (g 7%nat)) (SSIG0 (g 15%nat))) (g 16%nat)])
  end.

Definition state : Type := N * N * N * N * N * N * N * N.

(** Section 6.2.2, step 3: one round. *)
Definition round (s : state) (kw : N * N) : state :=
  let '(a, b, c, d, e, f, g, h) := s in
  let T1 := add32 (add32 (add32 (add32 h (BSIG1 e)) (Ch e f g)) (fst kw)) (snd kw) in
  let T2 := add32 (BSIG0 a) (Maj a b c) in
  (add32 T1 T2, a, b, c, add32 d T1, e, f, g).

Definition compress (H : list N) (block : list N) : list N :=
  let W := schedule 48 (map be_word (chunks 16 4 block)) in
  match H with
  | [a; b; c; d; e; f; g; h] =>
      let '(a', b', c', d', e', f', g', h') :=
        fold_left round (combine K W) (a, b, c, d, e, f, g, h) in
      [add32 a a'; add32 b b'; add32 c c'; add32 d d';
       add32 e e'; add32 f f'; add32 g g'; add32 h h']
  | _ => H
  end.

(** The 32 bytes of the digest of a byte string. *)
Definition sha256 (msg : list N) : list N :=
  let padded := pad msg in
  flat_map (be_bytes 4) (fold_left compress (chunks (length padded) 64 padded) H0).

End SHA256.

(* ===================================================================== *)
(** * types.h, core/hash.c: digests                                        *)
(* ===================================================================== *)

Definition SCRIBE_HASH_SIZE : nat := 32.
Definition SCRIBE_HASH_HEX_SIZE : nat := 65.

(** [typedef struct { uint8_t bytes[SCRIBE_HASH_SIZE]; } scribe_hash_t] *)
Definition scribe_hash_t : Type := vec ascii 32.

Definition bytes_of_hash (h : scribe_hash_t) : list ascii := vec_to_list h.

(** The 32 bytes of a buffer as a digest (short buffers are zero-filled:
    every buffer converted below holds exactly 32 bytes). *)
Definition hash_of_bytes (l : list ascii) : scribe_hash_t :=
  fun_to_vec (fun i : fin 32 => nth (fin_to_nat i) l zero).

Definition SCRIBE_ZERO_HASH : scribe_hash_t := vreplicate 32 zero.

#[global] Instance scribe_hash_eq_dec : EqDecision scribe_hash_t := _.
#[global] Instance scribe_hash_inhabited : Inhabited scribe_hash_t :=
  populate SCRIBE_ZERO_HASH.

Definition SHA256_digest (data : list ascii) : scribe_hash_t :=
  hash_of_bytes (map ascii_of_N (SHA256.sha256 (map N_of_ascii data))).

Inductive scribe_error_t : Type :=
  | SCRIBE_OK
  | SCRIBE_ERR_NOMEM
  | SCRIBE_ERR_INVALID_ARG
  | SCRIBE_ERR_NOT_FOUND
  | SCRIBE_ERR_NOT_A_REPO
  | SCRIBE_ERR_REPO_EXISTS
  | SCRIBE_ERR_REPO_CORRUPT
  | SCRIBE_ERR_IO
  | SCRIBE_ERR_DB
  | SCRIBE_ERR_OBJECT_MISSING
  | SCRIBE_ERR_HASH_MISMATCH
  | SCRIBE_ERR_CRYPTO
  | SCRIBE_ERR_PG_CONNECT
  | SCRIBE_ERR_PG_QUERY
  | SCRIBE_ERR_PG_REPLICATION
  | SCRIBE_ERR_JSON_PARSE
  | SCRIBE_ERR_JSON_SCHEMA.

#[global] Instance scribe_error_eq_dec : EqDecision scribe_error_t.
Proof. solve_decision. Defined.

(** [memcmp(hash->bytes, SCRIBE_ZERO_HASH.bytes, 32) == 0]; a NULL pointer
    counts as zero. *)
Definition scribe_hash_is_zero (hash : option scribe_hash_t) : bool :=
  match hash with
  | None => true
  | Some h => bool_decide (h = SCRIBE_ZERO_HASH)
  end.

Definition scribe_hash_equal (a b : option scribe_hash_t) : bool :=
  match a, b with
  | Some x, Some y => bool_decide (x = y)
  | _, _ => false
  end.

(** [scribe_hash_copy(dst, src)]: the new content of [*dst]. *)
Definition scribe_hash_copy (dst : scribe_hash_t) (src : option scribe_hash_t)
  : scribe_hash_t :=
  match src with
  | Some s => s
  | None => dst
  end.

(** [scribe_hash_bytes(data, len, out)]: SHA256(data). *)
Definition scribe_hash_bytes (data : string) : scribe_hash_t :=
  SHA256_digest (list_ascii_of_string data).

(** [scribe_hash_combine(left, right, out)]: SHA256(0x01 || left || right). *)
Definition scribe_hash_combine (left right : scribe_hash_t) : scribe_hash_t :=
  SHA256_digest (ascii_of_nat 1 :: bytes_of_hash left ++ bytes_of_hash right).

(** [scribe_hash_leaf(data, len, out)]: SHA256(0x00 || data). *)
Definition scribe_hash_leaf (data : list ascii) : scribe_hash_t :=
  SHA256_digest (zero :: data).

Definition hex_chars : string := "0123456789abcdef".

Definition hex_char (n : N) : ascii :=
  match String.get (N.to_nat n) hex_chars with
  | Some c => c
  | None => zero
  end.

(** [scribe_hash_to_hex]: two lowercase digits per byte, high nibble first. *)
Definition scribe_hash_to_hex (hash : scribe_hash_t) : string :=
  string_of_list_ascii
    (flat_map (fun b : ascii =>
                 [hex_char (N.land (N.shiftr (N_of_ascii b) 4) 0x0F);
                  hex_char (N.land (N_of_ascii b) 0x0F)])
              (bytes_of_hash hash)).

(** [isxdigit] in the C locale. *)
Definition isxdigit (c : ascii) : bool :=
  let n := N_of_ascii c in
  ((48 <=? n) && (n <=? 57) || (97 <=? n) && (n <=? 102) || (65 <=? n) && (n <=? 70))%N.

(** The value [scribe_hash_from_hex] gives a digit: the letter branches are
    tried first, lowercase before uppercase. *)
Definition hex_digit_val (c : ascii) : N :=
  let n := N_of_ascii c in
  (if 97 <=? n then n - 97 + 10
   else if 65 <=? n then n - 65 + 10
   else n - 48)%N.

(** The loop of [scribe_hash_from_hex]: bytes are stored one by one, so a
    bad digit leaves the bytes before it overwritten. *)
Fixpoint from_hex_loop (digits : list ascii) (i : nat) (out : list ascii)
  : scribe_error_t * list ascii :=
  match digits with
  | high :: low :: rest =>
      if isxdigit high && isxdigit low then
        from_hex_loop rest (S i)
          (<[i := ascii_of_N
                    (N.land (N.lor (N.shiftl (hex_digit_val high) 4) (hex_digit_val low)) 0xFF)]>
             out)
      else (SCRIBE_ERR_INVALID_ARG, out)
  | _ => (SCRIBE_OK, out)
  end.

(** [scribe_hash_from_hex(hex, out_hash)]: the error code and the new
    content of [*out_hash]. *)
Definition scribe_hash_from_hex (hex : option string) (out_hash : scribe_hash_t)
  : scribe_error_t * scribe_hash_t :=
  match hex with
  | None => (SCRIBE_ERR_INVALID_ARG, out_hash)
  | Some s =>
      if negb (String.length s =? SCRIBE_HASH_HEX_SIZE - 1) then
        (SCRIBE_ERR_INVALID_ARG, out_hash)
      else
        let r := from_hex_loop (list_ascii_of_string s) 0 (bytes_of_hash out_hash) in
        (r.1, hash_of_bytes r.2)
  end.

(* ===================================================================== *)
(** * The world: allocation requests and the clock                         *)
(* ===================================================================== *)

(** [allocs] lists the outcomes of the allocation requests still to come
    ([true]: granted); once the list is used up every request is granted.
    [clock] is what [time(NULL)] returns. *)
Record world : Type := mk_world { allocs : list bool; clock : Z }.

Definition World (A : Type) : Type := world -> A * world.

Definition ret {A} (x : A) : World A := fun w => (x, w).

Definition bind {A B} (c : World A) (k : A -> World B) : World B :=
  fun w => let (x, w') := c w in k x w'.

Declare Scope world_scope.
Delimit Scope world_scope with world.
Notation "'let*' x ':=' c 'in' k" := (bind c (fun x => k))
  (at level 10, x name, c at level 100, k at level 200) : world_scope.
Local Open Scope world_scope.

(** One call to [malloc], [calloc], [realloc] or [strdup]: is it granted? *)
Definition request : World bool :=
  fun w =>
    match allocs w with
    | [] => (true, w)
    | b :: rest => (b, {| allocs := rest; clock := clock w |})
    end.

(** [time(NULL)] *)
Definition time_now : World Z := fun w => (clock w, w).

(** A world in which no allocation fails. *)
Definition plenty (now : Z) : world := {| allocs := []; clock := now |}.

(** [safe_strdup(s)]: [s ? strdup(s) : NULL] *)
Definition safe_strdup (s : option string) : World (option string) :=
  match s with
  | None => ret None
  | Some str => let* ok := request in ret (if ok : bool then Some str else None)
  end.

(* ===================================================================== *)
(** * core/merkle.c                                                        *)
(* ===================================================================== *)

Definition INITIAL_CAPACITY : nat := 16.

#[warnings="-register-all"]
Inductive scribe_merkle_node_t : Type :=
  mk_node {
    node_hash : scribe_hash_t;
    node_left : option scribe_merkle_node_t;
    node_right : option scribe_merkle_node_t;
    node_field_name : option string;
    node_data : option (list ascii);
    node_data_size : nat;
    node_is_leaf : bool
  }.

(** What [calloc(1, sizeof(scribe_merkle_node_t))] returns. *)
Definition calloc_node : scribe_merkle_node_t :=
  {| node_hash := SCRIBE_ZERO_HASH; node_left := None; node_right := None;
     node_field_name := None; node_data := None; node_data_size := 0;
     node_is_leaf := false |}.

#[global] Instance scribe_merkle_node_inhabited : Inhabited scribe_merkle_node_t :=
  populate calloc_node.

(** [leaf_count] is the length of [leaves]. *)
Record scribe_merkle_tree_t : Type :=
  mk_tree {
    leaves : list scribe_merkle_node_t;
    leaf_capacity : nat;
    root : option scribe_merkle_node_t;
    built : bool
  }.

Definition leaf_count (tree : scribe_merkle_tree_t) : nat := length (leaves tree).

Definition create_leaf_node (field_name : option string) (data : option (list ascii))
  : World (option scribe_merkle_node_t) :=
  let* ok := request in
  if negb ok then ret None else
  let* name := safe_strdup field_name in
  match data with
  | Some ((_ :: _) as bytes) =>
      let* ok_data := request in
      if negb ok_data then ret None else
      ret (Some {| node_hash := scribe_hash_leaf bytes; node_left := None;
                   node_right := None; node_field_name := name;
                   node_data := Some bytes; node_data_size := length bytes;
                   node_is_leaf := true |})
  | _ =>
      ret (Some {| node_hash := scribe_hash_leaf []; node_left := None;
                   node_right := None; node_field_name := name;
                   node_data := None; node_data_size := 0;
                   node_is_leaf := true |})
  end.

Definition scribe_merkle_tree_new : World (option scribe_merkle_tree_t) :=
  let* ok_tree := request in
  if negb ok_tree then ret None else
  let* ok_leaves := request in
  if negb ok_leaves then ret None else
  ret (Some {| leaves := []; leaf_capacity := INITIAL_CAPACITY;
               root := None; built := false |}).

(** The "expand if needed" block shared by the two [add] functions: [None]
    when [realloc] fails. *)
Definition expand_leaves (tree : scribe_merkle_tree_t)
  : World (option scribe_merkle_tree_t) :=
  if leaf_capacity tree <=? leaf_count tree then
    let new_cap := leaf_capacity tree * 2 in
    let* ok := request in
    if negb ok then ret None else
    ret (Some {| leaves := leaves tree; leaf_capacity := new_cap;
                 root := root tree; built := built tree |})
  else ret (Some tree).

Definition push_leaf (tree : scribe_merkle_tree_t) (node : scribe_merkle_node_t)
  : scribe_merkle_tree_t :=
  {| leaves := leaves tree ++ [node]; leaf_capacity := leaf_capacity tree;
     root := root tree; built := built tree |}.

Definition scribe_merkle_add_field (tree : option scribe_merkle_tree_t)
    (field_name : option string) (data : option (list ascii))
  : World (scribe_error_t * option scribe_merkle_tree_t) :=
  match tree with
  | None => ret (SCRIBE_ERR_INVALID_ARG, tree)
  | Some t =>
      if built t then ret (SCRIBE_ERR_INVALID_ARG, tree) else
      let* expanded := expand_leaves t in
      match expanded with
      | None => ret (SCRIBE_ERR_NOMEM, tree)
      | Some t1 =>
          let* node := create_leaf_node field_name data in
          match node with
          | None => ret (SCRIBE_ERR_NOMEM, Some t1)
          | Some n => ret (SCRIBE_OK, Some (push_leaf t1 n))
          end
      end
  end.

Definition scribe_merkle_add_hash (tree : option scribe_merkle_tree_t)
    (field_name : option string) (hash : option scribe_hash_t)
  : World (scribe_error_t * option scribe_merkle_tree_t) :=
  match tree, hash with
  | Some t, Some h =>
      if built t then ret (SCRIBE_ERR_INVALID_ARG, tree) else
      let* expanded := expand_leaves t in
      match expanded with
      | None => ret (SCRIBE_ERR_NOMEM, tree)
      | Some t1 =>
          let* ok := request in
          if negb ok then ret (SCRIBE_ERR_NOMEM, Some t1) else
          let* name := safe_strdup field_name in
          ret (SCRIBE_OK,
               Some (push_leaf t1
                       {| node_hash := scribe_hash_copy SCRIBE_ZERO_HASH (Some h);
                          node_left := None; node_right := None;
                          node_field_name := name; node_data := None;
                          node_data_size := 0; node_is_leaf := true |}))
      end
  | _, _ => ret (SCRIBE_ERR_INVALID_ARG, tree)
  end.

(** The body of the [for] loop of [scribe_merkle_build] at index [i]: the
    parent of nodes [2i] and [2i+1] of the current level ([None] when
    [calloc] fails). *)
Definition build_parent (current_level : list scribe_merkle_node_t)
    (level_size i : nat) : World (option scribe_merkle_node_t) :=
  let left_idx := i * 2 in
  let right_idx := i * 2 + 1 in
  let right_idx := if level_size <=? right_idx then left_idx else right_idx in
  let* ok := request in
  if negb ok then ret None else
  let left := current_level !!! left_idx in
  let right := if left_idx =? right_idx then None
               else Some (current_level !!! right_idx) in
  ret (Some {| node_hash :=
                 match right with
                 | Some r => scribe_hash_combine (node_hash left) (node_hash r)
                 | None => scribe_hash_combine (node_hash left) (node_hash left)
                 end;
               node_left := Some left; node_right := right;
               node_field_name := None; node_data := None;
               node_data_size := 0; node_is_leaf := false |}).

(** [for (i = ...; i < next_size; i++)], with [todo = next_size - i]; the
    parents are stored at consecutive indices of [next_level]. *)
Fixpoint build_level (current_level : list scribe_merkle_node_t)
    (level_size i todo : nat) (next_level : list scribe_merkle_node_t)
  : World (option (list scribe_merkle_node_t)) :=
  match todo with
  | O => ret (Some next_level)
  | S todo' =>
      let* parent := build_parent current_level level_size i in
      match parent with
      | None => ret None
      | Some p =>
          build_level current_level level_size (S i) todo' (next_level ++ [p])
      end
  end.

(** [while (level_size > 1)]: [None] when an allocation fails.  Each turn
    at least halves the level, so [fuel] = the number of leaves is never
    used up (lemma [build_levels_fuel]). *)
Fixpoint build_levels (fuel : nat) (current_level : list scribe_merkle_node_t)
  : World (option (list scribe_merkle_node_t)) :=
  let level_size := length current_level in
  if level_size <=? 1 then ret (Some current_level) else
  match fuel with
  | O => ret None
  | S fuel' =>
      let next_size := (level_size + 1) / 2 in
      let* ok := request in
      if negb ok then ret None else
      let* next := build_level current_level level_size 0 next_size [] in
      match next with
      | None => ret None
      | Some next_level => build_levels fuel' next_level
      end
  end.

Definition set_root (tree : scribe_merkle_tree_t) (r : option scribe_merkle_node_t)
  : scribe_merkle_tree_t :=
  {| leaves := leaves tree; leaf_capacity := leaf_capacity tree;
     root := r; built := true |}.

Definition scribe_merkle_build (tree : option scribe_merkle_tree_t)
  : World (scribe_error_t * option scribe_merkle_tree_t) :=
  match tree with
  | None => ret (SCRIBE_ERR_INVALID_ARG, tree)
  | Some t =>
      if built t then ret (SCRIBE_OK, tree) else
      if leaf_count t =? 0 then
        let* ok := request in
        if negb ok then ret (SCRIBE_ERR_NOMEM, tree) else
        ret (SCRIBE_OK, Some (set_root t (Some calloc_node)))
      else if leaf_count t =? 1 then
        ret (SCRIBE_OK, Some (set_root t (leaves t !! 0)))
      else
        let* ok := request in
        if negb ok then ret (SCRIBE_ERR_NOMEM, tree) else
        let* top := build_levels (leaf_count t) (leaves t) in
        match top with
        | None => ret (SCRIBE_ERR_NOMEM, tree)
        | Some level => ret (SCRIBE_OK, Some (set_root t (level !! 0)))
        end
  end.

Definition scribe_merkle_root (tree : option scribe_merkle_tree_t)
  : option scribe_hash_t :=
  match tree with
  | Some t =>
      match root t with
      | Some r => Some (node_hash r)
      | None => None
      end
  | None => None
  end.

Definition scribe_merkle_leaf_count (tree : option scribe_merkle_tree_t) : nat :=
  match tree with
  | Some t => leaf_count t
  | None => 0
  end.

Record scribe_merkle_proof_t : Type :=
  mk_proof {
    proof_hashes : list scribe_hash_t;
    proof_positions : list Z;
    proof_depth : nat
  }.

(** [while (n > 1) { n = (n + 1) / 2; depth++; }]; [fuel] = the number of
    leaves is never used up (lemma [tree_depth_fuel]). *)
Fixpoint tree_depth (fuel n depth : nat) : nat :=
  match fuel with
  | O => depth
  | S fuel' => if n <=? 1 then depth else tree_depth fuel' ((n + 1) / 2) (S depth)
  end.

(** The proof is allocated zero-filled and returned as it is: the source
    leaves the walk from leaf to root unwritten.  The two arrays are
    requested even when [depth] is 0. *)
Definition scribe_merkle_proof_create (tree : option scribe_merkle_tree_t)
    (leaf_index : nat) : World (option scribe_merkle_proof_t) :=
  match tree with
  | None => ret None
  | Some t =>
      if negb (built t) || (leaf_count t <=? leaf_index) then ret None else
      let depth := tree_depth (leaf_count t) (leaf_count t) 0 in
      let* ok := request in
      if negb ok then ret None else
      let* ok_hashes := request in
      let* ok_positions := request in
      if negb ok_hashes || negb ok_positions then ret None else
      ret (Some {| proof_hashes := replicate depth SCRIBE_ZERO_HASH;
                   proof_positions := replicate depth 0%Z;
                   proof_depth := depth |})
  end.

(** [for (i = ...; i < proof->depth; i++)] of [scribe_merkle_proof_verify],
    with [todo = depth - i]. *)
Fixpoint proof_fold (proof : scribe_merkle_proof_t) (i todo : nat)
    (current : scribe_hash_t) : scribe_hash_t :=
  match todo with
  | O => current
  | S todo' =>
      let combined :=
        if (proof_positions proof !!! i =? 0)%Z then
          scribe_hash_combine current (proof_hashes proof !!! i)
        else
          scribe_hash_combine (proof_hashes proof !!! i) current in
      proof_fold proof (S i) todo' combined
  end.

Definition scribe_merkle_proof_verify (proof : option scribe_merkle_proof_t)
    (leaf_hash root_hash : option scribe_hash_t) : bool :=
  match proof, leaf_hash, root_hash with
  | Some p, Some leaf, Some _ =>
      scribe_hash_equal (Some (proof_fold p 0 (proof_depth p) leaf)) root_hash
  | _, _, _ => false
  end.

(* ===================================================================== *)
(** * yyjson: mutable documents and the pretty writer                      *)
(* ===================================================================== *)

(** yyjson is a third-party library; what follows is a model of the part of
    its interface that the repository calls.  An object keeps its members in
    the order they were added. *)
#[warnings="-register-all"]
Inductive yyjson_mut_val : Type :=
  | yy_str (s : string)
  | yy_int (z : Z)
  | yy_obj (members : list (string * yyjson_mut_val))
  | yy_arr (items : list yyjson_mut_val).

Definition yyjson_mut_obj : list (string * yyjson_mut_val) := [].
Definition yyjson_mut_arr : list yyjson_mut_val := [].

Definition yyjson_mut_obj_add_val (obj : list (string * yyjson_mut_val))
    (key : string) (val : yyjson_mut_val) : list (string * yyjson_mut_val) :=
  obj ++ [(key, val)].

Definition yyjson_mut_obj_add_str (obj : list (string * yyjson_mut_val))
    (key : string) (val : string) : list (string * yyjson_mut_val) :=
  yyjson_mut_obj_add_val obj key (yy_str val).

Definition yyjson_mut_obj_add_int (obj : list (string * yyjson_mut_val))
    (key : string) (val : Z) : list (string * yyjson_mut_val) :=
  yyjson_mut_obj_add_val obj key (yy_int val).

Definition yyjson_mut_arr_add_val (arr : list yyjson_mut_val)
    (val : yyjson_mut_val) : list yyjson_mut_val :=
  arr ++ [val].

Module Writer.

Definition byte_in (lo hi : N) (c : ascii) : bool :=
  ((lo <=? N_of_ascii c) && (N_of_ascii c <=? hi))%N.

Definition cont (c : ascii) : bool := byte_in 0x80 0xBF c.

(** Well-formed UTF-8 (no overlong forms, no surrogates, at most U+10FFFF):
    the writer refuses any other string. *)
Fixpoint utf8_valid (l : list ascii) : bool :=
  match l with
  | [] => true
  | b0 :: rest =>
      if byte_in 0x00 0x7F b0 then utf8_valid rest
      else
        match rest with
        | b1 :: rest1 =>
            if byte_in 0xC2 0xDF b0 then cont b1 && utf8_valid rest1
            else
              match rest1 with
              | b2 :: rest2 =>
                  if byte_in 0xE0 0xEF b0 then
                    (if byte_in 0xE0 0xE0 b0 then byte_in 0xA0 0xBF b1
                     else if byte_in 0xED 0xED b0 then byte_in 0x80 0x9F b1
                     else cont b1)
                    && cont b2 && utf8_valid rest2
                  else
                    match rest2 with
                    | b3 :: rest3 =>
                        byte_in 0xF0 0xF4 b0
                        && (if byte_in 0xF0 0xF0 b0 then byte_in 0x90 0xBF b1
                            else if byte_in 0xF4 0xF4 b0 then byte_in 0x80 0x8F b1
                            else cont b1)
                        && cont b2 && cont b3 && utf8_valid rest3
                    | [] => false
                    end
              | [] => false
              end
        | [] => false
        end
  end.

Definition quote : ascii := ascii_of_nat 34.
Definition backslash : ascii := ascii_of_nat 92.
Definition newline : ascii := ascii_of_nat 10.

Definition upper_hex (n : N) : ascii :=
  match String.get (N.to_nat n) "0123456789ABCDEF" with
  | Some c => c
  | None => zero
  end.

(** The bytes written for one byte of a string. *)
Definition escape_char (c : ascii) : list ascii :=
  let n := N_of_ascii c in
  if (n =? 34)%N then [backslash; quote]
  else if (n =? 92)%N then [backslash; backslash]
  else if (n =? 8)%N then [backslash; "b"%char]
  else if (n =? 9)%N then [backslash; "t"%char]
  else if (n =? 10)%N then [backslash; "n"%char]
  else if (n =? 12)%N then [backslash; "f"%char]
  else if (n =? 13)%N then [backslash; "r"%char]
  else if (n <? 32)%N then
    [backslash; "u"%char; "0"%char; "0"%char;
     upper_hex (N.shiftr n 4); upper_hex (N.land n 0x0F)]
  else [c].

Definition write_string (s : string) : string :=
  string_of_list_ascii
    (quote :: flat_map escape_char (list_ascii_of_string s) ++ [quote]).

Definition write_int (z : Z) : string := NilZero.string_of_int (Z.to_int z).

Fixpoint indent (level : nat) : string :=
  match level with
  | O => ""
  | S l => "    " +:+ indent l
  end.

Definition nl : string := String newline "".

(** Pretty form: four spaces per level, one member per line, [{}] and [[]]
    for empty containers. *)
Fixpoint write_val (level : nat) (v : yyjson_mut_val) {struct v} : string :=
  match v with
  | yy_str s => write_string s
  | yy_int z => write_int z
  | yy_obj [] => "{}"
  | yy_obj members =>
      "{" +:+ nl +:+
      (fix write_members (l : list (string * yyjson_mut_val)) : string :=
         match l with
         | [] => ""
         | (k, x) :: rest =>
             indent (S level) +:+ write_string k +:+ ": " +:+ write_val (S level) x
             +:+ (match rest with [] => "" | _ => "," end) +:+ nl
             +:+ write_members rest
         end) members
      +:+ indent level +:+ "}"
  | yy_arr [] => "[]"
  | yy_arr items =>
      "[" +:+ nl +:+
      (fix write_items (l : list yyjson_mut_val) : string :=
         match l with
         | [] => ""
         | x :: rest =>
             indent (S level) +:+ write_val (S level) x
             +:+ (match rest with [] => "" | _ => "," end) +:+ nl
             +:+ write_items rest
         end) items
      +:+ indent level +:+ "]"
  end.

(** Every string of the document (keys and values) is valid UTF-8. *)
Fixpoint strings_valid (v : yyjson_mut_val) {struct v} : bool :=
  match v with
  | yy_str s => utf8_valid (list_ascii_of_string s)
  | yy_int _ => true
  | yy_obj members =>
      (fix members_valid (l : list (string * yyjson_mut_val)) : bool :=
         match l with
         | [] => true
         | (k, x) :: rest =>
             utf8_valid (list_ascii_of_string k) && strings_valid x
             && members_valid rest
         end) members
  | yy_arr items =>
      (fix items_valid (l : list yyjson_mut_val) : bool :=
         match l with
         | [] => true
         | x :: rest => strings_valid x && items_valid rest
         end) items
  end.

End Writer.

(** [yyjson_mut_write(doc, YYJSON_WRITE_PRETTY, NULL)]: NULL when a string of
    the document is not valid UTF-8. *)
Definition yyjson_mut_write (root : yyjson_mut_val) : option string :=
  if Writer.strings_valid root then Some (Writer.write_val 0 root) else None.

(* ===================================================================== *)
(** * core/envelope.h, core/envelope.c                                     *)
(* ===================================================================== *)

Definition INITIAL_CHANGE_CAPACITY : nat := 8.

Record scribe_author_t : Type :=
  mk_author {
    author_id : option string;
    author_role : option string;
    author_email : option string
  }.

Record scribe_process_t : Type :=
  mk_process {
    process_name : option string;
    process_version : option string;
    process_params : option string;
    process_source : option string
  }.

Record scribe_change_t : Type :=
  mk_change {
    table_name : option string;
    operation : option string;
    primary_key : option string;
    before_hash : scribe_hash_t;
    after_hash : scribe_hash_t
  }.

(** [change_count] is the length of [changes]. *)
Record scribe_envelope_t : Type :=
  mk_envelope {
    commit_id : scribe_hash_t;
    parent_id : scribe_hash_t;
    tree_hash : scribe_hash_t;
    author : scribe_author_t;
    process : scribe_process_t;
    timestamp : Z;
    message : option string;
    changes : list scribe_change_t;
    change_capacity : nat
  }.

Definition change_count (env : scribe_envelope_t) : nat := length (changes env).

Definition with_commit_id (env : scribe_envelope_t) (h : scribe_hash_t) :=
  mk_envelope h (parent_id env) (tree_hash env) (author env) (process env)
    (timestamp env) (message env) (changes env) (change_capacity env).
Definition with_parent_id (env : scribe_envelope_t) (h : scribe_hash_t) :=
  mk_envelope (commit_id env) h (tree_hash env) (author env) (process env)
    (timestamp env) (message env) (changes env) (change_capacity env).
Definition with_tree_hash (env : scribe_envelope_t) (h : scribe_hash_t) :=
  mk_envelope (commit_id env) (parent_id env) h (author env) (process env)
    (timestamp env) (message env) (changes env) (change_capacity env).
Definition with_author (env : scribe_envelope_t) (a : scribe_author_t) :=
  mk_envelope (commit_id env) (parent_id env) (tree_hash env) a (process env)
    (timestamp env) (message env) (changes env) (change_capacity env).
Definition with_process (env : scribe_envelope_t) (p : scribe_process_t) :=
  mk_envelope (commit_id env) (parent_id env) (tree_hash env) (author env) p
    (timestamp env) (message env) (changes env) (change_capacity env).
Definition with_timestamp (env : scribe_envelope_t) (t : Z) :=
  mk_envelope (commit_id env) (parent_id env) (tree_hash env) (author env)
    (process env) t (message env) (changes env) (change_capacity env).
Definition with_message (env : scribe_envelope_t) (m : option string) :=
  mk_envelope (commit_id env) (parent_id env) (tree_hash env) (author env)
    (process env) (timestamp env) m (changes env) (change_capacity env).
Definition with_changes (env : scribe_envelope_t) (cs : list scribe_change_t)
    (cap : nat) :=
  mk_envelope (commit_id env) (parent_id env) (tree_hash env) (author env)
    (process env) (timestamp env) (message env) cs cap.

Definition scribe_envelope_new : World (option scribe_envelope_t) :=
  let* ok_env := request in
  if negb ok_env then ret None else
  let* ok_changes := request in
  if negb ok_changes then ret None else
  let* now := time_now in
  ret (Some {| commit_id := SCRIBE_ZERO_HASH; parent_id := SCRIBE_ZERO_HASH;
               tree_hash := SCRIBE_ZERO_HASH;
               author := mk_author None None None;
               process := mk_process None None None None;
               timestamp := now; message := None; changes := [];
               change_capacity := INITIAL_CHANGE_CAPACITY |}).

Definition scribe_envelope_set_author (env : option scribe_envelope_t)
    (id role : option string) : World (scribe_error_t * option scribe_envelope_t) :=
  match env with
  | None => ret (SCRIBE_ERR_INVALID_ARG, env)
  | Some e =>
      let* new_id := safe_strdup id in
      let* new_role := safe_strdup role in
      ret (SCRIBE_OK,
           Some (with_author e (mk_author new_id new_role (author_email (author e)))))
  end.

Definition scribe_envelope_set_author_email (env : option scribe_envelope_t)
    (email : option string) : World (scribe_error_t * option scribe_envelope_t) :=
  match env with
  | None => ret (SCRIBE_ERR_INVALID_ARG, env)
  | Some e =>
      let* new_email := safe_strdup email in
      ret (SCRIBE_OK,
           Some (with_author e
                   (mk_author (author_id (author e)) (author_role (author e)) new_email)))
  end.

Definition scribe_envelope_set_process (env : option scribe_envelope_t)
    (name version params : option string)
  : World (scribe_error_t * option scribe_envelope_t) :=
  match env with
  | None => ret (SCRIBE_ERR_INVALID_ARG, env)
  | Some e =>
      let* new_name := safe_strdup name in
      let* new_version := safe_strdup version in
      let* new_params := safe_strdup params in
      ret (SCRIBE_OK,
           Some (with_process e
                   (mk_process new_name new_version new_params
                      (process_source (process e)))))
  end.

Definition scribe_envelope_set_process_source (env : option scribe_envelope_t)
    (source : option string) : World (scribe_error_t * option scribe_envelope_t) :=
  match env with
  | None => ret (SCRIBE_ERR_INVALID_ARG, env)
  | Some e =>
      let* new_source := safe_strdup source in
      ret (SCRIBE_OK,
           Some (with_process e
                   (mk_process (process_name (process e)) (process_version (process e))
                      (process_params (process e)) new_source)))
  end.

Definition scribe_envelope_set_parent (env : option scribe_envelope_t)
    (parent : option scribe_hash_t) : scribe_error_t * option scribe_envelope_t :=
  match env with
  | None => (SCRIBE_ERR_INVALID_ARG, env)
  | Some e =>
      (SCRIBE_OK,
       Some (with_parent_id e
               (match parent with
                | Some _ => scribe_hash_copy (parent_id e) parent
                | None => SCRIBE_ZERO_HASH
                end)))
  end.

Definition scribe_envelope_set_message (env : option scribe_envelope_t)
    (msg : option string) : World (scribe_error_t * option scribe_envelope_t) :=
  match env with
  | None => ret (SCRIBE_ERR_INVALID_ARG, env)
  | Some e =>
      let* new_message := safe_strdup msg in
      ret (SCRIBE_OK, Some (with_message e new_message))
  end.

Definition scribe_envelope_set_tree_hash (env : option scribe_envelope_t)
    (h : option scribe_hash_t) : scribe_error_t * option scribe_envelope_t :=
  match env with
  | None => (SCRIBE_ERR_INVALID_ARG, env)
  | Some e =>
      (SCRIBE_OK,
       Some (with_tree_hash e
               (match h with
                | Some _ => scribe_hash_copy (tree_hash e) h
                | None => SCRIBE_ZERO_HASH
                end)))
  end.

(** No check is made on the operation string or on the digests: the change
    is stored as given (an absent digest as zero). *)
Definition scribe_envelope_add_change (env : option scribe_envelope_t)
    (table op pk : option string) (before after : option scribe_hash_t)
  : World (scribe_error_t * option scribe_envelope_t) :=
  match env with
  | None => ret (SCRIBE_ERR_INVALID_ARG, env)
  | Some e =>
      let* grown :=
        (if change_capacity e <=? change_count e then
           let* ok := request in
           ret (if ok : bool then Some (change_capacity e * 2) else None)
         else ret (Some (change_capacity e))) in
      match grown with
      | None => ret (SCRIBE_ERR_NOMEM, env)
      | Some cap =>
          let* new_table := safe_strdup table in
          let* new_op := safe_strdup op in
          let* new_pk := safe_strdup pk in
          let change :=
            {| table_name := new_table; operation := new_op; primary_key := new_pk;
               before_hash := scribe_hash_copy SCRIBE_ZERO_HASH before;
               after_hash := scribe_hash_copy SCRIBE_ZERO_HASH after |} in
          ret (SCRIBE_OK, Some (with_changes e (changes e ++ [change]) cap))
      end
  end.

Definition add_str_if (obj : list (string * yyjson_mut_val)) (key : string)
    (val : option string) : list (string * yyjson_mut_val) :=
  match val with
  | Some s => yyjson_mut_obj_add_str obj key s
  | None => obj
  end.

Definition add_hex_if (obj : list (string * yyjson_mut_val)) (key : string)
    (h : scribe_hash_t) : list (string * yyjson_mut_val) :=
  if negb (scribe_hash_is_zero (Some h)) then
    yyjson_mut_obj_add_str obj key (scribe_hash_to_hex h)
  else obj.

Definition change_to_val (c : scribe_change_t) : yyjson_mut_val :=
  let change := yyjson_mut_obj in
  let change := add_str_if change "table" (table_name c) in
  let change := add_str_if change "operation" (operation c) in
  let change := add_str_if change "pk" (primary_key c) in
  let change := add_hex_if change "before_hash" (before_hash c) in
  let change := add_hex_if change "after_hash" (after_hash c) in
  yy_obj change.

(** The document [scribe_envelope_to_json] builds.  (The source hands yyjson
    pointers to block-local [hex] buffers; the model takes the text each
    buffer held when it was added.) *)
Definition envelope_doc (env : scribe_envelope_t) : yyjson_mut_val :=
  let root := yyjson_mut_obj in
  let root := add_hex_if root "commit_id" (commit_id env) in
  let root := add_hex_if root "parent_id" (parent_id env) in
  let root := add_hex_if root "tree_hash" (tree_hash env) in
  let a := yyjson_mut_obj in
  let a := add_str_if a "id" (author_id (author env)) in
  let a := add_str_if a "role" (author_role (author env)) in
  let a := add_str_if a "email" (author_email (author env)) in
  let root := yyjson_mut_obj_add_val root "author" (yy_obj a) in
  let p := yyjson_mut_obj in
  let p := add_str_if p "name" (process_name (process env)) in
  let p := add_str_if p "version" (process_version (process env)) in
  let p := add_str_if p "params" (process_params (process env)) in
  let p := add_str_if p "source" (process_source (process env)) in
  let root := yyjson_mut_obj_add_val root "process" (yy_obj p) in
  let root := yyjson_mut_obj_add_int root "timestamp" (timestamp env) in
  let root := add_str_if root "message" (message env) in
  let root :=
    if 0 <? change_count env then
      yyjson_mut_obj_add_val root "changes"
        (yy_arr (fold_left (fun arr c => yyjson_mut_arr_add_val arr (change_to_val c))
                   (changes env) yyjson_mut_arr))
    else root in
  yy_obj root.

Definition scribe_envelope_to_json (env : option scribe_envelope_t) : option string :=
  match env with
  | None => None
  | Some e => yyjson_mut_write (envelope_doc e)
  end.

(** The loop of [scribe_envelope_clone] over the changes; the result of
    [scribe_envelope_add_change] is not looked at. *)
Fixpoint clone_changes (cs : list scribe_change_t) (clone : option scribe_envelope_t)
  : World (option scribe_envelope_t) :=
  match cs with
  | [] => ret clone
  | c :: rest =>
      let* r := scribe_envelope_add_change clone (table_name c) (operation c)
                  (primary_key c) (Some (before_hash c)) (Some (after_hash c)) in
      clone_changes rest r.2
  end.

Definition scribe_envelope_clone (env : option scribe_envelope_t)
  : World (option scribe_envelope_t) :=
  match env with
  | None => ret None
  | Some e =>
      let* fresh := scribe_envelope_new in
      match fresh with
      | None => ret None
      | Some c =>
          let c := with_commit_id c (scribe_hash_copy (commit_id c) (Some (commit_id e))) in
          let c := with_parent_id c (scribe_hash_copy (parent_id c) (Some (parent_id e))) in
          let c := with_tree_hash c (scribe_hash_copy (tree_hash c) (Some (tree_hash e))) in
          let* r := scribe_envelope_set_author (Some c) (author_id (author e))
                      (author_role (author e)) in
          let* r := (match author_email (author e) with
                     | Some _ => scribe_envelope_set_author_email r.2 (author_email (author e))
                     | None => ret r
                     end) in
          let* r := scribe_envelope_set_process r.2 (process_name (process e))
                      (process_version (process e)) (process_params (process e)) in
          let* r := (match process_source (process e) with
                     | Some _ => scribe_envelope_set_process_source r.2
                                   (process_source (process e))
                     | None => ret r
                     end) in
          let* r := (match message e with
                     | Some _ => scribe_envelope_set_message r.2 (message e)
                     | None => ret r
                     end) in
          let clone := option_map (fun c => with_timestamp c (timestamp e)) r.2 in
          clone_changes (changes e) clone
      end
  end.

(** [if (!scribe_hash_is_zero(h)) scribe_merkle_add_hash(tree, name, h);]
    the result of [scribe_merkle_add_hash] is not looked at. *)
Definition add_hash_unless_zero (tree : option scribe_merkle_tree_t)
    (field_name : string) (h : scribe_hash_t)
  : World (option scribe_merkle_tree_t) :=
  if negb (scribe_hash_is_zero (Some h)) then
    let* r := scribe_merkle_add_hash tree (Some field_name) (Some h) in
    ret r.2
  else ret tree.

(** The loop of [scribe_envelope_finalize] that feeds the tree. *)
Fixpoint add_change_hashes (cs : list scribe_change_t)
    (tree : option scribe_merkle_tree_t) : World (option scribe_merkle_tree_t) :=
  match cs with
  | [] => ret tree
  | c :: rest =>
      let* tree1 := add_hash_unless_zero tree "before" (before_hash c) in
      let* tree2 := add_hash_unless_zero tree1 "after" (after_hash c) in
      add_change_hashes rest tree2
  end.

(** The first block of [scribe_envelope_finalize]: [None] when the tree
    cannot be allocated. *)
Definition compute_tree_hash (e : scribe_envelope_t)
  : World (option scribe_envelope_t) :=
  if scribe_hash_is_zero (Some (tree_hash e)) && (0 <? change_count e) then
    let* tree := scribe_merkle_tree_new in
    match tree with
    | None => ret None
    | Some _ =>
        let* tree1 := add_change_hashes (changes e) tree in
        let* r := scribe_merkle_build tree1 in
        match scribe_merkle_root r.2 with
        | Some _ as root_hash =>
            ret (Some (with_tree_hash e (scribe_hash_copy (tree_hash e) root_hash)))
        | None => ret (Some e)
        end
    end
  else ret (Some e).

Definition scribe_envelope_finalize (env : option scribe_envelope_t)
  : World (scribe_error_t * option scribe_envelope_t) :=
  match env with
  | None => ret (SCRIBE_ERR_INVALID_ARG, env)
  | Some e =>
      let* hashed := compute_tree_hash e in
      match hashed with
      | None => ret (SCRIBE_ERR_NOMEM, env)
      | Some e1 =>
          match scribe_envelope_to_json (Some e1) with
          | None => ret (SCRIBE_ERR_NOMEM, Some e1)
          | Some _ =>
              let e2 := with_commit_id e1 SCRIBE_ZERO_HASH in
              match scribe_envelope_to_json (Some e2) with
              | Some json =>
                  ret (SCRIBE_OK, Some (with_commit_id e2 (scribe_hash_bytes json)))
              | None => ret (SCRIBE_OK, Some e2)
              end
          end
      end
  end.

Definition scribe_envelope_verify (env : option scribe_envelope_t)
  : World scribe_error_t :=
  match env with
  | None => ret SCRIBE_ERR_INVALID_ARG
  | Some e =>
      let* copy := scribe_envelope_clone env in
      match copy with
      | None => ret SCRIBE_ERR_NOMEM
      | Some c =>
          match scribe_envelope_to_json (Some (with_commit_id c SCRIBE_ZERO_HASH)) with
          | None => ret SCRIBE_ERR_NOMEM
          | Some json =>
              if negb (scribe_hash_equal (Some (scribe_hash_bytes json))
                         (Some (commit_id e)))
              then ret SCRIBE_ERR_HASH_MISMATCH
              else ret SCRIBE_OK
          end
      end
  end.

(* ===================================================================== *)
(** * storage/database.c: the SQLite commit store                          *)
(* ===================================================================== *)

(** A row of [commits]; the key of the row is its [hash] column.  Columns
    declared [NOT NULL] hold a value, the others an [option].  (The
    [created_at] columns and the [objects] and [config] tables are left
    out: nothing below reads them.) *)
Record commit_row : Type :=
  mk_commit_row {
    col_parent_hash : option string;
    col_tree_hash : string;
    col_author_id : string;
    col_author_role : option string;
    col_author_email : option string;
    col_process_name : string;
    col_process_version : option string;
    col_process_params : option string;
    col_process_source : option string;
    col_message : option string;
    col_timestamp : Z
  }.

(** A row of [changes]; its [id] is its position in the table. *)
Record change_row : Type :=
  mk_change_row {
    col_commit_hash : string;
    col_table_name : string;
    col_operation : string;
    col_primary_key : string;
    col_before_hash : option string;
    col_after_hash : option string
  }.

Record tables : Type :=
  mk_tables {
    commits_table : gmap string commit_row;
    changes_table : list change_row;
    refs_table : gmap string string
  }.

(** An open connection: the current tables and, inside a transaction, the
    tables as they were at [BEGIN]. *)
Record sqlite3 : Type :=
  mk_sqlite3 {
    current : tables;
    snapshot : option tables
  }.

(** [struct scribe_db] *)
Record scribe_db_t : Type :=
  mk_db {
    handle : option sqlite3;
    path : string
  }.

Definition with_handle (db : scribe_db_t) (conn : sqlite3) : scribe_db_t :=
  {| handle := Some conn; path := path db |}.

Definition with_current (conn : sqlite3) (t : tables) : sqlite3 :=
  {| current := t; snapshot := snapshot conn |}.

(** The statements of [SCHEMA_SQL] that leave a trace in the model:
    [INSERT OR IGNORE INTO refs (name, hash) VALUES ('HEAD', '')]. *)
Definition scribe_db_init_schema (db : option scribe_db_t)
  : scribe_error_t * option scribe_db_t :=
  match db with
  | Some d =>
      match handle d with
      | Some conn =>
          let t := current conn in
          let refs' := match refs_table t !! "HEAD" with
                       | Some _ => refs_table t
                       | None => <["HEAD" := ""]> (refs_table t)
                       end in
          (SCRIBE_OK,
           Some (with_handle d
                   (with_current conn
                      (mk_tables (commits_table t) (changes_table t) refs'))))
      | None => (SCRIBE_ERR_INVALID_ARG, db)
      end
  | None => (SCRIBE_ERR_INVALID_ARG, db)
  end.

(** [BEGIN TRANSACTION;] fails inside a transaction. *)
Definition scribe_db_begin (db : option scribe_db_t)
  : scribe_error_t * option scribe_db_t :=
  match db with
  | Some d =>
      match handle d with
      | Some conn =>
          match snapshot conn with
          | Some _ => (SCRIBE_ERR_DB, db)
          | None =>
              (SCRIBE_OK,
               Some (with_handle d
                       {| current := current conn; snapshot := Some (current conn) |}))
          end
      | None => (SCRIBE_ERR_INVALID_ARG, db)
      end
  | None => (SCRIBE_ERR_INVALID_ARG, db)
  end.

(** [COMMIT;] fails outside a transaction. *)
Definition scribe_db_commit (db : option scribe_db_t)
  : scribe_error_t * option scribe_db_t :=
  match db with
  | Some d =>
      match handle d with
      | Some conn =>
          match snapshot conn with
          | None => (SCRIBE_ERR_DB, db)
          | Some _ =>
              (SCRIBE_OK,
               Some (with_handle d {| current := current conn; snapshot := None |}))
          end
      | None => (SCRIBE_ERR_INVALID_ARG, db)
      end
  | None => (SCRIBE_ERR_INVALID_ARG, db)
  end.

(** [ROLLBACK;] fails outside a transaction. *)
Definition scribe_db_rollback (db : option scribe_db_t)
  : scribe_error_t * option scribe_db_t :=
  match db with
  | Some d =>
      match handle d with
      | Some conn =>
          match snapshot conn with
          | None => (SCRIBE_ERR_DB, db)
          | Some saved =>
              (SCRIBE_OK,
               Some (with_handle d {| current := saved; snapshot := None |}))
          end
      | None => (SCRIBE_ERR_INVALID_ARG, db)
      end
  | None => (SCRIBE_ERR_INVALID_ARG, db)
  end.

(** A digest bound as text, or NULL when it is zero. *)
Definition hex_or_null (h : scribe_hash_t) : option string :=
  if scribe_hash_is_zero (Some h) then None else Some (scribe_hash_to_hex h).

(** [INSERT INTO commits ... VALUES (?, ...)] with the values bound from the
    envelope: [None] when a constraint of the schema refuses the row (the
    key is taken, or a [NOT NULL] column is bound to NULL). *)
Definition insert_commit (t : tables) (env : scribe_envelope_t) : option tables :=
  let commit_hex := scribe_hash_to_hex (commit_id env) in
  match commits_table t !! commit_hex,
        author_id (author env), process_name (process env) with
  | None, Some a_id, Some p_name =>
      let row :=
        {| col_parent_hash := hex_or_null (parent_id env);
           col_tree_hash := scribe_hash_to_hex (tree_hash env);
           col_author_id := a_id;
           col_author_role := author_role (author env);
           col_author_email := author_email (author env);
           col_process_name := p_name;
           col_process_version := process_version (process env);
           col_process_params := process_params (process env);
           col_process_source := process_source (process env);
           col_message := message env;
           col_timestamp := timestamp env |} in
      Some (mk_tables (<[commit_hex := row]> (commits_table t))
              (changes_table t) (refs_table t))
  | _, _, _ => None
  end.

Definition operation_allowed (op : string) : bool :=
  bool_decide (op = "INSERT") || bool_decide (op = "UPDATE")
  || bool_decide (op = "DELETE").

(** [INSERT INTO changes ...] for one change: the table is left as it is
    when the row is refused ([NOT NULL], the [CHECK] on [operation], or the
    foreign key on [commit_hash]); the result of [sqlite3_step] is not
    looked at. *)
Definition insert_change (commit_hex : string) (t : tables) (c : scribe_change_t)
  : tables :=
  match table_name c, operation c, primary_key c with
  | Some tbl, Some op, Some pk =>
      if operation_allowed op && bool_decide (is_Some (commits_table t !! commit_hex))
      then
        mk_tables (commits_table t)
          (changes_table t ++
             [{| col_commit_hash := commit_hex; col_table_name := tbl;
                 col_operation := op; col_primary_key := pk;
                 col_before_hash := hex_or_null (before_hash c);
                 col_after_hash := hex_or_null (after_hash c) |}])
          (refs_table t)
      else t
  | _, _, _ => t
  end.

Definition scribe_db_store_commit (db : option scribe_db_t)
    (env : option scribe_envelope_t) : scribe_error_t * option scribe_db_t :=
  match db, env with
  | Some d, Some e =>
      match handle d with
      | Some conn =>
          match insert_commit (current conn) e with
          | None => (SCRIBE_ERR_DB, db)
          | Some t1 =>
              let commit_hex := scribe_hash_to_hex (commit_id e) in
              let t2 := fold_left (insert_change commit_hex) (changes e) t1 in
              (SCRIBE_OK, Some (with_handle d (with_current conn t2)))
          end
      | None => (SCRIBE_ERR_INVALID_ARG, db)
      end
  | _, _ => (SCRIBE_ERR_INVALID_ARG, db)
  end.

Definition scribe_db_commit_exists (db : option scribe_db_t)
    (hash : option scribe_hash_t) : bool :=
  match db, hash with
  | Some d, Some h =>
      match handle d with
      | Some conn =>
          bool_decide (is_Some (commits_table (current conn) !! scribe_hash_to_hex h))
      | None => false
      end
  | _, _ => false
  end.

(** [scribe_db_get_ref(db, name, out_hash)]: the error code and the new
    content of [*out_hash]. *)
Definition scribe_db_get_ref (db : option scribe_db_t) (name : option string)
    (out_hash : scribe_hash_t) : scribe_error_t * scribe_hash_t :=
  match db, name with
  | Some d, Some n =>
      match handle d with
      | Some conn =>
          match refs_table (current conn) !! n with
          | None => (SCRIBE_ERR_NOT_FOUND, out_hash)
          | Some hash_str =>
              if String.length hash_str =? SCRIBE_HASH_HEX_SIZE - 1 then
                (SCRIBE_OK, (scribe_hash_from_hex (Some hash_str) out_hash).2)
              else (SCRIBE_OK, SCRIBE_ZERO_HASH)
          end
      | None => (SCRIBE_ERR_INVALID_ARG, out_hash)
      end
  | _, _ => (SCRIBE_ERR_INVALID_ARG, out_hash)
  end.

(** [INSERT OR REPLACE INTO refs ...] *)
Definition scribe_db_set_ref (db : option scribe_db_t) (name : option string)
    (hash : option scribe_hash_t) : scribe_error_t * option scribe_db_t :=
  match db, name, hash with
  | Some d, Some n, Some h =>
      match handle d with
      | Some conn =>
          let t := current conn in
          (SCRIBE_OK,
           Some (with_handle d
                   (with_current conn
                      (mk_tables (commits_table t) (changes_table t)
                         (<[n := scribe_hash_to_hex h]> (refs_table t))))))
      | None => (SCRIBE_ERR_INVALID_ARG, db)
      end
  | _, _, _ => (SCRIBE_ERR_INVALID_ARG, db)
  end.

(** [SELECT parent_hash FROM commits WHERE hash = ?] for [current], and what
    the loop of [scribe_db_get_history] makes of the answer. *)
Definition next_in_history (t : tables) (cur : scribe_hash_t) : scribe_hash_t :=
  match commits_table t !! scribe_hash_to_hex cur with
  | Some row =>
      match col_parent_hash row with
      | Some parent => (scribe_hash_from_hex (Some parent) cur).2
      | None => SCRIBE_ZERO_HASH
      end
  | None => SCRIBE_ZERO_HASH
  end.

(** [while (list->count < limit && !scribe_hash_is_zero(&current))], with
    [todo = limit - list->count]. *)
Fixpoint history_walk (t : tables) (todo : nat) (cur : scribe_hash_t)
    (hashes : list scribe_hash_t) : list scribe_hash_t :=
  match todo with
  | O => hashes
  | S todo' =>
      if scribe_hash_is_zero (Some cur) then hashes
      else history_walk t todo' (next_in_history t cur) (hashes ++ [cur])
  end.

(** The local [current] is not initialised in the source; it is read before
    being fully written only if the text of HEAD has 64 characters that are
    not all hexadecimal digits.  The model starts it at zero. *)
Definition scribe_db_get_history (db : option scribe_db_t)
    (from : option scribe_hash_t) (limit : nat)
  : World (option (list scribe_hash_t)) :=
  match db with
  | Some d =>
      match handle d with
      | Some conn =>
          let limit := if limit =? 0 then 100 else limit in
          let* ok_list := request in
          if negb ok_list then ret None else
          let* ok_hashes := request in
          if negb ok_hashes then ret None else
          let from_head :=
            let r := scribe_db_get_ref db (Some "HEAD") SCRIBE_ZERO_HASH in
            if negb (bool_decide (r.1 = SCRIBE_OK)) || scribe_hash_is_zero (Some r.2)
            then None else Some r.2 in
          let start :=
            match from with
            | Some f => if negb (scribe_hash_is_zero from) then Some f else from_head
            | None => from_head
            end in
          match start with
          | None => ret None
          | Some cur => ret (Some (history_walk (current conn) limit cur []))
          end
      | None => ret None
      end
  | None => ret None
  end.

(* ===================================================================== *)
(** * storage/repository.c: the facade                                     *)
(* ===================================================================== *)

Record scribe_config_t : Type :=
  mk_config {
    config_author_id : option string;
    config_author_role : option string
  }.

(** [struct scribe_repo], reduced to the handle the operations below use. *)
Record scribe_repo_t : Type :=
  mk_repo { repo_db : option scribe_db_t }.

Definition scribe_repo_get_head (repo : option scribe_repo_t)
    (out_hash : scribe_hash_t) : scribe_error_t * scribe_hash_t :=
  match repo with
  | Some r =>
      match repo_db r with
      | Some _ => scribe_db_get_ref (repo_db r) (Some "HEAD") out_hash
      | None => (SCRIBE_ERR_INVALID_ARG, out_hash)
      end
  | None => (SCRIBE_ERR_INVALID_ARG, out_hash)
  end.

Definition scribe_repo_set_head (repo : option scribe_repo_t)
    (hash : option scribe_hash_t) : scribe_error_t * option scribe_repo_t :=
  match repo, hash with
  | Some r, Some _ =>
      match repo_db r with
      | Some _ =>
          let res := scribe_db_set_ref (repo_db r) (Some "HEAD") hash in
          (res.1, Some (mk_repo res.2))
      | None => (SCRIBE_ERR_INVALID_ARG, repo)
      end
  | _, _ => (SCRIBE_ERR_INVALID_ARG, repo)
  end.

Definition scribe_repo_store_commit (repo : option scribe_repo_t)
    (env : option scribe_envelope_t) : scribe_error_t * option scribe_repo_t :=
  match repo, env with
  | Some r, Some _ =>
      match repo_db r with
      | Some _ =>
          let res := scribe_db_store_commit (repo_db r) env in
          (res.1, Some (mk_repo res.2))
      | None => (SCRIBE_ERR_INVALID_ARG, repo)
      end
  | _, _ => (SCRIBE_ERR_INVALID_ARG, repo)
  end.

Definition scribe_repo_get_history (repo : option scribe_repo_t)
    (from : option scribe_hash_t) (limit : nat)
  : World (option (list scribe_hash_t)) :=
  match repo with
  | Some r =>
      match repo_db r with
      | Some _ =>
          let* db_list := scribe_db_get_history (repo_db r) from limit in
          match db_list with
          | None => ret None
          | Some hashes =>
              let* ok := request in
              if negb ok then ret None else ret (Some hashes)
          end
      | None => ret None
      end
  | None => ret None
  end.

(* ===================================================================== *)
(** * commands/cmd_commit.c                                                *)
(* ===================================================================== *)

Record commit_args : Type :=
  mk_commit_args {
    arg_message : option string;
    arg_author : option string;
    arg_role : option string;
    arg_process : option string;
    arg_version : option string;
    arg_table : option string;
    arg_operation : option string;
    arg_data : option string
  }.

Definition or_else (a b : option string) : option string :=
  match a with
  | Some _ => a
  | None => b
  end.

(** The "add change if specified" block: the digests handed to
    [scribe_envelope_add_change] for an operation string. *)
Definition change_digests (op : string) (data_hash : scribe_hash_t)
  : option scribe_hash_t * option scribe_hash_t :=
  if bool_decide (op = "INSERT") then (None, Some data_hash)
  else if bool_decide (op = "DELETE") then (Some data_hash, None)
  else (None, Some data_hash).

Definition add_requested_change (args : commit_args) (env : option scribe_envelope_t)
  : World (option scribe_envelope_t) :=
  match arg_table args, arg_operation args with
  | Some _, Some op =>
      let data_hash := match arg_data args with
                       | Some data => scribe_hash_bytes data
                       | None => SCRIBE_ZERO_HASH
                       end in
      let ba := change_digests op data_hash in
      let* r := scribe_envelope_add_change env (arg_table args) (Some op)
                  (or_else (arg_data args) (Some "{}")) ba.1 ba.2 in
      ret r.2
  | _, _ => ret env
  end.

(** [cmd_commit] once the repository is open and the configuration loaded:
    the exit code and the repository afterwards.  (The local [parent] is
    not initialised in the source; the model starts it at zero.) *)
Definition cmd_commit (args : commit_args) (config : option scribe_config_t)
    (repo : option scribe_repo_t) : World (Z * option scribe_repo_t) :=
  let* env := scribe_envelope_new in
  match env with
  | None => ret (1%Z, repo)
  | Some _ =>
      let a_id := or_else (or_else (arg_author args)
                             (match config with
                              | Some c => config_author_id c
                              | None => None
                              end)) (Some "user:anonymous") in
      let a_role := or_else (or_else (arg_role args)
                               (match config with
                                | Some c => config_author_role c
                                | None => None
                                end)) (Some "unknown") in
      let* r := scribe_envelope_set_author env a_id a_role in
      let p_name := or_else (arg_process args) (Some "manual") in
      let* r := scribe_envelope_set_process r.2 p_name (arg_version args) None in
      let* r := (match arg_message args with
                 | Some _ => scribe_envelope_set_message r.2 (arg_message args)
                 | None => ret r
                 end) in
      let head := scribe_repo_get_head repo SCRIBE_ZERO_HASH in
      let env1 :=
        if bool_decide (head.1 = SCRIBE_OK) && negb (scribe_hash_is_zero (Some head.2))
        then (scribe_envelope_set_parent r.2 (Some head.2)).2
        else r.2 in
      let* env2 := add_requested_change args env1 in
      let* fin := scribe_envelope_finalize env2 in
      if negb (bool_decide (fin.1 = SCRIBE_OK)) then ret (1%Z, repo) else
      let stored := scribe_repo_store_commit repo fin.2 in
      if negb (bool_decide (stored.1 = SCRIBE_OK)) then ret (1%Z, stored.2) else
      let moved := scribe_repo_set_head stored.2 (option_map commit_id fin.2) in
      if negb (bool_decide (moved.1 = SCRIBE_OK)) then ret (1%Z, moved.2) else
      ret (0%Z, moved.2)
  end.

(* ===================================================================== *)
(** * core/merkle.c, storage/database.c, storage/repository.c: the rest   *)
(* ===================================================================== *)

(** [scribe_merkle_verify]: only the presence of a root is looked at. *)
Definition scribe_merkle_verify (tree : option scribe_merkle_tree_t) : scribe_error_t :=
  match tree with
  | None => SCRIBE_ERR_INVALID_ARG
  | Some t =>
      if negb (built t) then SCRIBE_ERR_INVALID_ARG
      else match root t with
           | None => SCRIBE_ERR_HASH_MISMATCH
           | Some _ => SCRIBE_OK
           end
  end.

(** [SELECT COUNT( * ) FROM commits] *)
Definition scribe_db_commit_count (db : option scribe_db_t) : nat :=
  match db with
  | Some d =>
      match handle d with
      | Some conn => size (commits_table (current conn))
      | None => 0
      end
  | None => 0
  end.

(** [if (col) scribe_hash_from_hex(col, &h);]: what is left in [h]. *)
Definition hash_from_column (col : option string) (h : scribe_hash_t) : scribe_hash_t :=
  match col with
  | Some text => (scribe_hash_from_hex (Some text) h).2
  | None => h
  end.

(** The [while (sqlite3_step(stmt) == SQLITE_ROW)] loop of
    [scribe_db_load_commit] over the rows of [changes]; the result of
    [scribe_envelope_add_change] is not looked at. *)
Fixpoint load_changes (rows : list change_row) (env : option scribe_envelope_t)
  : World (option scribe_envelope_t) :=
  match rows with
  | [] => ret env
  | row :: rest =>
      let before_hash := hash_from_column (col_before_hash row) SCRIBE_ZERO_HASH in
      let after_hash := hash_from_column (col_after_hash row) SCRIBE_ZERO_HASH in
      let* r := scribe_envelope_add_change env (Some (col_table_name row))
                  (Some (col_operation row)) (Some (col_primary_key row))
                  (Some before_hash) (Some after_hash) in
      load_changes rest r.2
  end.

(** [SELECT ... FROM changes WHERE commit_hash = ?]: the rows of the commit.
    The query has no [ORDER BY]; SQLite answers it from [idx_changes_commit],
    whose entries for one commit follow the [id], the order of insertion,
    which is the order taken here. *)
Definition changes_of_commit (t : tables) (hash_hex : string) : list change_row :=
  filter (fun row => col_commit_hash row = hash_hex) (changes_table t).

Definition scribe_db_load_commit (db : option scribe_db_t) (hash : option scribe_hash_t)
  : World (option scribe_envelope_t) :=
  match db, hash with
  | Some d, Some h =>
      match handle d with
      | Some conn =>
          let t := current conn in
          let hash_hex := scribe_hash_to_hex h in
          match commits_table t !! hash_hex with
          | None => ret None
          | Some row =>
              let* env := scribe_envelope_new in
              match env with
              | None => ret None
              | Some e =>
                  let e := with_commit_id e
                             (hash_from_column (Some hash_hex) (commit_id e)) in
                  let e := with_parent_id e
                             (hash_from_column (col_parent_hash row) (parent_id e)) in
                  let e := with_tree_hash e
                             (hash_from_column (Some (col_tree_hash row)) (tree_hash e)) in
                  let* r := scribe_envelope_set_author (Some e)
                              (Some (col_author_id row)) (col_author_role row) in
                  let* r := (match col_author_email row with
                             | Some _ =>
                                 scribe_envelope_set_author_email r.2 (col_author_email row)
                             | None => ret r
                             end) in
                  let* r := scribe_envelope_set_process r.2 (Some (col_process_name row))
                              (col_process_version row) (col_process_params row) in
                  let* r := (match col_process_source row with
                             | Some _ =>
                                 scribe_envelope_set_process_source r.2
                                   (col_process_source row)
                             | None => ret r
                             end) in
                  let* r := (match col_message row with
                             | Some _ => scribe_envelope_set_message r.2 (col_message row)
                             | None => ret r
                             end) in
                  let env := option_map (fun e => with_timestamp e (col_timestamp row)) r.2 in
                  load_changes (changes_of_commit t hash_hex) env
              end
          end
      | None => ret None
      end
  | _, _ => ret None
  end.

Definition scribe_repo_load_commit (repo : option scribe_repo_t)
    (hash : option scribe_hash_t) : World (option scribe_envelope_t) :=
  match repo, hash with
  | Some r, Some _ =>
      match repo_db r with
      | Some _ => scribe_db_load_commit (repo_db r) hash
      | None => ret None
      end
  | _, _ => ret None
  end.

(* ===================================================================== *)
(** * commands/cmd_verify.c                                                *)
(* ===================================================================== *)

(** [verify_commit]: 1 when the commit loads, its [commit_id] verifies and
    its parent, if any, loads.  (What is printed is left out.) *)
Definition verify_commit (repo : option scribe_repo_t) (hash : scribe_hash_t)
  : World Z :=
  let* env := scribe_repo_load_commit repo (Some hash) in
  match env with
  | None => ret 0%Z
  | Some e =>
      let* err := scribe_envelope_verify env in
      if negb (bool_decide (err = SCRIBE_OK)) then ret 0%Z else
      if negb (scribe_hash_is_zero (Some (parent_id e))) then
        let* parent := scribe_repo_load_commit repo (Some (parent_id e)) in
        match parent with
        | None => ret 0%Z
        | Some _ => ret 1%Z
        end
      else ret 1%Z
  end.

(** The [for] loop of [cmd_verify] over the history: the counters
    [verified] and [failed]. *)
Fixpoint verify_all (repo : option scribe_repo_t) (hashes : list scribe_hash_t)
    (verified failed : Z) : World (Z * Z) :=
  match hashes with
  | [] => ret (verified, failed)
  | h :: rest =>
      let* ok := verify_commit repo h in
      if negb (ok =? 0)%Z then verify_all repo rest (verified + 1)%Z failed
      else verify_all repo rest verified (failed + 1)%Z
  end.

(** [cmd_verify] once the repository is open: the exit code.  [commit] is
    the positional argument. *)
Definition cmd_verify (commit : option string) (repo : option scribe_repo_t)
  : World Z :=
  let parsed :=
    match commit with
    | Some text =>
        let r := scribe_hash_from_hex (Some text) SCRIBE_ZERO_HASH in
        if negb (bool_decide (r.1 = SCRIBE_OK)) then None else Some r.2
    | None => Some (scribe_repo_get_head repo SCRIBE_ZERO_HASH).2
    end in
  match parsed with
  | None => ret 1%Z
  | Some start =>
      if scribe_hash_is_zero (Some start) then ret 0%Z else
      let* history := scribe_repo_get_history repo (Some start) 1000 in
      match history with
      | None => ret 1%Z
      | Some hashes =>
          let* counts := verify_all repo hashes 0%Z 0%Z in
          ret (if (counts.2 =? 0)%Z then 0%Z else 1%Z)
      end
  end.

(* ===================================================================== *)
(** * util/path.c                                                          *)
(* ===================================================================== *)

Definition slash : ascii := "/"%char.

(** [while (base_len > 0 && base[base_len - 1] == '/') base_len--;] *)
Fixpoint trim_base_len (base : list ascii) (base_len : nat) : nat :=
  match base_len with
  | O => O
  | S n => if bool_decide (base !! n = Some slash) then trim_base_len base n else S n
  end.

(** [while ( *component == '/') { component++; comp_len--; }] *)
Fixpoint skip_slashes (component : list ascii) : list ascii :=
  match component with
  | c :: rest => if bool_decide (c = slash) then skip_slashes rest else component
  | [] => []
  end.

Definition scribe_path_join (base component : option string) : World (option string) :=
  match base, component with
  | Some b, Some c =>
      let base_chars := list_ascii_of_string b in
      let base_len := trim_base_len base_chars (length base_chars) in
      let comp := skip_slashes (list_ascii_of_string c) in
      let* ok := request in
      if negb ok then ret None else
      ret (Some (string_of_list_ascii (take base_len base_chars ++ slash :: comp)))
  | _, _ => ret None
  end.

(** [strrchr(s, c)] as the index of the last [c] of [s]. *)
Fixpoint strrchr (s : list ascii) (c : ascii) : option nat :=
  match s with
  | [] => None
  | x :: rest =>
      match strrchr rest c with
      | Some i => Some (S i)
      | None => if bool_decide (x = c) then Some 0 else None
      end
  end.

Definition scribe_path_dirname (path : option string) : World (option string) :=
  match path with
  | None => ret None
  | Some p =>
      let* copy := safe_strdup (Some p) in
      match copy with
      | None => ret None
      | Some text =>
          match strrchr (list_ascii_of_string text) slash with
          | None => safe_strdup (Some ".")
          | Some 0 => safe_strdup (Some "/")
          | Some i => ret (Some (string_of_list_ascii (take i (list_ascii_of_string text))))
          end
      end
  end.

Definition scribe_path_basename (path : option string) : option string :=
  match path with
  | None => None
  | Some p =>
      match strrchr (list_ascii_of_string p) slash with
      | Some i => Some (string_of_list_ascii (drop (S i) (list_ascii_of_string p)))
      | None => Some p
      end
  end.

Definition SCRIBE_DIR_NAME : string := ".scribe".

(** The [while (1)] loop of [scribe_find_repo_root]; [is_dir] is what
    [scribe_path_is_dir] answers ([stat] and [S_ISDIR]).  Every turn but
    the last shortens [current], so [fuel] = its length + 1 is enough. *)
Fixpoint find_repo_root_loop (is_dir : string -> bool) (fuel : nat) (current : string)
  : World (option string) :=
  match fuel with
  | O => ret None
  | S fuel' =>
      let* scribe_path := scribe_path_join (Some current) (Some SCRIBE_DIR_NAME) in
      match scribe_path with
      | None => ret None
      | Some candidate =>
          if is_dir candidate then ret (Some candidate) else
          match strrchr (list_ascii_of_string current) slash with
          | None => ret None
          | Some 0 => ret None
          | Some i =>
              find_repo_root_loop is_dir fuel'
                (string_of_list_ascii (take i (list_ascii_of_string current)))
          end
      end
  end.

(** [scribe_find_repo_root]; [realpath] is the C library's ([None] when it
    fails). *)
Definition scribe_find_repo_root (realpath : string -> option string)
    (is_dir : string -> bool) (start_path : option string) : World (option string) :=
  match start_path with
  | None => ret None
  | Some p =>
      match realpath p with
      | None => ret None
      | Some resolved =>
          let* current := safe_strdup (Some resolved) in
          match current with
          | None => ret None
          | Some cur => find_repo_root_loop is_dir (S (String.length cur)) cur
          end
      end
  end.

Definition scribe_repo_exists (realpath : string -> option string)
    (is_dir : string -> bool) (path : option string) : World Z :=
  let* scribe_path := scribe_find_repo_root realpath is_dir path in
  ret (match scribe_path with Some _ => 1%Z | None => 0%Z end).

(* ===================================================================== *)
(** * Reference definitions, observers and scenarios                      *)
(* ===================================================================== *)

(** What follows is not translated from the source: reference definitions
    that follow the words of the specification (to be compared with the
    embedding above), observers of the store, and the concrete scenarios
    used as examples. *)

Local Close Scope string_scope.

(** One level up, as the specification words it: nodes are paired from the
    left, and the last node of an odd level is paired with itself. *)
Fixpoint reference_level (level : list scribe_hash_t) : list scribe_hash_t :=
  match level with
  | [] => []
  | [x] => [scribe_hash_combine x x]
  | x :: y :: rest => scribe_hash_combine x y :: reference_level rest
  end.

Lemma list_pair_ind {A} (P : list A -> Prop) :
  P [] -> (forall x, P [x]) -> (forall x y l, P l -> P (x :: y :: l)) ->
  forall l, P l.
Proof.
  intros Hnil Hone Hstep.
  assert (H : forall l, P l /\ forall x, P (x :: l)).
  { induction l as [|y l [IH1 IH2]]; split; auto. }
  intros l. apply H.
Qed.

Lemma reference_level_length level :
  length (reference_level level) = (length level + 1) / 2.
Proof.
  induction level as [| x | x y l IH] using list_pair_ind; [reflexivity..|].
  cbn [reference_level length]. rewrite IH.
  replace (S (S (length l)) + 1) with ((length l + 1) + 1 * 2) by lia.
  rewrite Nat.div_add by lia. lia.
Qed.

(** The Merkle root bottom-up: zero for no leaf, the leaf's digest for one
    leaf, otherwise the root of the level above. *)
Equations? reference_root (level : list scribe_hash_t) : scribe_hash_t
  by wf (length level) lt :=
  reference_root [] := SCRIBE_ZERO_HASH;
  reference_root [x] := x;
  reference_root (x :: y :: rest) := reference_root (reference_level (x :: y :: rest)).
Proof.
  pose proof (reference_level_length rest) as Hlen.
  assert ((length rest + 1) / 2 < length rest + 1)
    by (apply Nat.Div0.div_lt_upper_bound; lia).
  cbn [length] in *. lia.
Qed.

(** The trees a caller can hold: made by [scribe_merkle_tree_new] and
    passed through [scribe_merkle_add_field], [scribe_merkle_add_hash] and
    [scribe_merkle_build] in any order, whatever the allocator does. *)
Inductive tree_state : scribe_merkle_tree_t -> Prop :=
  | tree_state_new w t w' :
      scribe_merkle_tree_new w = (Some t, w') -> tree_state t
  | tree_state_add_field t name data w err t' w' :
      tree_state t ->
      scribe_merkle_add_field (Some t) name data w = ((err, Some t'), w') ->
      tree_state t'
  | tree_state_add_hash t name h w err t' w' :
      tree_state t ->
      scribe_merkle_add_hash (Some t) name h w = ((err, Some t'), w') ->
      tree_state t'
  | tree_state_build t w err t' w' :
      tree_state t ->
      scribe_merkle_build (Some t) w = ((err, Some t'), w') ->
      tree_state t'.

Definition hex_pair (b : ascii) : list ascii :=
  [hex_char (N.land (N.shiftr (N_of_ascii b) 4) 0x0F);
   hex_char (N.land (N_of_ascii b) 0x0F)].

Definition member_valid (kv : string * yyjson_mut_val) : bool :=
  Writer.utf8_valid (list_ascii_of_string kv.1) && Writer.strings_valid kv.2.

Definition nonzero_digests (cs : list scribe_change_t) : list scribe_hash_t :=
  flat_map (fun c =>
              (if scribe_hash_is_zero (Some (before_hash c)) then []
               else [before_hash c])
              ++ (if scribe_hash_is_zero (Some (after_hash c)) then []
                  else [after_hash c])) cs.

Definition with_merkle_root (e : scribe_envelope_t) : scribe_envelope_t :=
  if scribe_hash_is_zero (Some (tree_hash e)) && (0 <? change_count e)
  then with_tree_hash e (reference_root (nonzero_digests (changes e)))
  else e.

(** An envelope with every field absent. *)
Definition blank_envelope : scribe_envelope_t :=
  mk_envelope SCRIBE_ZERO_HASH SCRIBE_ZERO_HASH SCRIBE_ZERO_HASH
    (mk_author None None None) (mk_process None None None None)
    0 None [] INITIAL_CHANGE_CAPACITY.

(** The invariants the specification states for a change. *)
Definition change_invariants (c : scribe_change_t) : Prop :=
  (operation c = Some "INSERT"%string /\ before_hash c = SCRIBE_ZERO_HASH)
  \/ (operation c = Some "UPDATE"%string
      /\ before_hash c <> SCRIBE_ZERO_HASH /\ after_hash c <> SCRIBE_ZERO_HASH)
  \/ (operation c = Some "DELETE"%string /\ after_hash c = SCRIBE_ZERO_HASH).

(** Observers of a store *)
Definition db_tables (db : option scribe_db_t) : option tables :=
  match db with
  | Some d => option_map current (handle d)
  | None => None
  end.

Definition repo_tables (repo : option scribe_repo_t) : option tables :=
  match repo with
  | Some r => db_tables (repo_db r)
  | None => None
  end.

Definition db_snapshot (db : option scribe_db_t) : option tables :=
  match db with
  | Some d => match handle d with Some conn => snapshot conn | None => None end
  | None => None
  end.

Definition parent_of_env (env : option scribe_envelope_t) : option scribe_hash_t :=
  option_map parent_id env.

(** The parent [cmd_commit] gives the new commit: HEAD when it resolves to
    a non-zero digest, zero otherwise. *)
Definition head_or_zero (repo : option scribe_repo_t) : scribe_hash_t :=
  let head := scribe_repo_get_head repo SCRIBE_ZERO_HASH in
  if bool_decide (head.1 = SCRIBE_OK) && negb (scribe_hash_is_zero (Some head.2))
  then head.2 else SCRIBE_ZERO_HASH.

Definition repo_db_of (repo : option scribe_repo_t) : option scribe_db_t :=
  match repo with
  | Some r => repo_db r
  | None => None
  end.

(** A repository as [scribe_repo_init] leaves it. *)
Definition fresh_repo : scribe_repo_t :=
  mk_repo (scribe_db_init_schema
             (Some (mk_db (Some (mk_sqlite3 (mk_tables ∅ [] ∅) None))
                      ".scribe/scribe.db"))).2.

(** Scenario S2 of the specification, before [finalize]. *)
Definition seed_envelope : scribe_envelope_t :=
  {| commit_id := SCRIBE_ZERO_HASH; parent_id := SCRIBE_ZERO_HASH;
     tree_hash := SCRIBE_ZERO_HASH;
     author := mk_author (Some "user:alice") (Some "data_engineer") None;
     process := mk_process (Some "etl.py") (Some "v1") (Some "--dry-run") None;
     timestamp := 1700000000; message := Some "seed";
     changes := [ mk_change (Some "orders") (Some "INSERT") (Some "{id:1}")
                    SCRIBE_ZERO_HASH (scribe_hash_bytes "{a:1}") ];
     change_capacity := INITIAL_CHANGE_CAPACITY |}.

Definition seed_finalized : scribe_envelope_t :=
  default seed_envelope (scribe_envelope_finalize (Some seed_envelope) (plenty 0)).1.2.

Definition hash_of_hex (text : string) : option scribe_hash_t :=
  let r := scribe_hash_from_hex (Some text) SCRIBE_ZERO_HASH in
  if bool_decide (r.1 = SCRIBE_OK) then Some r.2 else None.

(** The parent recorded for a commit: none when the commit is missing from
    the store or its parent column is NULL. *)
Definition parent_of (t : tables) (c : scribe_hash_t) : option scribe_hash_t :=
  match commits_table t !! scribe_hash_to_hex c with
  | Some row =>
      match col_parent_hash row with
      | Some text => hash_of_hex text
      | None => None
      end
  | None => None
  end.

(** At most [limit] identifiers from [cur] towards the root, newest first. *)
Fixpoint parent_chain (t : tables) (limit : nat) (cur : scribe_hash_t)
  : list scribe_hash_t :=
  match limit with
  | O => []
  | S n =>
      if scribe_hash_is_zero (Some cur) then []
      else cur :: match parent_of t cur with
                  | Some p => parent_chain t n p
                  | None => []
                  end
  end.

(** [if (limit == 0) limit = 100;] *)
Definition effective_limit (limit : nat) : nat := if limit =? 0 then 100 else limit.

(** Every parent column holds the text of a digest. *)
Definition tables_wf (t : tables) : Prop :=
  forall k row text,
    commits_table t !! k = Some row -> col_parent_hash row = Some text ->
    exists h, text = scribe_hash_to_hex h.

(** [ids], newest first, is a chain of commits of the store: each one is
    recorded with the next as its parent, the last with none. *)
Fixpoint is_chain (t : tables) (ids : list scribe_hash_t) : Prop :=
  match ids with
  | [] => True
  | c :: older =>
      c <> SCRIBE_ZERO_HASH
      /\ (exists row,
             commits_table t !! scribe_hash_to_hex c = Some row
             /\ col_parent_hash row = match older with
                                      | [] => None
                                      | p :: _ => Some (scribe_hash_to_hex p)
                                      end)
      /\ is_chain t older
  end.

(** The repositories reached from a fresh one by successful runs of
    [cmd_commit], with the identifiers HEAD took, newest first. *)
Inductive committed : scribe_repo_t -> list scribe_hash_t -> Prop :=
  | committed_fresh : committed fresh_repo []
  | committed_next r ids args config w r' w' c :
      committed r ids ->
      cmd_commit args config (Some r) w = ((0%Z, Some r'), w') ->
      scribe_repo_get_head (Some r') SCRIBE_ZERO_HASH = (SCRIBE_OK, c) ->
      c <> SCRIBE_ZERO_HASH ->
      committed r' (c :: ids).

Definition chain_state (r : scribe_repo_t) (ids : list scribe_hash_t) : Prop :=
  exists d conn,
    repo_db r = Some d /\ handle d = Some conn
    /\ tables_wf (current conn)
    /\ is_chain (current conn) ids
    /\ refs_table (current conn) !! "HEAD"%string
       = Some (match ids with
               | [] => ""%string
               | c :: _ => scribe_hash_to_hex c
               end).

(** A tree as a caller makes it: [scribe_merkle_tree_new], one
    [scribe_merkle_add_hash] per digest, [scribe_merkle_build]. *)
Fixpoint add_digests (digests : list scribe_hash_t)
    (tree : option scribe_merkle_tree_t) : World (option scribe_merkle_tree_t) :=
  match digests with
  | [] => ret tree
  | h :: rest =>
      let* r := scribe_merkle_add_hash tree None (Some h) in
      add_digests rest r.2
  end.

Definition tree_of_digests (digests : list scribe_hash_t)
  : World (option scribe_merkle_tree_t) :=
  let* tree := scribe_merkle_tree_new in
  let* filled := add_digests digests tree in
  let* r := scribe_merkle_build filled in
  ret r.2.

Definition two_leaf_tree : option scribe_merkle_tree_t :=
  (tree_of_digests [scribe_hash_bytes "a"; scribe_hash_bytes "b"] (plenty 0)).1.

(** Three leaves, not built yet. *)
Definition three_leaf_tree : scribe_merkle_tree_t :=
  default (mk_tree [] INITIAL_CAPACITY None false)
    (add_digests [scribe_hash_bytes "a"; scribe_hash_bytes "b"; scribe_hash_bytes "c"]
       (scribe_merkle_tree_new (plenty 0)).1 (plenty 0)).1.

(** An envelope with one UPDATE change carrying both digests. *)
Definition update_envelope : scribe_envelope_t :=
  {| commit_id := SCRIBE_ZERO_HASH; parent_id := SCRIBE_ZERO_HASH;
     tree_hash := SCRIBE_ZERO_HASH;
     author := mk_author (Some "user:alice") (Some "data_engineer") None;
     process := mk_process (Some "etl.py") None None None;
     timestamp := 1700000000; message := None;
     changes := [ mk_change (Some "orders") (Some "UPDATE") (Some "{id:1}")
                    (scribe_hash_bytes "a") (scribe_hash_bytes "b") ];
     change_capacity := INITIAL_CHANGE_CAPACITY |}.

(** The first commit of a fresh repository (scenario S2, through the
    commit command). *)
Definition first_commit_args : commit_args :=
  mk_commit_args (Some "seed") (Some "user:alice") (Some "data_engineer")
    (Some "etl.py") (Some "v1") (Some "orders") (Some "INSERT") (Some "{a:1}").

Definition first_repo : scribe_repo_t :=
  default fresh_repo
    (cmd_commit first_commit_args None (Some fresh_repo) (plenty 1700000000)).1.2.

Definition first_commit_id : scribe_hash_t :=
  (scribe_repo_get_head (Some first_repo) SCRIBE_ZERO_HASH).2.

Definition first_db : scribe_db_t :=
  default (mk_db None "") (repo_db first_repo).

Definition first_conn : sqlite3 :=
  default (mk_sqlite3 (mk_tables ∅ [] ∅) None) (handle first_db).

Definition second_commit_args : commit_args :=
  mk_commit_args (Some "second") (Some "user:alice") (Some "data_engineer")
    (Some "etl.py") (Some "v1") (Some "orders") (Some "UPDATE") (Some "{a:2}").

(** The byte [scribe_hash_from_hex] stores for two digits. *)
Definition decode_pair (high low : ascii) : ascii :=
  ascii_of_N (N.land (N.lor (N.shiftl (hex_digit_val high) 4) (hex_digit_val low)) 0xFF).

Fixpoint decode_pairs (digits : list ascii) : list ascii :=
  match digits with
  | high :: low :: rest => decode_pair high low :: decode_pairs rest
  | _ => []
  end.

(** The number of leading pairs made of two hexadecimal digits. *)
Fixpoint good_pairs (digits : list ascii) : nat :=
  match digits with
  | high :: low :: rest =>
      if isxdigit high && isxdigit low then S (good_pairs rest) else 0
  | _ => 0
  end.

(** [A]..[F] as [a]..[f], any other character as it is. *)
Definition lower_hex (c : ascii) : ascii :=
  let n := N_of_ascii c in
  if ((65 <=? n) && (n <=? 70))%N then ascii_of_N (n + 32) else c.

Definition hex_digits : list ascii :=
  list_ascii_of_string "0123456789abcdefABCDEF".

(** What every tree made through the interface satisfies. *)
Definition tree_wf (t : scribe_merkle_tree_t) : Prop :=
  leaf_count t <= leaf_capacity t
  /\ (exists k, leaf_capacity t = INITIAL_CAPACITY * 2 ^ k)
  /\ Forall (fun n => node_is_leaf n = true /\ node_left n = None /\ node_right n = None)
       (leaves t)
  /\ (built t = false -> root t = None)
  /\ (built t = true -> is_Some (root t)).

(** How an [add] ends: the leaf is appended, or the tree was built and is
    left alone, or an allocation failed and the leaves are as they were. *)
Definition add_result (t : scribe_merkle_tree_t) (leaf_hash : scribe_hash_t)
    (err : scribe_error_t) (t' : scribe_merkle_tree_t) : Prop :=
  (err = SCRIBE_OK /\ built t = false /\ built t' = false /\ root t' = root t
   /\ exists n, leaves t' = leaves t ++ [n] /\ node_hash n = leaf_hash
                /\ node_is_leaf n = true /\ node_left n = None /\ node_right n = None)
  \/ (err = SCRIBE_ERR_INVALID_ARG /\ built t = true /\ t' = t)
  \/ (err = SCRIBE_ERR_NOMEM /\ built t = false /\ built t' = false
      /\ root t' = root t /\ leaves t' = leaves t).

(** The siblings of leaf [i] from the leaves to the root, each with its
    position: 0 when the sibling is on the right of the path, 1 when it is
    on the left.  The last node of an odd level is its own sibling. *)
Equations? sibling_path (level : list scribe_hash_t) (i : nat)
  : list (scribe_hash_t * Z) by wf (length level) lt :=
  sibling_path [] i := [];
  sibling_path [x] i := [];
  sibling_path (x :: y :: rest) i :=
    (if Nat.even i
     then (if S i <? length (x :: y :: rest)
           then (x :: y :: rest) !!! S i else (x :: y :: rest) !!! i, 0%Z)
     else ((x :: y :: rest) !!! (i - 1), 1%Z))
    :: sibling_path (reference_level (x :: y :: rest)) (i / 2).
Proof.
  pose proof (reference_level_length rest) as Hlen.
  assert ((length rest + 1) / 2 < length rest + 1)
    by (apply Nat.Div0.div_lt_upper_bound; lia).
  cbn [length] in *. lia.
Qed.

Definition proof_of_path (path : list (scribe_hash_t * Z)) : scribe_merkle_proof_t :=
  {| proof_hashes := path.*1; proof_positions := path.*2; proof_depth := length path |}.

(** One step of the loop of [scribe_merkle_proof_verify]. *)
Definition proof_step (current : scribe_hash_t) (p : scribe_hash_t * Z) : scribe_hash_t :=
  if (p.2 =? 0)%Z then scribe_hash_combine current p.1
  else scribe_hash_combine p.1 current.

(** The envelopes a caller can hold: made by [scribe_envelope_new] and
    passed through the setters, [scribe_envelope_add_change],
    [scribe_envelope_finalize] and [scribe_envelope_clone] in any order,
    whatever the allocator does. *)
Inductive env_state : scribe_envelope_t -> Prop :=
  | env_state_new w e w' :
      scribe_envelope_new w = (Some e, w') -> env_state e
  | env_state_set_author e id role w err e' w' :
      env_state e ->
      scribe_envelope_set_author (Some e) id role w = ((err, Some e'), w') ->
      env_state e'
  | env_state_set_author_email e email w err e' w' :
      env_state e ->
      scribe_envelope_set_author_email (Some e) email w = ((err, Some e'), w') ->
      env_state e'
  | env_state_set_process e name version params w err e' w' :
      env_state e ->
      scribe_envelope_set_process (Some e) name version params w = ((err, Some e'), w') ->
      env_state e'
  | env_state_set_process_source e source w err e' w' :
      env_state e ->
      scribe_envelope_set_process_source (Some e) source w = ((err, Some e'), w') ->
      env_state e'
  | env_state_set_message e msg w err e' w' :
      env_state e ->
      scribe_envelope_set_message (Some e) msg w = ((err, Some e'), w') ->
      env_state e'
  | env_state_set_parent e parent err e' :
      env_state e ->
      scribe_envelope_set_parent (Some e) parent = (err, Some e') ->
      env_state e'
  | env_state_set_tree_hash e h err e' :
      env_state e ->
      scribe_envelope_set_tree_hash (Some e) h = (err, Some e') ->
      env_state e'
  | env_state_add_change e table op pk before after w err e' w' :
      env_state e ->
      scribe_envelope_add_change (Some e) table op pk before after w
      = ((err, Some e'), w') ->
      env_state e'
  | env_state_finalize e w err e' w' :
      env_state e ->
      scribe_envelope_finalize (Some e) w = ((err, Some e'), w') ->
      env_state e'
  | env_state_clone e w e' w' :
      env_state e ->
      scribe_envelope_clone (Some e) w = (Some e', w') ->
      env_state e'.

(** The changes fit the allocated array, whose capacity is 8 doubled some
    number of times. *)
Definition changes_fit (e : scribe_envelope_t) : Prop :=
  change_count e <= change_capacity e
  /\ exists k, change_capacity e = INITIAL_CHANGE_CAPACITY * 2 ^ k.

(** The digests, the timestamp and the changes of two envelopes are the
    same. *)
Definition same_payload (e e' : scribe_envelope_t) : Prop :=
  commit_id e' = commit_id e /\ parent_id e' = parent_id e
  /\ tree_hash e' = tree_hash e /\ timestamp e' = timestamp e
  /\ changes e' = changes e /\ change_capacity e' = change_capacity e.

(** A change the schema of [changes] takes: its three strings are present
    and its operation is one of the three of the [CHECK]. *)
Definition storable (c : scribe_change_t) : bool :=
  match table_name c, operation c, primary_key c with
  | Some _, Some op, Some _ => operation_allowed op
  | _, _, _ => false
  end.

(** The row of [changes] written for a change. *)
Definition change_row_of (commit_hex : string) (c : scribe_change_t) : option change_row :=
  match table_name c, operation c, primary_key c with
  | Some tbl, Some op, Some pk =>
      if operation_allowed op
      then Some {| col_commit_hash := commit_hex; col_table_name := tbl;
                   col_operation := op; col_primary_key := pk;
                   col_before_hash := hex_or_null (before_hash c);
                   col_after_hash := hex_or_null (after_hash c) |}
      else None
  | _, _, _ => None
  end.

(** The row of [commits] written for an envelope whose author id and
    process name are [a_id] and [p_name]. *)
Definition commit_row_of (env : scribe_envelope_t) (a_id p_name : string) : commit_row :=
  {| col_parent_hash := hex_or_null (parent_id env);
     col_tree_hash := scribe_hash_to_hex (tree_hash env);
     col_author_id := a_id;
     col_author_role := author_role (author env);
     col_author_email := author_email (author env);
     col_process_name := p_name;
     col_process_version := process_version (process env);
     col_process_params := process_params (process env);
     col_process_source := process_source (process env);
     col_message := message env;
     col_timestamp := timestamp env |}.

(** The change read back from a row of [changes]. *)
Definition change_of_row (row : change_row) : scribe_change_t :=
  {| table_name := Some (col_table_name row); operation := Some (col_operation row);
     primary_key := Some (col_primary_key row);
     before_hash := hash_from_column (col_before_hash row) SCRIBE_ZERO_HASH;
     after_hash := hash_from_column (col_after_hash row) SCRIBE_ZERO_HASH |}.

(** The foreign key of [changes]: every row refers to a row of [commits]. *)
Definition tables_fk (t : tables) : Prop :=
  forall row, row ∈ changes_table t -> is_Some (commits_table t !! col_commit_hash row).

(** The change [cmd_commit] adds for its arguments, if any. *)
Definition requested_changes (args : commit_args) : list scribe_change_t :=
  match arg_table args, arg_operation args with
  | Some tbl, Some op =>
      let data_hash := match arg_data args with
                       | Some data => scribe_hash_bytes data
                       | None => SCRIBE_ZERO_HASH
                       end in
      let ba := change_digests op data_hash in
      [ {| table_name := Some tbl; operation := Some op;
           primary_key := or_else (arg_data args) (Some "{}"%string);
           before_hash := default SCRIBE_ZERO_HASH ba.1;
           after_hash := default SCRIBE_ZERO_HASH ba.2 |} ]
  | _, _ => []
  end.

(** The envelope [cmd_commit] hands to [scribe_envelope_finalize] when no
    allocation fails: [parent] is HEAD or zero, [now] the time of the call. *)
Definition commit_envelope (args : commit_args) (config : option scribe_config_t)
    (parent : scribe_hash_t) (now : Z) : scribe_envelope_t :=
  {| commit_id := SCRIBE_ZERO_HASH; parent_id := parent; tree_hash := SCRIBE_ZERO_HASH;
     author :=
       mk_author
         (or_else (or_else (arg_author args)
                     (match config with Some c => config_author_id c | None => None end))
            (Some "user:anonymous"%string))
         (or_else (or_else (arg_role args)
                     (match config with Some c => config_author_role c | None => None end))
            (Some "unknown"%string))
         None;
     process := mk_process (or_else (arg_process args) (Some "manual"%string))
                  (arg_version args) None None;
     timestamp := now; message := arg_message args;
     changes := requested_changes args;
     change_capacity := INITIAL_CHANGE_CAPACITY |}.

(** The repositories reached from a fresh one by runs of [cmd_commit] in
    which no allocation fails and the requested change, if any, has one of
    the operations the schema takes; with the identifiers HEAD took, newest
    first. *)
Inductive clean_history : scribe_repo_t -> list scribe_hash_t -> Prop :=
  | clean_fresh : clean_history fresh_repo []
  | clean_next r ids args config now r' c :
      clean_history r ids ->
      Forall (fun ch => storable ch = true) (requested_changes args) ->
      cmd_commit args config (Some r) (plenty now) = ((0%Z, Some r'), plenty now) ->
      scribe_repo_get_head (Some r') SCRIBE_ZERO_HASH = (SCRIBE_OK, c) ->
      c <> SCRIBE_ZERO_HASH ->
      clean_history r' (c :: ids).

(** The commits of a list that pass [verify_commit], no allocation
    failing. *)
Definition passes (repo : option scribe_repo_t) (now : Z) (c : scribe_hash_t) : bool :=
  negb ((verify_commit repo c (plenty now)).1 =? 0)%Z.

(** Arguments with an operation the schema refuses. *)
Definition upsert_args : commit_args :=
  mk_commit_args (Some "seed") (Some "user:alice") (Some "data_engineer")
    (Some "etl.py") (Some "v1") (Some "orders") (Some "UPSERT") (Some "{a:1}").

(** The absolute path with the given segments: [/s1/s2/.../sn]. *)
Definition path_of (segs : list (list ascii)) : list ascii :=
  flat_map (fun s => slash :: s) segs.

(** A path segment: not empty, no slash. *)
Definition segment (s : list ascii) : Prop := s <> [] /\ slash ∉ s.

(** The [.scribe] directory of the nearest of the first [k] ancestors
    [/s1/.../sk], ..., [/s1] that has one. *)
Fixpoint nearest_repo (is_dir : string -> bool) (k : nat) (segs : list (list ascii))
  : option string :=
  match k with
  | O => None
  | S k' =>
      let candidate :=
        string_of_list_ascii (path_of (take k segs) ++ list_ascii_of_string "/.scribe") in
      if is_dir candidate then Some candidate else nearest_repo is_dir k' segs
  end.

(** The three-leaf tree, built. *)
Definition three_leaf_built : scribe_merkle_tree_t :=
  default three_leaf_tree (scribe_merkle_build (Some three_leaf_tree) (plenty 0)).1.2.

(** The store of a repository as [scribe_repo_init] leaves it. *)
Definition fresh_db : scribe_db_t := default (mk_db None "") (repo_db fresh_repo).

Definition fresh_conn : sqlite3 :=
  default (mk_sqlite3 (mk_tables ∅ [] ∅) None) (handle fresh_db).

(* ===================================================================== *)
(** * Merkle tree: the build against the reference root *)
(* ===================================================================== *)

Lemma reference_root_step level :
  2 <= length level -> reference_root level = reference_root (reference_level level).
Proof.
  destruct level as [|x [|y rest]]; cbn [length]; try lia.
  intros _. now simp reference_root.
Qed.

Lemma reference_level_lookup (level : list scribe_hash_t) i :
  i < (length level + 1) / 2 ->
  reference_level level !! i =
    Some (if length level <=? i * 2 + 1
          then scribe_hash_combine (level !!! (i * 2)) (level !!! (i * 2))
          else scribe_hash_combine (level !!! (i * 2)) (level !!! (i * 2 + 1))).
Proof.
  revert i.
  induction level as [| x | x y l IH] using list_pair_ind; intros i Hi.
  - cbn in Hi. lia.
  - cbn in Hi. assert (i = 0) as -> by lia. reflexivity.
  - destruct i as [|j].
    + reflexivity.
    + cbn [reference_level length] in *.
      replace (S (S (length l)) + 1) with ((length l + 1) + 1 * 2) in Hi by lia.
      rewrite Nat.div_add in Hi by lia.
      rewrite lookup_cons_ne_0 by lia. cbn [pred].
      rewrite IH by lia.
      replace (S j * 2) with (S (S (j * 2))) by lia.
      replace (S (S (j * 2)) + 1) with (S (S (j * 2 + 1))) by lia.
      reflexivity.
Qed.

Lemma node_hash_lookup_total (cur : list scribe_merkle_node_t) k :
  node_hash (cur !!! k) = (node_hash <$> cur) !!! k.
Proof.
  rewrite !list_lookup_total_alt, list_lookup_fmap.
  destruct (cur !! k); reflexivity.
Qed.

Lemma build_parent_hash cur size i w p w' :
  build_parent cur size i w = (Some p, w') ->
  node_hash p =
    if size <=? i * 2 + 1
    then scribe_hash_combine ((node_hash <$> cur) !!! (i * 2))
                             ((node_hash <$> cur) !!! (i * 2))
    else scribe_hash_combine ((node_hash <$> cur) !!! (i * 2))
                             ((node_hash <$> cur) !!! (i * 2 + 1)).
Proof.
  unfold build_parent, bind, ret.
  destruct (request w) as [[] w1]; cbn [negb]; [|discriminate].
  intros [= <- _]. cbn [node_hash].
  rewrite <- !node_hash_lookup_total.
  destruct (size <=? i * 2 + 1) eqn:Hsize.
  - rewrite Nat.eqb_refl. reflexivity.
  - replace (i * 2 =? i * 2 + 1) with false by (symmetry; apply Nat.eqb_neq; lia).
    reflexivity.
Qed.

Lemma build_level_hashes cur todo : forall i acc w next w',
  build_level cur (length cur) i todo acc w = (Some next, w') ->
  i + todo = (length cur + 1) / 2 ->
  node_hash <$> acc = take i (reference_level (node_hash <$> cur)) ->
  node_hash <$> next = reference_level (node_hash <$> cur).
Proof.
  induction todo as [|todo IH]; intros i acc w next w' Hrun Hsum Hacc.
  - cbn in Hrun. injection Hrun as <- _. rewrite Hacc.
    apply take_ge. rewrite reference_level_length, length_fmap. lia.
  - cbn [build_level] in Hrun. unfold bind in Hrun.
    destruct (build_parent cur (length cur) i w) as [[p|] w1] eqn:Hp;
      [|discriminate].
    apply (IH (S i) (acc ++ [p]) w1 next w' Hrun); [lia|].
    rewrite fmap_app, Hacc. cbn [fmap list_fmap].
    rewrite (build_parent_hash _ _ _ _ _ _ Hp).
    erewrite take_S_r; [reflexivity|].
    rewrite reference_level_lookup by (rewrite length_fmap; lia).
    rewrite length_fmap. reflexivity.
Qed.

Lemma build_levels_root fuel : forall cur w top w',
  build_levels fuel cur w = (Some top, w') ->
  cur <> [] ->
  exists x, top = [x] /\ node_hash x = reference_root (node_hash <$> cur).
Proof.
  induction fuel as [|fuel IH]; intros cur w top w' Hrun Hne.
  - cbn in Hrun. destruct (length cur <=? 1) eqn:Hsz; [|discriminate].
    injection Hrun as <- _. apply Nat.leb_le in Hsz.
    destruct cur as [|x [|]]; cbn in Hsz; [congruence| |lia].
    exists x. split; [reflexivity|]. cbn. now simp reference_root.
  - cbn [build_levels] in Hrun.
    destruct (length cur <=? 1) eqn:Hsz.
    + injection Hrun as <- _. apply Nat.leb_le in Hsz.
      destruct cur as [|x [|]]; cbn in Hsz; [congruence| |lia].
      exists x. split; [reflexivity|]. cbn. now simp reference_root.
    + apply Nat.leb_gt in Hsz. unfold bind in Hrun.
      destruct (request w) as [[] w1]; cbn [negb] in Hrun; [|discriminate].
      destruct (build_level cur (length cur) 0 ((length cur + 1) / 2) [] w1)
        as [[next|] w2] eqn:Hlevel; [|discriminate].
      apply build_level_hashes in Hlevel; [|lia|reflexivity].
      destruct (IH next w2 top w' Hrun) as (x & -> & Hx).
      { intros ->. apply (f_equal length) in Hlevel.
        rewrite reference_level_length, !length_fmap in Hlevel.
        assert (1 <= (length cur + 1) / 2) by (apply Nat.div_le_lower_bound; lia).
        cbn [length] in Hlevel. lia. }
      exists x. split; [reflexivity|].
      rewrite Hx, Hlevel. symmetry. apply reference_root_step.
      rewrite length_fmap. lia.
Qed.

(** ** With no allocation failure the build goes through *)

Lemma build_levels_eq fuel cur :
  build_levels (S fuel) cur
  = if length cur <=? 1 then ret (Some cur) else
    let* ok := request in
    if negb ok then ret None else
    let* next := build_level cur (length cur) 0 ((length cur + 1) / 2) [] in
    match next with
    | None => ret None
    | Some next_level => build_levels fuel next_level
    end.
Proof. reflexivity. Qed.

(** The fuel of [build_levels] is never used up, whatever the allocator
    does: one more unit changes nothing. *)
Lemma build_levels_fuel fuel : forall cur w,
  length cur <= fuel -> build_levels (S fuel) cur w = build_levels fuel cur w.
Proof.
  induction fuel as [|fuel IH]; intros cur w Hlen.
  - cbn. now replace (length cur <=? 1) with true by (symmetry; apply Nat.leb_le; lia).
  - rewrite (build_levels_eq (S fuel) cur), (build_levels_eq fuel cur).
    destruct (length cur <=? 1) eqn:Hsz; [reflexivity|]. apply Nat.leb_gt in Hsz.
    unfold bind. destruct (request w) as [[] w1]; cbn [negb]; [|reflexivity].
    destruct (build_level cur (length cur) 0 ((length cur + 1) / 2) [] w1)
      as [[next|] w2] eqn:Hlevel; [|reflexivity].
    apply IH. apply build_level_hashes in Hlevel; [|lia|reflexivity].
    apply (f_equal length) in Hlevel.
    rewrite reference_level_length, !length_fmap in Hlevel. rewrite Hlevel.
    apply Nat.lt_succ_r, Nat.Div0.div_lt_upper_bound. lia.
Qed.

Lemma build_parent_plenty cur size i now :
  exists p, build_parent cur size i (plenty now) = (Some p, plenty now).
Proof. eexists. reflexivity. Qed.

Lemma build_level_plenty cur size now todo : forall i acc,
  exists next,
    build_level cur size i todo acc (plenty now) = (Some next, plenty now)
    /\ length next = length acc + todo.
Proof.
  induction todo as [|todo IH]; intros i acc.
  - exists acc. split; [reflexivity|lia].
  - cbn [build_level]. unfold bind.
    destruct (build_parent_plenty cur size i now) as (p & ->).
    destruct (IH (S i) (acc ++ [p])) as (next & Hrun & Hlen).
    exists next. split; [exact Hrun|].
    rewrite Hlen, length_app. cbn [length]. lia.
Qed.

Lemma build_levels_plenty now fuel : forall cur,
  length cur <= fuel ->
  exists top, build_levels fuel cur (plenty now) = (Some top, plenty now).
Proof.
  induction fuel as [|fuel IH]; intros cur Hfuel.
  - cbn. replace (length cur <=? 1) with true by (symmetry; apply Nat.leb_le; lia).
    eauto.
  - cbn [build_levels]. destruct (length cur <=? 1) eqn:Hsz; [eauto|].
    apply Nat.leb_gt in Hsz.
    unfold bind. cbn [request plenty allocs negb].
    destruct (build_level_plenty cur (length cur) now ((length cur + 1) / 2) 0 [])
      as (next & -> & Hlen).
    apply IH. rewrite Hlen. cbn [length].
    assert ((length cur + 1) / 2 < length cur)
      by (apply Nat.Div0.div_lt_upper_bound; lia).
    lia.
Qed.

Lemma merkle_build_plenty t now :
  built t = false ->
  exists r,
    scribe_merkle_build (Some t) (plenty now)
    = ((SCRIBE_OK, Some (set_root t (Some r))), plenty now).
Proof.
  intros Hb. unfold scribe_merkle_build. rewrite Hb. unfold leaf_count.
  destruct (leaves t) as [|x [|y rest]] eqn:Hl; cbn [length Nat.eqb].
  - eexists. reflexivity.
  - eexists. reflexivity.
  - unfold bind. cbn [request plenty allocs negb].
    destruct (build_levels_plenty now (length (x :: y :: rest)) (x :: y :: rest))
      as (top & Htop); [lia|].
    cbn [length] in Htop. rewrite Htop.
    apply build_levels_root in Htop as (r & -> & _); [|discriminate].
    exists r. reflexivity.
Qed.

Lemma merkle_build_ok t w t' w' :
  built t = false ->
  scribe_merkle_build (Some t) w = ((SCRIBE_OK, t'), w') ->
  scribe_merkle_root t' = Some (reference_root (node_hash <$> leaves t))
  /\ exists r, t' = Some (set_root t r).
Proof.
  intros Hb. unfold scribe_merkle_build. rewrite Hb. unfold leaf_count.
  destruct (leaves t) as [|x [|y rest]] eqn:Hl; cbn [length Nat.eqb].
  - unfold bind, ret. destruct (request w) as [[] w1]; cbn [negb]; [|discriminate].
    intros [= <- _]. split; [|eauto]. cbn. now simp reference_root.
  - unfold ret. intros [= <- _]. split; [|eauto]. cbn. now simp reference_root.
  - unfold bind, ret. destruct (request w) as [[] w1]; cbn [negb]; [|discriminate].
    destruct (build_levels _ _ w1) as [[top|] w2] eqn:Htop; [|discriminate].
    intros [= <- _]. split; [|eauto].
    apply build_levels_root in Htop as (r & -> & Hr); [|discriminate].
    cbn. rewrite Hr. reflexivity.
Qed.

Lemma reference_level_odd (level : list scribe_hash_t) x :
  Nat.Even (length level) ->
  reference_level (level ++ [x]) = reference_level level ++ [scribe_hash_combine x x].
Proof.
  induction level as [| y | y z l IH] using list_pair_ind; intros Heven.
  - reflexivity.
  - destruct Heven as [k Hk]. cbn in Hk. lia.
  - cbn [app reference_level]. rewrite IH; [reflexivity|].
    destruct Heven as [k Hk]. cbn [length] in Hk. exists (k - 1). lia.
Qed.

Lemma reference_level_even (level : list scribe_hash_t) x y :
  Nat.Even (length level) ->
  reference_level (level ++ [x; y]) = reference_level level ++ [scribe_hash_combine x y].
Proof.
  induction level as [| z | z z' l IH] using list_pair_ind; intros Heven.
  - reflexivity.
  - destruct Heven as [k Hk]. cbn in Hk. lia.
  - cbn [app reference_level]. rewrite IH; [reflexivity|].
    destruct Heven as [k Hk]. cbn [length] in Hk. exists (k - 1). lia.
Qed.

Lemma expand_leaves_built t w t1 w1 :
  expand_leaves t w = (Some t1, w1) -> built t1 = built t.
Proof.
  unfold expand_leaves, bind, ret.
  destruct (leaf_capacity t <=? leaf_count t); [|now intros [= <- _]].
  destruct (request w) as [[] w2]; cbn [negb]; [|discriminate].
  now intros [= <- _].
Qed.

Lemma add_field_built t name data w err t' w' :
  scribe_merkle_add_field (Some t) name data w = ((err, Some t'), w') ->
  t' = t \/ built t' = false.
Proof.
  unfold scribe_merkle_add_field. destruct (built t) eqn:Hb.
  - intros [= _ <- _]. now left.
  - unfold bind. destruct (expand_leaves t w) as [[t1|] w1] eqn:Hexp.
    + apply expand_leaves_built in Hexp.
      destruct (create_leaf_node name data w1) as [[n|] w2]; intros [= _ <- _];
        right; cbn; congruence.
    + intros [= _ <- _]. now left.
Qed.

Lemma add_hash_built t name h w err t' w' :
  scribe_merkle_add_hash (Some t) name h w = ((err, Some t'), w') ->
  t' = t \/ built t' = false.
Proof.
  unfold scribe_merkle_add_hash. destruct h as [h|]; [|intros [= _ <- _]; now left].
  destruct (built t) eqn:Hb.
  - intros [= _ <- _]. now left.
  - unfold bind. destruct (expand_leaves t w) as [[t1|] w1] eqn:Hexp.
    + apply expand_leaves_built in Hexp.
      destruct (request w1) as [[] w2]; cbn [negb].
      * destruct (safe_strdup name w2) as [nm w3]. intros [= _ <- _].
        right; cbn; congruence.
      * intros [= _ <- _]. right; congruence.
    + intros [= _ <- _]. now left.
Qed.

Lemma merkle_build_nomem t w err t' w' :
  built t = false ->
  scribe_merkle_build (Some t) w = ((err, Some t'), w') ->
  err = SCRIBE_OK \/ t' = t.
Proof.
  intros Hb. unfold scribe_merkle_build. rewrite Hb. unfold bind, ret.
  destruct (leaf_count t =? 0).
  - destruct (request w) as [[] w1]; cbn [negb]; intros [= <- <- _]; auto.
  - destruct (leaf_count t =? 1); [intros [= <- _ _]; auto|].
    destruct (request w) as [[] w1]; cbn [negb]; [|intros [= <- <- _]; auto].
    destruct (build_levels _ _ w1) as [[top|] w2]; intros [= <- <- _]; auto.
Qed.

(** Once built, a tree holds the reference root of its leaves. *)
Lemma tree_state_root t :
  tree_state t -> built t = true ->
  scribe_merkle_root (Some t) = Some (reference_root (node_hash <$> leaves t)).
Proof.
  induction 1 as [w t w' Hnew | t name data w err t' w' _ IH Hrun
                  | t name h w err t' w' _ IH Hrun | t w err t' w' _ IH Hrun];
    intros Hbuilt.
  - unfold scribe_merkle_tree_new, bind, ret in Hnew.
    destruct (request w) as [[] w1]; cbn [negb] in Hnew; [|discriminate].
    destruct (request w1) as [[] w2]; cbn [negb] in Hnew; [|discriminate].
    injection Hnew as <- _. discriminate.
  - apply add_field_built in Hrun as [->|Hb]; [auto|congruence].
  - apply add_hash_built in Hrun as [->|Hb]; [auto|congruence].
  - destruct (built t) eqn:Hb.
    + unfold scribe_merkle_build in Hrun. rewrite Hb in Hrun.
      injection Hrun as _ <- _. auto.
    + destruct (merkle_build_nomem _ _ _ _ _ Hb Hrun) as [->| ->]; [|congruence].
      destruct (merkle_build_ok _ _ _ _ Hb Hrun) as (Hroot & r & [= ->]).
      exact Hroot.
Qed.

(** C5: for every tree made through the interface, after
    [scribe_merkle_build] the root is the reference bottom-up root of the
    leaf digests: whenever the build returns OK, and it does when no
    allocation fails.  The reference root of no leaf is the zero
    digest, that of one leaf is the leaf's digest, and a level of at least
    two nodes is replaced by the level above, in which an odd last node [x]
    gives [scribe_hash_combine x x] and a pair [x, y] gives
    [scribe_hash_combine x y]. *)
Theorem merkle_build_reference (t : scribe_merkle_tree_t) :
  tree_state t ->
  (forall w t' w',
      scribe_merkle_build (Some t) w = ((SCRIBE_OK, t'), w') ->
      scribe_merkle_root t' = Some (reference_root (node_hash <$> leaves t)))
  /\ (forall now, exists t',
         scribe_merkle_build (Some t) (plenty now) = ((SCRIBE_OK, Some t'), plenty now)
         /\ built t' = true
         /\ scribe_merkle_root (Some t')
            = Some (reference_root (node_hash <$> leaves t)))
  /\ reference_root [] = SCRIBE_ZERO_HASH
  /\ (forall x, reference_root [x] = x)
  /\ (forall level, 2 <= length level ->
        reference_root level = reference_root (reference_level level))
  /\ (forall level x, Nat.Even (length level) ->
        reference_level (level ++ [x])
        = reference_level level ++ [scribe_hash_combine x x])
  /\ (forall level x y, Nat.Even (length level) ->
        reference_level (level ++ [x; y])
        = reference_level level ++ [scribe_hash_combine x y]).
Proof.
  intros Hstate. pose proof (tree_state_root t Hstate) as Hroot.
  repeat apply conj.
  - intros w t' w' Hrun. destruct (built t) eqn:Hb.
    + unfold scribe_merkle_build in Hrun. rewrite Hb in Hrun.
      injection Hrun as <- _. auto.
    + apply (merkle_build_ok t w t' w' Hb Hrun).
  - intros now. destruct (built t) eqn:Hb.
    + exists t. unfold scribe_merkle_build. rewrite Hb. auto.
    + destruct (merkle_build_plenty t now Hb) as (r & Hrun).
      eexists. split; [exact Hrun|]. split; [reflexivity|].
      apply (merkle_build_ok t _ _ _ Hb Hrun).
  - now simp reference_root.
  - intros x. now simp reference_root.
  - apply reference_root_step.
  - apply reference_level_odd.
  - apply reference_level_even.
Qed.

(* ===================================================================== *)
(** * Digests and their hexadecimal text *)
(* ===================================================================== *)

(** ** Digests and their hexadecimal text *)

Lemma hash_of_bytes_of_hash (h : scribe_hash_t) : hash_of_bytes (bytes_of_hash h) = h.
Proof.
  apply vec_eq. intros i. unfold hash_of_bytes, bytes_of_hash.
  rewrite lookup_fun_to_vec, nth_lookup.
  assert (vec_to_list h !! fin_to_nat i = Some (h !!! i)) as ->
    by (apply vlookup_lookup; reflexivity).
  reflexivity.
Qed.

Lemma bytes_of_hash_length (h : scribe_hash_t) : length (bytes_of_hash h) = 32.
Proof. apply length_vec_to_list. Qed.

Lemma string_of_list_ascii_length l :
  String.length (string_of_list_ascii l) = length l.
Proof. induction l as [|c l IH]; cbn; [reflexivity|now rewrite IH]. Qed.

Lemma to_hex_unfold h :
  scribe_hash_to_hex h = string_of_list_ascii (flat_map hex_pair (bytes_of_hash h)).
Proof. reflexivity. Qed.

Lemma hex_pair_decodes (b : ascii) :
  match hex_pair b with
  | [high; low] =>
      isxdigit high && isxdigit low = true
      /\ ascii_of_N (N.land (N.lor (N.shiftl (hex_digit_val high) 4)
                                   (hex_digit_val low)) 0xFF) = b
  | _ => False
  end.
Proof.
  destruct b as [[] [] [] [] [] [] [] []]; vm_compute; split; reflexivity.
Qed.

Lemma flat_map_hex_pair_length bs : length (flat_map hex_pair bs) = 2 * length bs.
Proof. induction bs as [|b bs IH]; cbn [flat_map length app hex_pair]; lia. Qed.

Lemma from_hex_loop_hex_pairs bs : forall pre mid post,
  length mid = length bs ->
  from_hex_loop (flat_map hex_pair bs) (length pre) (pre ++ mid ++ post)
  = (SCRIBE_OK, pre ++ bs ++ post).
Proof.
  induction bs as [|b bs IH]; intros pre mid post Hlen.
  - destruct mid; [reflexivity|discriminate].
  - destruct mid as [|x mid]; [discriminate|].
    cbn [flat_map app length] in *.
    pose proof (hex_pair_decodes b) as Hb.
    unfold hex_pair in *. cbn [app from_hex_loop].
    destruct Hb as [-> ->].
    replace (length pre) with (length pre + 0) at 2 by lia.
    rewrite insert_app_r. cbn [insert list_insert].
    specialize (IH (pre ++ [b]) mid post).
    rewrite length_app, <- !app_assoc in IH. cbn [length app] in IH.
    replace (length pre + 1) with (S (length pre)) in IH by lia.
    apply IH. lia.
Qed.

Lemma from_hex_to_hex (h out : scribe_hash_t) :
  scribe_hash_from_hex (Some (scribe_hash_to_hex h)) out = (SCRIBE_OK, h).
Proof.
  unfold scribe_hash_from_hex. rewrite to_hex_unfold.
  rewrite string_of_list_ascii_length, flat_map_hex_pair_length, bytes_of_hash_length.
  cbn [Nat.eqb negb Nat.mul Nat.add SCRIBE_HASH_HEX_SIZE Nat.sub].
  rewrite list_ascii_of_string_of_list_ascii.
  pose proof (from_hex_loop_hex_pairs (bytes_of_hash h) [] (bytes_of_hash out) []) as Hloop.
  rewrite !app_nil_r in Hloop. cbn [app length] in Hloop.
  rewrite Hloop by (rewrite !bytes_of_hash_length; reflexivity).
  cbn [fst snd]. now rewrite hash_of_bytes_of_hash.
Qed.

Lemma to_hex_length h : String.length (scribe_hash_to_hex h) = 64.
Proof.
  rewrite to_hex_unfold, string_of_list_ascii_length, flat_map_hex_pair_length,
    bytes_of_hash_length. reflexivity.
Qed.

Lemma to_hex_inj h1 h2 : scribe_hash_to_hex h1 = scribe_hash_to_hex h2 -> h1 = h2.
Proof.
  intros Heq.
  pose proof (from_hex_to_hex h1 SCRIBE_ZERO_HASH) as H1.
  rewrite Heq, from_hex_to_hex in H1. congruence.
Qed.

Lemma is_zero_true h : scribe_hash_is_zero (Some h) = true <-> h = SCRIBE_ZERO_HASH.
Proof. cbn. apply bool_decide_eq_true. Qed.

Lemma is_zero_false h : scribe_hash_is_zero (Some h) = false <-> h <> SCRIBE_ZERO_HASH.
Proof. cbn. apply bool_decide_eq_false. Qed.

Lemma hash_equal_refl h : scribe_hash_equal (Some h) (Some h) = true.
Proof. cbn. now apply bool_decide_eq_true. Qed.

(* ===================================================================== *)
(** * The serializer *)
(* ===================================================================== *)

(** ** The writer accepts the hexadecimal text of a digest *)

Lemma ascii_utf8_valid l :
  Forall (fun c => Writer.byte_in 0x00 0x7F c = true) l -> Writer.utf8_valid l = true.
Proof.
  induction 1 as [|c l Hc _ IH]; [reflexivity|].
  cbn [Writer.utf8_valid]. now rewrite Hc.
Qed.

Lemma hex_char_ascii n : Writer.byte_in 0x00 0x7F (hex_char n) = true.
Proof.
  unfold hex_char. generalize (N.to_nat n) as k. intros k.
  do 17 (destruct k as [|k]; [reflexivity|]). reflexivity.
Qed.

Lemma to_hex_utf8_valid h :
  Writer.utf8_valid (list_ascii_of_string (scribe_hash_to_hex h)) = true.
Proof.
  rewrite to_hex_unfold, list_ascii_of_string_of_list_ascii.
  apply ascii_utf8_valid.
  induction (bytes_of_hash h) as [|b bs IH]; cbn [flat_map]; [constructor|].
  apply Forall_app. split; [|exact IH].
  unfold hex_pair. repeat constructor; apply hex_char_ascii.
Qed.

Lemma obj_valid members :
  Writer.strings_valid (yy_obj members) = forallb member_valid members.
Proof.
  induction members as [|[k v] rest IH]; [reflexivity|].
  cbn [forallb]. rewrite <- IH. unfold member_valid. cbn [fst snd].
  reflexivity.
Qed.

Lemma add_val_valid obj k v :
  forallb member_valid (yyjson_mut_obj_add_val obj k v)
  = forallb member_valid obj && member_valid (k, v).
Proof.
  unfold yyjson_mut_obj_add_val. rewrite forallb_app. cbn [forallb].
  now rewrite andb_true_r.
Qed.

Lemma add_hex_if_valid obj k h :
  Writer.utf8_valid (list_ascii_of_string k) = true ->
  forallb member_valid (add_hex_if obj k h) = forallb member_valid obj.
Proof.
  intros Hk. unfold add_hex_if, yyjson_mut_obj_add_str.
  destruct (negb _); [|reflexivity].
  rewrite add_val_valid. unfold member_valid. cbn [fst snd Writer.strings_valid].
  now rewrite Hk, to_hex_utf8_valid, andb_true_r.
Qed.

Lemma add_str_if_valid obj k v :
  forallb member_valid (add_str_if obj k v)
  = forallb member_valid obj
    && match v with Some s => member_valid (k, yy_str s) | None => true end.
Proof.
  destruct v as [s|]; cbn [add_str_if].
  - apply add_val_valid.
  - now rewrite andb_true_r.
Qed.

Lemma envelope_doc_valid_hashes e cid pid th :
  Writer.strings_valid
    (envelope_doc (with_tree_hash (with_parent_id (with_commit_id e cid) pid) th))
  = Writer.strings_valid (envelope_doc e).
Proof.
  unfold envelope_doc. cbv zeta. rewrite !obj_valid.
  unfold change_count, yyjson_mut_obj_add_int.
  cbn [with_commit_id with_parent_id with_tree_hash commit_id parent_id tree_hash
       author process timestamp message changes change_capacity].
  destruct (0 <? length (changes e));
    repeat (rewrite add_val_valid || rewrite add_str_if_valid);
    rewrite !add_hex_if_valid by reflexivity; reflexivity.
Qed.

Lemma to_json_commit_id_some e cid :
  is_Some (scribe_envelope_to_json (Some (with_commit_id e cid)))
  <-> is_Some (scribe_envelope_to_json (Some e)).
Proof.
  unfold scribe_envelope_to_json, yyjson_mut_write.
  pose proof (envelope_doc_valid_hashes e cid (parent_id e) (tree_hash e)) as Hv.
  change (with_tree_hash _ _) with (with_commit_id e cid) in Hv.
  rewrite Hv. destruct (Writer.strings_valid (envelope_doc e)); split; intros [x Hx];
    try discriminate; eauto.
Qed.

Lemma to_json_tree_hash_some e th :
  is_Some (scribe_envelope_to_json (Some (with_tree_hash e th)))
  <-> is_Some (scribe_envelope_to_json (Some e)).
Proof.
  unfold scribe_envelope_to_json, yyjson_mut_write.
  pose proof (envelope_doc_valid_hashes e (commit_id e) (parent_id e) th) as Hv.
  change (with_tree_hash _ _) with (with_tree_hash e th) in Hv.
  rewrite Hv. destruct (Writer.strings_valid (envelope_doc e)); split; intros [x Hx];
    try discriminate; eauto.
Qed.

(* ===================================================================== *)
(** * The envelope when no allocation fails *)
(* ===================================================================== *)

(** ** The envelope operations when no allocation fails *)

Lemma safe_strdup_plenty s now : safe_strdup s (plenty now) = (s, plenty now).
Proof. destruct s; reflexivity. Qed.

Lemma add_hash_plenty t name h now :
  built t = false ->
  exists t',
    scribe_merkle_add_hash (Some t) name (Some h) (plenty now)
    = ((SCRIBE_OK, Some t'), plenty now)
    /\ built t' = false
    /\ node_hash <$> leaves t' = (node_hash <$> leaves t) ++ [h].
Proof.
  intros Hb. unfold scribe_merkle_add_hash, expand_leaves, bind. rewrite Hb.
  destruct (leaf_capacity t <=? leaf_count t);
    cbn [request plenty allocs negb ret]; rewrite safe_strdup_plenty;
    eexists; (split; [reflexivity|]); cbn [push_leaf built leaves]; rewrite fmap_app;
    auto.
Qed.

Lemma bind_run {A B} (c : World A) (k : A -> World B) w x w1 :
  c w = (x, w1) -> bind c k w = k x w1.
Proof. unfold bind. now intros ->. Qed.

Lemma add_hash_unless_zero_plenty t name h now :
  built t = false ->
  exists t',
    add_hash_unless_zero (Some t) name h (plenty now) = (Some t', plenty now)
    /\ built t' = false
    /\ node_hash <$> leaves t'
       = (node_hash <$> leaves t)
         ++ (if scribe_hash_is_zero (Some h) then [] else [h]).
Proof.
  intros Hb. unfold add_hash_unless_zero.
  destruct (scribe_hash_is_zero (Some h)); cbn [negb].
  - exists t. rewrite app_nil_r. auto.
  - destruct (add_hash_plenty t (Some name) h now Hb) as (t1 & Hrun & ? & ?).
    rewrite (bind_run _ _ _ _ _ Hrun). exists t1. auto.
Qed.

Lemma add_change_hashes_plenty now cs : forall t,
  built t = false ->
  exists t',
    add_change_hashes cs (Some t) (plenty now) = (Some t', plenty now)
    /\ built t' = false
    /\ node_hash <$> leaves t' = (node_hash <$> leaves t) ++ nonzero_digests cs.
Proof.
  induction cs as [|c cs IH]; intros t Hb.
  - exists t. cbn. rewrite app_nil_r. auto.
  - cbn [add_change_hashes nonzero_digests flat_map].
    destruct (add_hash_unless_zero_plenty t "before" (before_hash c) now Hb)
      as (t1 & Hrun1 & Hb1 & Hl1).
    rewrite (bind_run _ _ _ _ _ Hrun1).
    destruct (add_hash_unless_zero_plenty t1 "after" (after_hash c) now Hb1)
      as (t2 & Hrun2 & Hb2 & Hl2).
    rewrite (bind_run _ _ _ _ _ Hrun2).
    destruct (IH t2 Hb2) as (t' & Hrun & Hb' & Hl').
    exists t'. split; [exact Hrun|]. split; [exact Hb'|].
    rewrite Hl', Hl2, Hl1, <- !app_assoc. reflexivity.
Qed.

Lemma compute_tree_hash_plenty e now :
  compute_tree_hash e (plenty now) = (Some (with_merkle_root e), plenty now).
Proof.
  unfold compute_tree_hash, with_merkle_root.
  destruct (scribe_hash_is_zero (Some (tree_hash e)) && (0 <? change_count e));
    [|reflexivity].
  set (t0 := {| leaves := []; leaf_capacity := INITIAL_CAPACITY;
                root := None; built := false |}).
  assert (Hnew : scribe_merkle_tree_new (plenty now) = (Some t0, plenty now))
    by reflexivity.
  rewrite (bind_run _ _ _ _ _ Hnew).
  destruct (add_change_hashes_plenty now (changes e) t0 eq_refl)
    as (t1 & Hadd & Hb1 & Hl1).
  rewrite (bind_run _ _ _ _ _ Hadd).
  destruct (merkle_build_plenty t1 now Hb1) as (r & Hrun).
  rewrite (bind_run _ _ _ _ _ Hrun). cbn [snd].
  apply merkle_build_ok in Hrun as [Hroot _]; [|exact Hb1].
  rewrite Hroot, Hl1. reflexivity.
Qed.

Lemma with_tree_hash_id e : with_tree_hash e (tree_hash e) = e.
Proof. destruct e; reflexivity. Qed.

Lemma compute_tree_hash_shape e w e1 w1 :
  compute_tree_hash e w = (Some e1, w1) -> exists th, e1 = with_tree_hash e th.
Proof.
  unfold compute_tree_hash.
  destruct (scribe_hash_is_zero (Some (tree_hash e)) && (0 <? change_count e)).
  - unfold bind. destruct (scribe_merkle_tree_new w) as [[t|] w2]; [|discriminate].
    destruct (add_change_hashes _ _ w2) as [t1 w3].
    destruct (scribe_merkle_build t1 w3) as [r w4].
    destruct (scribe_merkle_root r.2); intros [= <- _]; eauto.
    exists (tree_hash e). now rewrite with_tree_hash_id.
  - intros [= <- _]. exists (tree_hash e). now rewrite with_tree_hash_id.
Qed.

(** What a successful [finalize] returns, whatever the allocator does. *)
Lemma finalize_ok_inv e w e' w' :
  scribe_envelope_finalize (Some e) w = ((SCRIBE_OK, Some e'), w') ->
  exists e1 json,
    compute_tree_hash e w = (Some e1, w')
    /\ scribe_envelope_to_json (Some (with_commit_id e1 SCRIBE_ZERO_HASH)) = Some json
    /\ e' = with_commit_id (with_commit_id e1 SCRIBE_ZERO_HASH) (scribe_hash_bytes json).
Proof.
  unfold scribe_envelope_finalize, bind, ret.
  destruct (compute_tree_hash e w) as [[e1|] w1] eqn:Htree; [|discriminate].
  destruct (scribe_envelope_to_json (Some e1)) as [j1|] eqn:Hj1; [|discriminate].
  destruct (scribe_envelope_to_json (Some (with_commit_id e1 SCRIBE_ZERO_HASH)))
    as [json|] eqn:Hj.
  - intros [= <- <-]. eauto.
  - assert (is_Some (scribe_envelope_to_json
                       (Some (with_commit_id e1 SCRIBE_ZERO_HASH)))) as [x Hx]
      by (apply to_json_commit_id_some; eauto).
    congruence.
Qed.

Lemma add_change_plenty e table op pk before after now :
  exists cap,
    scribe_envelope_add_change (Some e) table op pk (Some before) (Some after)
      (plenty now)
    = ((SCRIBE_OK,
        Some (with_changes e
                (changes e ++ [mk_change table op pk before after]) cap)),
       plenty now).
Proof.
  unfold scribe_envelope_add_change, bind.
  destruct (change_capacity e <=? change_count e);
    cbn [request plenty allocs ret]; rewrite !safe_strdup_plenty;
    eexists; reflexivity.
Qed.

Lemma clone_changes_plenty now cs : forall c0,
  exists cap,
    clone_changes cs (Some c0) (plenty now)
    = (Some (with_changes c0 (changes c0 ++ cs) cap), plenty now).
Proof.
  induction cs as [|c cs IH]; intros c0.
  - exists (change_capacity c0). cbn. rewrite app_nil_r. now destruct c0.
  - cbn [clone_changes]. unfold bind.
    destruct (add_change_plenty c0 (table_name c) (operation c) (primary_key c)
                (before_hash c) (after_hash c) now) as (cap & ->).
    cbn [snd].
    destruct (IH (with_changes c0
                    (changes c0 ++ [mk_change (table_name c) (operation c)
                                      (primary_key c) (before_hash c) (after_hash c)])
                    cap)) as (cap' & ->).
    exists cap'. cbn [with_changes changes commit_id parent_id tree_hash author
                        process timestamp message].
    rewrite <- app_assoc. now destruct c.
Qed.

Lemma set_author_plenty e id role now :
  scribe_envelope_set_author (Some e) id role (plenty now)
  = ((SCRIBE_OK, Some (with_author e (mk_author id role (author_email (author e))))),
     plenty now).
Proof.
  unfold scribe_envelope_set_author, bind. now rewrite !safe_strdup_plenty.
Qed.

Lemma set_author_email_plenty e email now :
  scribe_envelope_set_author_email (Some e) email (plenty now)
  = ((SCRIBE_OK,
      Some (with_author e
              (mk_author (author_id (author e)) (author_role (author e)) email))),
     plenty now).
Proof.
  unfold scribe_envelope_set_author_email, bind. now rewrite !safe_strdup_plenty.
Qed.

Lemma set_process_plenty e name version params now :
  scribe_envelope_set_process (Some e) name version params (plenty now)
  = ((SCRIBE_OK,
      Some (with_process e
              (mk_process name version params (process_source (process e))))),
     plenty now).
Proof.
  unfold scribe_envelope_set_process, bind. now rewrite !safe_strdup_plenty.
Qed.

Lemma set_process_source_plenty e source now :
  scribe_envelope_set_process_source (Some e) source (plenty now)
  = ((SCRIBE_OK,
      Some (with_process e
              (mk_process (process_name (process e)) (process_version (process e))
                 (process_params (process e)) source))),
     plenty now).
Proof.
  unfold scribe_envelope_set_process_source, bind. now rewrite !safe_strdup_plenty.
Qed.

Lemma set_message_plenty e msg now :
  scribe_envelope_set_message (Some e) msg (plenty now)
  = ((SCRIBE_OK, Some (with_message e msg)), plenty now).
Proof.
  unfold scribe_envelope_set_message, bind. now rewrite !safe_strdup_plenty.
Qed.

Lemma envelope_new_plenty now :
  scribe_envelope_new (plenty now)
  = (Some (mk_envelope SCRIBE_ZERO_HASH SCRIBE_ZERO_HASH SCRIBE_ZERO_HASH
             (mk_author None None None) (mk_process None None None None)
             now None [] INITIAL_CHANGE_CAPACITY),
     plenty now).
Proof. reflexivity. Qed.

Lemma clone_plenty e now :
  exists cap,
    scribe_envelope_clone (Some e) (plenty now)
    = (Some (with_changes e (changes e) cap), plenty now).
Proof.
  destruct e as [cid pid th a p ts msg cs cap0].
  destruct a as [a_id a_role a_email]. destruct p as [p_name p_ver p_par p_src].
  unfold scribe_envelope_clone.
  rewrite (bind_run _ _ _ _ _ (envelope_new_plenty now)).
  cbn [with_commit_id with_parent_id with_tree_hash commit_id parent_id tree_hash
       author process timestamp message changes change_capacity scribe_hash_copy
       author_id author_role author_email process_name process_version
       process_params process_source].
  rewrite (bind_run _ _ _ _ _ (set_author_plenty _ _ _ now)). cbn [snd].
  destruct a_email as [email|].
  all: try rewrite (bind_run _ _ _ _ _ (set_author_email_plenty _ _ now)).
  all: try rewrite (bind_run _ _ _ _ _ (eq_refl : ret _ (plenty now) = (_, _))).
  all: cbn [snd]; rewrite (bind_run _ _ _ _ _ (set_process_plenty _ _ _ _ now)).
  all: cbn [snd]; destruct p_src as [src|].
  all: try rewrite (bind_run _ _ _ _ _ (set_process_source_plenty _ _ now)).
  all: try rewrite (bind_run _ _ _ _ _ (eq_refl : ret _ (plenty now) = (_, _))).
  all: cbn [snd]; destruct msg as [m|].
  all: try rewrite (bind_run _ _ _ _ _ (set_message_plenty _ _ now)).
  all: try rewrite (bind_run _ _ _ _ _ (eq_refl : ret _ (plenty now) = (_, _))).
  all: cbn [snd option_map].
  all: match goal with |- context [clone_changes ?l (Some ?c0) _] =>
      destruct (clone_changes_plenty now l c0) as (cap & ->) end.
  all: exists cap; reflexivity.
Qed.

(* ===================================================================== *)
(** * Finalize and verify *)
(* ===================================================================== *)

Lemma envelope_doc_capacity e cap :
  envelope_doc (with_changes e (changes e) cap) = envelope_doc e.
Proof. reflexivity. Qed.

Lemma verify_plenty e json now :
  scribe_envelope_to_json (Some (with_commit_id e SCRIBE_ZERO_HASH)) = Some json ->
  commit_id e = scribe_hash_bytes json ->
  scribe_envelope_verify (Some e) (plenty now) = (SCRIBE_OK, plenty now).
Proof.
  intros Hjson Hid. unfold scribe_envelope_verify.
  destruct (clone_plenty e now) as (cap & Hclone).
  rewrite (bind_run _ _ _ _ _ Hclone).
  change (scribe_envelope_to_json
            (Some (with_commit_id (with_changes e (changes e) cap) SCRIBE_ZERO_HASH)))
    with (scribe_envelope_to_json (Some (with_commit_id e SCRIBE_ZERO_HASH))).
  rewrite Hjson, Hid, hash_equal_refl. reflexivity.
Qed.



Lemma finalize_plenty e now :
  scribe_envelope_finalize (Some e) (plenty now)
  = (match scribe_envelope_to_json
             (Some (with_commit_id (with_merkle_root e) SCRIBE_ZERO_HASH)) with
     | Some json =>
         (SCRIBE_OK,
          Some (with_commit_id (with_commit_id (with_merkle_root e) SCRIBE_ZERO_HASH)
                  (scribe_hash_bytes json)))
     | None => (SCRIBE_ERR_NOMEM, Some (with_merkle_root e))
     end, plenty now).
Proof.
  unfold scribe_envelope_finalize.
  rewrite (bind_run _ _ _ _ _ (compute_tree_hash_plenty e now)).
  generalize (with_merkle_root e) as e1. intros e1.
  destruct (scribe_envelope_to_json (Some e1)) as [j1|] eqn:Hj1.
  - destruct (proj2 (to_json_commit_id_some e1 SCRIBE_ZERO_HASH)) as [json Hjson];
      [eauto|].
    rewrite Hjson. reflexivity.
  - destruct (scribe_envelope_to_json (Some (with_commit_id e1 SCRIBE_ZERO_HASH)))
      as [json|] eqn:Hjson; [|reflexivity].
    assert (is_Some (scribe_envelope_to_json (Some e1))) as [x Hx]
      by (apply (to_json_commit_id_some e1 SCRIBE_ZERO_HASH); eauto).
    congruence.
Qed.





(* ===================================================================== *)
(** * Error codes of finalize; changes *)
(* ===================================================================== *)

(** An envelope without author and process is finalized with OK. *)
Lemma finalize_absent_fields_counterexample :
  ~ (forall e w,
        author_id (author e) = None \/ author_role (author e) = None
        \/ process_name (process e) = None ->
        (scribe_envelope_finalize (Some e) w).1.1 = SCRIBE_ERR_INVALID_ARG).
Proof.
  intros Hall.
  specialize (Hall blank_envelope (plenty 0) (or_introl eq_refl)).
  vm_compute in Hall. discriminate.
Qed.

Lemma to_json_none_tree_hash e th :
  scribe_envelope_to_json (Some e) = None ->
  scribe_envelope_to_json (Some (with_tree_hash e th)) = None.
Proof.
  intros Hnone.
  destruct (scribe_envelope_to_json (Some (with_tree_hash e th))) eqn:Hj; [|reflexivity].
  assert (is_Some (scribe_envelope_to_json (Some e))) as [x Hx]
    by (apply (to_json_tree_hash_some e th); eauto).
  congruence.
Qed.

(** C9, amended: [finalize] returns INVALID_ARG for a null envelope and
    for no other envelope, whatever fields are absent; it returns NOMEM when
    the Merkle tree cannot be allocated and when the envelope does not
    serialize; an envelope that serializes is finalized with OK when no
    allocation fails. *)
Theorem finalize_error_codes :
  (forall w,
      scribe_envelope_finalize None w = ((SCRIBE_ERR_INVALID_ARG, None), w))
  /\ (forall e w,
        (scribe_envelope_finalize (Some e) w).1.1 <> SCRIBE_ERR_INVALID_ARG)
  /\ (forall e w w1,
        scribe_hash_is_zero (Some (tree_hash e)) = true -> 0 < change_count e ->
        scribe_merkle_tree_new w = (None, w1) ->
        scribe_envelope_finalize (Some e) w = ((SCRIBE_ERR_NOMEM, Some e), w1))
  /\ (forall e w,
        scribe_envelope_to_json (Some e) = None ->
        (scribe_envelope_finalize (Some e) w).1.1 = SCRIBE_ERR_NOMEM)
  /\ (forall e now,
        is_Some (scribe_envelope_to_json (Some e)) ->
        (scribe_envelope_finalize (Some e) (plenty now)).1.1 = SCRIBE_OK).
Proof.
  repeat apply conj.
  - reflexivity.
  - intros e w. unfold scribe_envelope_finalize, bind, ret.
    destruct (compute_tree_hash e w) as [[e1|] w1]; [|discriminate].
    destruct (scribe_envelope_to_json (Some e1)); [|discriminate].
    destruct (scribe_envelope_to_json _); discriminate.
  - intros e w w1 Hzero Hcount Hnew.
    unfold scribe_envelope_finalize, compute_tree_hash.
    rewrite Hzero. replace (0 <? change_count e) with true
      by (symmetry; now apply Nat.ltb_lt).
    cbn [andb]. unfold bind at 1. unfold bind at 1. rewrite Hnew. reflexivity.
  - intros e w Hnone. unfold scribe_envelope_finalize, bind, ret.
    destruct (compute_tree_hash e w) as [[e1|] w1] eqn:Htree; [|reflexivity].
    apply compute_tree_hash_shape in Htree as [th ->].
    now rewrite (to_json_none_tree_hash e th Hnone).
  - intros e now [json Hjson]. rewrite finalize_plenty.
    assert (is_Some (scribe_envelope_to_json
                       (Some (with_commit_id (with_merkle_root e) SCRIBE_ZERO_HASH))))
      as [j ->]; [|reflexivity].
    apply to_json_commit_id_some. unfold with_merkle_root.
    destruct (_ && _); [|eauto]. apply to_json_tree_hash_some. eauto.
Qed.

(** ** Changes *)

(** An UPDATE with no before digest is accepted. *)
Lemma add_change_invariants_counterexample :
  ~ (forall e table op pk before after w e' w',
        Forall change_invariants (changes e) ->
        scribe_envelope_add_change (Some e) table op pk before after w
        = ((SCRIBE_OK, Some e'), w') ->
        Forall change_invariants (changes e')).
Proof.
  intros Hall.
  assert (Hbase : Forall change_invariants (changes blank_envelope)) by constructor.
  specialize (Hall blank_envelope (Some "orders"%string) (Some "UPDATE"%string)
                (Some "{}"%string) None (Some (scribe_hash_bytes "{a:2}"))
                (plenty 0) _ _ Hbase eq_refl).
  apply Forall_inv in Hall.
  destruct Hall as [[Hop _]|[(_ & Hbefore & _)|[Hop _]]].
  - discriminate Hop.
  - apply Hbefore. reflexivity.
  - discriminate Hop.
Qed.

Lemma add_change_ok_inv e table op pk before after w e' w' :
  scribe_envelope_add_change (Some e) table op pk before after w
  = ((SCRIBE_OK, Some e'), w') ->
  exists c,
    changes e' = changes e ++ [c]
    /\ before_hash c = default SCRIBE_ZERO_HASH before
    /\ after_hash c = default SCRIBE_ZERO_HASH after
    /\ (operation c = op \/ operation c = None).
Proof.
  unfold scribe_envelope_add_change, bind, ret.
  destruct (change_capacity e <=? change_count e).
  - destruct (request w) as [[] w1]; [|discriminate].
    destruct (safe_strdup table w1) as [t w2].
    destruct (safe_strdup op w2) as [o w3] eqn:Hop.
    destruct (safe_strdup pk w3) as [p w4].
    intros [= <- _]. eexists. split; [reflexivity|].
    cbn [before_hash after_hash operation].
    split; [now destruct before|]. split; [now destruct after|].
    destruct op as [s|]; cbn in Hop; [|injection Hop as <- _; auto].
    unfold bind, ret in Hop. destruct (request w2) as [[] ?];
      injection Hop as <- _; auto.
  - destruct (safe_strdup table w) as [t w2].
    destruct (safe_strdup op w2) as [o w3] eqn:Hop.
    destruct (safe_strdup pk w3) as [p w4].
    intros [= <- _]. eexists. split; [reflexivity|].
    cbn [before_hash after_hash operation].
    split; [now destruct before|]. split; [now destruct after|].
    destruct op as [s|]; cbn in Hop; [|injection Hop as <- _; auto].
    unfold bind, ret in Hop. destruct (request w2) as [[] ?];
      injection Hop as <- _; auto.
Qed.

(** C8, amended: [scribe_envelope_add_change] appends the change as
    given, whatever the operation string and the digests (an absent digest
    is stored as zero); the commit command passes no before digest for
    INSERT, no after digest for DELETE, and no before digest for any other
    operation string; the store is where the operation string is checked:
    a change whose operation is not INSERT, UPDATE or DELETE gets no row. *)
Theorem add_change_stores_as_given :
  (forall e table op pk before after w e' w',
      scribe_envelope_add_change (Some e) table op pk before after w
      = ((SCRIBE_OK, Some e'), w') ->
      exists c,
        changes e' = changes e ++ [c]
        /\ before_hash c = default SCRIBE_ZERO_HASH before
        /\ after_hash c = default SCRIBE_ZERO_HASH after
        /\ (operation c = op \/ operation c = None))
  /\ (forall e table op pk before after now, exists cap,
        scribe_envelope_add_change (Some e) table op pk (Some before) (Some after)
          (plenty now)
        = ((SCRIBE_OK,
            Some (with_changes e
                    (changes e ++ [mk_change table op pk before after]) cap)),
           plenty now))
  /\ (forall op data_hash,
        (op = "INSERT"%string -> change_digests op data_hash = (None, Some data_hash))
        /\ (op = "DELETE"%string -> change_digests op data_hash = (Some data_hash, None))
        /\ (op <> "INSERT"%string -> op <> "DELETE"%string ->
            change_digests op data_hash = (None, Some data_hash)))
  /\ (forall commit_hex t c op,
        operation c = Some op ->
        op <> "INSERT"%string -> op <> "UPDATE"%string -> op <> "DELETE"%string ->
        insert_change commit_hex t c = t).
Proof.
  repeat apply conj.
  - apply add_change_ok_inv.
  - intros. apply add_change_plenty.
  - intros op data_hash. repeat apply conj.
    + intros ->. reflexivity.
    + intros ->. reflexivity.
    + intros Hi Hd. unfold change_digests.
      rewrite !bool_decide_eq_false_2 by assumption. reflexivity.
  - intros commit_hex t c op Hop Hi Hu Hd. unfold insert_change, operation_allowed.
    rewrite Hop, !bool_decide_eq_false_2 by assumption.
    destruct (table_name c), (primary_key c); reflexivity.
Qed.

(* ===================================================================== *)
(** * The commit store and the commit command *)
(* ===================================================================== *)

(** ** The commit store *)

Lemma insert_changes_tables commit_hex cs : forall t,
  commits_table (fold_left (insert_change commit_hex) cs t) = commits_table t
  /\ refs_table (fold_left (insert_change commit_hex) cs t) = refs_table t.
Proof.
  induction cs as [|c cs IH]; intros t; [split; reflexivity|].
  cbn [fold_left]. destruct (IH (insert_change commit_hex t c)) as [-> ->].
  unfold insert_change.
  destruct (table_name c), (operation c), (primary_key c); try (split; reflexivity).
  destruct (_ && _); split; reflexivity.
Qed.

Lemma store_commit_duplicate d conn e :
  handle d = Some conn ->
  is_Some (commits_table (current conn) !! scribe_hash_to_hex (commit_id e)) ->
  scribe_db_store_commit (Some d) (Some e) = (SCRIBE_ERR_DB, Some d).
Proof.
  intros Hh [row Hrow]. unfold scribe_db_store_commit, insert_commit.
  now rewrite Hh, Hrow.
Qed.

Lemma store_commit_ok_inv d e db' :
  scribe_db_store_commit (Some d) (Some e) = (SCRIBE_OK, db') ->
  exists conn t2 row,
    handle d = Some conn
    /\ commits_table (current conn) !! scribe_hash_to_hex (commit_id e) = None
    /\ db' = Some (with_handle d (with_current conn t2))
    /\ commits_table t2
       = <[scribe_hash_to_hex (commit_id e) := row]> (commits_table (current conn))
    /\ refs_table t2 = refs_table (current conn)
    /\ col_parent_hash row = hex_or_null (parent_id e).
Proof.
  unfold scribe_db_store_commit.
  destruct (handle d) as [conn|]; [|discriminate].
  destruct (insert_commit (current conn) e) as [t1|] eqn:Hins; [|discriminate].
  intros [= <-]. unfold insert_commit in Hins.
  destruct (commits_table (current conn) !! scribe_hash_to_hex (commit_id e)) eqn:Hfree;
    [discriminate|].
  destruct (author_id (author e)); [|discriminate].
  destruct (process_name (process e)); [|discriminate].
  injection Hins as <-.
  destruct (insert_changes_tables (scribe_hash_to_hex (commit_id e)) (changes e)
              (mk_tables
                 (<[scribe_hash_to_hex (commit_id e) :=
                      {| col_parent_hash := hex_or_null (parent_id e);
                         col_tree_hash := scribe_hash_to_hex (tree_hash e);
                         col_author_id := s;
                         col_author_role := author_role (author e);
                         col_author_email := author_email (author e);
                         col_process_name := s0;
                         col_process_version := process_version (process e);
                         col_process_params := process_params (process e);
                         col_process_source := process_source (process e);
                         col_message := message e;
                         col_timestamp := timestamp e |}]>
                    (commits_table (current conn)))
                 (changes_table (current conn)) (refs_table (current conn))))
    as [Hc Hr].
  eexists conn, _, _.
  split; [reflexivity|]. split; [assumption|]. split; [reflexivity|].
  split; [exact Hc|]. split; [exact Hr|]. reflexivity.
Qed.

Lemma store_commit_fail_unchanged d e err db' :
  scribe_db_store_commit (Some d) (Some e) = (err, db') ->
  err <> SCRIBE_OK -> db' = Some d.
Proof.
  unfold scribe_db_store_commit.
  destruct (handle d) as [conn|]; [|now intros [= <- <-]].
  destruct (insert_commit (current conn) e); [|now intros [= <- <-]].
  intros [= <- <-]. congruence.
Qed.

Lemma repo_store_commit_fail_unchanged r env err repo' :
  scribe_repo_store_commit (Some r) env = (err, repo') ->
  err <> SCRIBE_OK -> repo' = Some r.
Proof.
  unfold scribe_repo_store_commit.
  destruct env as [e|]; [|now intros [= <- <-]].
  destruct (repo_db r) as [d|] eqn:Hdb; [|now intros [= <- <-]].
  destruct (scribe_db_store_commit (Some d) (Some e)) as [err0 db'] eqn:Hstore.
  cbn [fst snd]. intros [= <- <-] Herr.
  rewrite (store_commit_fail_unchanged d e err0 db' Hstore Herr).
  destruct r; cbn in Hdb; now subst.
Qed.

Lemma get_ref_of_hex d conn name h out :
  handle d = Some conn ->
  refs_table (current conn) !! name = Some (scribe_hash_to_hex h) ->
  scribe_db_get_ref (Some d) (Some name) out = (SCRIBE_OK, h).
Proof.
  intros Hh Href. unfold scribe_db_get_ref.
  rewrite Hh, Href, to_hex_length, from_hex_to_hex. reflexivity.
Qed.

(** ** The parent of the envelope that [cmd_commit] builds *)

Lemma set_author_parent env id role w :
  parent_of_env (scribe_envelope_set_author env id role w).1.2 = parent_of_env env.
Proof.
  destruct env as [e|]; [|reflexivity]. unfold scribe_envelope_set_author, bind, ret.
  destruct (safe_strdup id w) as [x w1]. now destruct (safe_strdup role w1).
Qed.

Lemma set_process_parent env name version params w :
  parent_of_env (scribe_envelope_set_process env name version params w).1.2
  = parent_of_env env.
Proof.
  destruct env as [e|]; [|reflexivity]. unfold scribe_envelope_set_process, bind, ret.
  destruct (safe_strdup name w) as [x w1]. destruct (safe_strdup version w1) as [y w2].
  now destruct (safe_strdup params w2).
Qed.

Lemma set_message_parent env msg w :
  parent_of_env (scribe_envelope_set_message env msg w).1.2 = parent_of_env env.
Proof.
  destruct env as [e|]; [|reflexivity]. unfold scribe_envelope_set_message, bind, ret.
  now destruct (safe_strdup msg w).
Qed.

Lemma add_change_parent env table op pk before after w :
  parent_of_env (scribe_envelope_add_change env table op pk before after w).1.2
  = parent_of_env env.
Proof.
  destruct env as [e|]; [|reflexivity]. unfold scribe_envelope_add_change, bind, ret.
  destruct (change_capacity e <=? change_count e).
  - destruct (request w) as [[] w0]; [|reflexivity].
    destruct (safe_strdup table w0) as [x w1]. destruct (safe_strdup op w1) as [y w2].
    now destruct (safe_strdup pk w2).
  - destruct (safe_strdup table w) as [x w1]. destruct (safe_strdup op w1) as [y w2].
    now destruct (safe_strdup pk w2).
Qed.

Lemma add_requested_change_parent args env w :
  parent_of_env (add_requested_change args env w).1 = parent_of_env env.
Proof.
  unfold add_requested_change.
  destruct (arg_table args); [|reflexivity]. destruct (arg_operation args); [|reflexivity].
  unfold bind, ret.
  match goal with |- context [scribe_envelope_add_change ?a ?b ?c ?d ?e ?f w] =>
    pose proof (add_change_parent a b c d e f w) as Hp;
    destruct (scribe_envelope_add_change a b c d e f w) as [r w1] end.
  exact Hp.
Qed.

Lemma finalize_parent env w e' w' :
  scribe_envelope_finalize env w = ((SCRIBE_OK, Some e'), w') ->
  parent_of_env env = Some (parent_id e').
Proof.
  destruct env as [e|]; [|discriminate]. intros Hfin.
  apply finalize_ok_inv in Hfin as (e1 & json & Htree & _ & ->).
  apply compute_tree_hash_shape in Htree as [th ->]. reflexivity.
Qed.

(** What a run of [cmd_commit] amounts to: nothing changes and the exit
    code is 1, or an envelope whose parent is HEAD was finalized, stored by
    the facade, and HEAD set to its identifier. *)
Lemma cmd_commit_outcome args config r w code repo' w' :
  cmd_commit args config (Some r) w = ((code, repo'), w') ->
  (code = 1%Z /\ repo' = Some r)
  \/ (code = 0%Z
      /\ exists env w0 e' r1,
          scribe_envelope_finalize env w0 = ((SCRIBE_OK, Some e'), w')
          /\ parent_id e' = head_or_zero (Some r)
          /\ scribe_repo_store_commit (Some r) (Some e') = (SCRIBE_OK, Some r1)
          /\ scribe_repo_set_head (Some r1) (Some (commit_id e')) = (SCRIBE_OK, repo')).
Proof.
  unfold cmd_commit. unfold bind at 1.
  destruct (scribe_envelope_new w) as [[e0|] w1] eqn:Hnew; [|intros [= <- <- _]; auto].
  assert (Hp0 : parent_id e0 = SCRIBE_ZERO_HASH).
  { unfold scribe_envelope_new, bind, ret in Hnew.
    destruct (request w) as [[] wa]; cbn [negb] in Hnew; [|discriminate].
    destruct (request wa) as [[] wb]; cbn [negb] in Hnew; [|discriminate].
    unfold time_now in Hnew. now injection Hnew as <- _. }
  unfold bind at 1.
  match goal with |- context [scribe_envelope_set_author ?a ?b ?c w1] =>
    pose proof (set_author_parent a b c w1) as Hp1;
    destruct (scribe_envelope_set_author a b c w1) as [r1 w2] end.
  unfold bind at 1.
  match goal with |- context [scribe_envelope_set_process ?a ?b ?c ?d w2] =>
    pose proof (set_process_parent a b c d w2) as Hp2;
    destruct (scribe_envelope_set_process a b c d w2) as [r2 w3] end.
  unfold bind at 1.
  assert (Hp3 : parent_of_env
                  ((match arg_message args with
                    | Some _ => scribe_envelope_set_message r2.2 (arg_message args)
                    | None => ret r2
                    end) w3).1.2 = parent_of_env r2.2).
  { destruct (arg_message args); [apply set_message_parent|reflexivity]. }
  destruct ((match arg_message args with
             | Some _ => scribe_envelope_set_message r2.2 (arg_message args)
             | None => ret r2
             end) w3) as [r3 w4].
  cbn [fst snd] in Hp1, Hp2, Hp3.
  assert (Hp : parent_of_env r3.2 = Some SCRIBE_ZERO_HASH)
    by (rewrite Hp3, Hp2, Hp1; cbn; now rewrite Hp0).
  unfold bind at 1.
  match goal with |- context [add_requested_change args ?env1 w4] =>
    pose proof (add_requested_change_parent args env1 w4) as Hp4;
    assert (Hp5 : parent_of_env env1 = Some (head_or_zero (Some r)));
    [|destruct (add_requested_change args env1 w4) as [env2 w5]] end.
  { unfold head_or_zero. destruct (_ && _); [|exact Hp].
    destruct r3.2 as [e3|]; [reflexivity|discriminate]. }
  cbn [fst] in Hp4. rewrite Hp5 in Hp4.
  unfold bind at 1.
  destruct (scribe_envelope_finalize env2 w5) as [[ferr fenv] w6] eqn:Hfin.
  cbn [fst snd]. unfold ret.
  destruct (bool_decide (ferr = SCRIBE_OK)) eqn:Hferr; cbn [negb];
    [|intros [= <- <- _]; auto].
  apply bool_decide_eq_true in Hferr. subst ferr.
  destruct (scribe_repo_store_commit (Some r) fenv) as [serr srepo] eqn:Hstore.
  cbn [fst snd].
  destruct (bool_decide (serr = SCRIBE_OK)) eqn:Hserr; cbn [negb].
  2:{ apply bool_decide_eq_false in Hserr. intros [= <- <- _]. left. split; [reflexivity|].
      apply (repo_store_commit_fail_unchanged r fenv serr srepo Hstore Hserr). }
  apply bool_decide_eq_true in Hserr. subst serr.
  destruct fenv as [e'|]; [|cbn in Hstore; discriminate].
  assert (exists r1, srepo = Some r1) as [rs ->].
  { unfold scribe_repo_store_commit in Hstore. destruct (repo_db r); [|discriminate].
    injection Hstore as _ <-. eauto. }
  cbn [option_map].
  destruct (scribe_repo_set_head (Some rs) (Some (commit_id e'))) as [merr mrepo] eqn:Hmove.
  cbn [fst snd].
  assert (merr = SCRIBE_OK) as ->.
  { unfold scribe_repo_store_commit in Hstore.
    destruct (repo_db r) as [d|]; [|discriminate].
    destruct (scribe_db_store_commit (Some d) (Some e')) as [e1 d1] eqn:Hdb.
    cbn [fst snd] in Hstore. injection Hstore as -> <-.
    apply store_commit_ok_inv in Hdb as (conn & t2 & row & _ & _ & -> & _).
    cbn in Hmove. congruence. }
  rewrite bool_decide_eq_true_2 by reflexivity. cbn [negb].
  intros [= <- <- <-]. right. split; [reflexivity|].
  exists env2, w5, e', rs. split; [exact Hfin|]. split; [|auto].
  apply finalize_parent in Hfin. congruence.
Qed.

(** ** Transactions *)

(** What a transaction would give: a [scribe_db_store_commit] between
    [scribe_db_begin] and [scribe_db_rollback] leaves the tables as they
    were. *)
Lemma begin_store_rollback d d1 e :
  scribe_db_begin (Some d) = (SCRIBE_OK, Some d1) ->
  exists d2,
    scribe_db_rollback (scribe_db_store_commit (Some d1) (Some e)).2
    = (SCRIBE_OK, Some d2)
    /\ db_tables (Some d2) = db_tables (Some d)
    /\ db_snapshot (Some d2) = None.
Proof.
  unfold scribe_db_begin. destruct (handle d) as [conn|] eqn:Hh; [|discriminate].
  destruct (snapshot conn) eqn:Hs; [discriminate|]. intros [= <-].
  unfold scribe_db_store_commit. cbn [handle with_handle current].
  destruct (insert_commit (current conn) e);
    (eexists; split; [reflexivity|]); cbn; rewrite Hh; auto.
Qed.

(** Between [scribe_db_begin] and [scribe_db_commit] it leaves them as it
    does outside a transaction. *)
Lemma begin_store_commit d d1 e :
  scribe_db_begin (Some d) = (SCRIBE_OK, Some d1) ->
  exists d2,
    scribe_db_commit (scribe_db_store_commit (Some d1) (Some e)).2
    = (SCRIBE_OK, Some d2)
    /\ db_tables (Some d2) = db_tables (scribe_db_store_commit (Some d) (Some e)).2
    /\ db_snapshot (Some d2) = None.
Proof.
  unfold scribe_db_begin. destruct (handle d) as [conn|] eqn:Hh; [|discriminate].
  destruct (snapshot conn) eqn:Hs; [discriminate|]. intros [= <-].
  unfold scribe_db_store_commit. rewrite Hh. cbn [handle with_handle current].
  destruct (insert_commit (current conn) e);
    (eexists; split; [reflexivity|]); cbn; rewrite ?Hh; auto.
Qed.

(* ===================================================================== *)
(** * The facade and duplicate commits *)
(* ===================================================================== *)

Lemma seed_finalize_run :
  scribe_envelope_finalize (Some seed_envelope) (plenty 0)
  = ((SCRIBE_OK, Some seed_finalized), plenty 0).
Proof. vm_compute. reflexivity. Qed.

Lemma seed_finalized_nonzero : scribe_hash_is_zero (Some (commit_id seed_finalized)) = false.
Proof. vm_compute. reflexivity. Qed.

(** Storing the seed envelope through the facade returns OK and leaves
    HEAD unborn. *)
Lemma facade_store_commit_counterexample :
  ~ (forall r e repo' now e',
        scribe_repo_store_commit (Some r) (Some e) = (SCRIBE_OK, repo') ->
        (scribe_envelope_finalize (Some e) (plenty now)).1 = (SCRIBE_OK, Some e') ->
        scribe_repo_get_head repo' SCRIBE_ZERO_HASH = (SCRIBE_OK, commit_id e')).
Proof.
  intros Hall.
  specialize (Hall fresh_repo seed_envelope
                (scribe_repo_store_commit (Some fresh_repo) (Some seed_envelope)).2
                0%Z seed_finalized).
  assert (Hhead : scribe_repo_get_head
                    (scribe_repo_store_commit (Some fresh_repo) (Some seed_envelope)).2
                    SCRIBE_ZERO_HASH
                  = (SCRIBE_OK, SCRIBE_ZERO_HASH)) by (vm_compute; reflexivity).
  rewrite Hhead in Hall.
  assert (Hid : SCRIBE_ZERO_HASH = commit_id seed_finalized).
  { assert (Heq : (SCRIBE_OK, SCRIBE_ZERO_HASH) = (SCRIBE_OK, commit_id seed_finalized)).
    { apply Hall.
      - vm_compute. reflexivity.
      - rewrite seed_finalize_run. reflexivity. }
    congruence. }
  pose proof seed_finalized_nonzero as Hnz. rewrite <- Hid in Hnz.
  vm_compute in Hnz. discriminate.
Qed.

Lemma commit_exists_true d h :
  scribe_db_commit_exists (Some d) (Some h) = true
  <-> exists conn, handle d = Some conn
                   /\ is_Some (commits_table (current conn) !! scribe_hash_to_hex h).
Proof.
  unfold scribe_db_commit_exists. destruct (handle d) as [conn|].
  - rewrite bool_decide_eq_true. split; [eauto|]. now intros (c & [= <-] & H).
  - split; [discriminate|]. now intros (c & H & _).
Qed.

Lemma set_head_after_store d conn t h :
  scribe_repo_set_head (Some (mk_repo (Some (with_handle d (with_current conn t)))))
    (Some h)
  = (SCRIBE_OK,
     Some (mk_repo
             (Some (with_handle d
                      (with_current conn
                         (mk_tables (commits_table t) (changes_table t)
                            (<["HEAD"%string := scribe_hash_to_hex h]> (refs_table t)))))))).
Proof. reflexivity. Qed.

(** C7: [scribe_db_store_commit] of an envelope whose [commit_id] is
    already a key of [commits] returns the DB error and leaves the store as
    it was; when it returns OK the key was free before and is taken after,
    the references are untouched, and storing the same envelope again
    fails; a run of the commit command either
    changes nothing, or inserts a commit that was not in the store and sets
    HEAD to it. *)
Theorem duplicate_commit_rejected :
  (forall d e,
      scribe_db_commit_exists (Some d) (Some (commit_id e)) = true ->
      scribe_db_store_commit (Some d) (Some e) = (SCRIBE_ERR_DB, Some d))
  /\ (forall d e db',
        scribe_db_store_commit (Some d) (Some e) = (SCRIBE_OK, db') ->
        scribe_db_commit_exists (Some d) (Some (commit_id e)) = false
        /\ scribe_db_commit_exists db' (Some (commit_id e)) = true
        /\ option_map refs_table (db_tables db')
           = option_map refs_table (db_tables (Some d)))
  /\ (forall d e d',
        scribe_db_store_commit (Some d) (Some e) = (SCRIBE_OK, Some d') ->
        scribe_db_store_commit (Some d') (Some e) = (SCRIBE_ERR_DB, Some d'))
  /\ (forall args config r w code repo' w',
        cmd_commit args config (Some r) w = ((code, repo'), w') ->
        (code = 1%Z /\ repo' = Some r)
        \/ (code = 0%Z
            /\ exists e',
                scribe_db_commit_exists (repo_db r) (Some (commit_id e')) = false
                /\ scribe_db_commit_exists (repo_db_of repo') (Some (commit_id e')) = true
                /\ scribe_repo_get_head repo' SCRIBE_ZERO_HASH
                   = (SCRIBE_OK, commit_id e'))).
Proof.
  repeat apply conj.
  - intros d e Hex. apply commit_exists_true in Hex as (conn & Hh & Hrow).
    now apply (store_commit_duplicate d conn).
  - intros d e db' Hstore.
    apply store_commit_ok_inv in Hstore as (conn & t2 & row & Hh & Hfree & -> & Hc & Hr & _).
    repeat apply conj.
    + unfold scribe_db_commit_exists. rewrite Hh, Hfree.
      apply bool_decide_eq_false. now intros [x Hx].
    + cbn. rewrite Hc, lookup_insert_eq. apply bool_decide_eq_true. eauto.
    + cbn. rewrite Hh, Hr. reflexivity.
  - intros d e d' Hstore.
    apply store_commit_ok_inv in Hstore
      as (conn & t2 & row & Hh & Hfree & [= ->] & Hc & Hr & _).
    apply (store_commit_duplicate _ (with_current conn t2)); [reflexivity|].
    cbn. rewrite Hc, lookup_insert_eq. eauto.
  - intros args config r w code repo' w' Hrun.
    apply cmd_commit_outcome in Hrun
      as [Hfail|(-> & env & w0 & e' & r1 & _ & _ & Hstore & Hmove)];
      [now left|right].
    split; [reflexivity|]. exists e'.
    unfold scribe_repo_store_commit in Hstore.
    destruct (repo_db r) as [d|] eqn:Hdb; [|discriminate].
    destruct (scribe_db_store_commit (Some d) (Some e')) as [err db1] eqn:Hdbs.
    cbn [fst snd] in Hstore. injection Hstore as -> <-.
    apply store_commit_ok_inv in Hdbs as (conn & t2 & row & Hh & Hfree & -> & Hc & Hr & _).
    rewrite set_head_after_store in Hmove. injection Hmove as <-.
    repeat apply conj.
    + unfold scribe_db_commit_exists. rewrite Hh, Hfree.
      apply bool_decide_eq_false. now intros [x Hx].
    + cbn. rewrite Hc, lookup_insert_eq. apply bool_decide_eq_true. eauto.
    + unfold scribe_repo_get_head. cbn [repo_db].
      apply (get_ref_of_hex _ (with_current conn
                                 (mk_tables (commits_table t2) (changes_table t2)
                                    (<["HEAD"%string := scribe_hash_to_hex (commit_id e')]>
                                       (refs_table t2))))); [reflexivity|].
      cbn. apply lookup_insert_eq.
Qed.

(** C3, amended: the facade's [store_commit] is the store's
    [store_commit] on the repository's handle: references (HEAD) and the
    transaction state are as before, on an error the repository is
    unchanged, on OK the envelope is stored under the [commit_id] it came
    with.  The pipeline is in the commit command: an envelope whose parent
    is HEAD is finalized, stored through the facade, and HEAD is set to its
    [commit_id]; otherwise the exit code is 1 and nothing changed. *)
Theorem facade_store_commit_delegates :
  (forall r e,
      scribe_repo_store_commit (Some r) (Some e)
      = match repo_db r with
        | Some d =>
            ((scribe_db_store_commit (Some d) (Some e)).1,
             Some (mk_repo (scribe_db_store_commit (Some d) (Some e)).2))
        | None => (SCRIBE_ERR_INVALID_ARG, Some r)
        end)
  /\ (forall r e err repo',
        scribe_repo_store_commit (Some r) (Some e) = (err, repo') ->
        option_map refs_table (repo_tables repo')
        = option_map refs_table (repo_tables (Some r))
        /\ db_snapshot (repo_db_of repo') = db_snapshot (repo_db r)
        /\ (err <> SCRIBE_OK -> repo' = Some r)
        /\ (err = SCRIBE_OK ->
            scribe_db_commit_exists (repo_db_of repo') (Some (commit_id e)) = true))
  /\ (forall args config r w code repo' w',
        cmd_commit args config (Some r) w = ((code, repo'), w') ->
        (code = 1%Z /\ repo' = Some r)
        \/ (code = 0%Z
            /\ exists env w0 e' r1,
                scribe_envelope_finalize env w0 = ((SCRIBE_OK, Some e'), w')
                /\ parent_id e' = head_or_zero (Some r)
                /\ scribe_repo_store_commit (Some r) (Some e') = (SCRIBE_OK, Some r1)
                /\ scribe_repo_set_head (Some r1) (Some (commit_id e'))
                   = (SCRIBE_OK, repo'))).
Proof.
  repeat apply conj.
  - intros r e. unfold scribe_repo_store_commit. now destruct (repo_db r).
  - intros r e err repo' Hstore.
    assert (Hfail : err <> SCRIBE_OK -> repo' = Some r)
      by apply (repo_store_commit_fail_unchanged r (Some e) err repo' Hstore).
    destruct (decide (err = SCRIBE_OK)) as [->|Herr].
    + unfold scribe_repo_store_commit in Hstore.
      destruct (repo_db r) as [d|] eqn:Hdb; [|discriminate].
      destruct (scribe_db_store_commit (Some d) (Some e)) as [err db1] eqn:Hdbs.
      cbn [fst snd] in Hstore. injection Hstore as -> <-.
      apply store_commit_ok_inv in Hdbs as (conn & t2 & row & Hh & Hfree & -> & Hc & Hr & _).
      repeat apply conj.
      * cbn. rewrite Hdb. cbn. rewrite Hh, Hr. reflexivity.
      * cbn. now rewrite Hh.
      * congruence.
      * intros _. cbn. rewrite Hc, lookup_insert_eq. apply bool_decide_eq_true. eauto.
    + rewrite (Hfail Herr). repeat apply conj; try reflexivity; try congruence.
  - apply cmd_commit_outcome.
Qed.

(* ===================================================================== *)
(** * History *)
(* ===================================================================== *)

(** ** The parent chain, as the specification describes it *)

Lemma hash_of_hex_to_hex h : hash_of_hex (scribe_hash_to_hex h) = Some h.
Proof. unfold hash_of_hex. now rewrite from_hex_to_hex. Qed.

Lemma parent_chain_zero t n : parent_chain t n SCRIBE_ZERO_HASH = [].
Proof. destruct n; reflexivity. Qed.

Lemma next_in_history_wf t cur :
  tables_wf t -> next_in_history t cur = default SCRIBE_ZERO_HASH (parent_of t cur).
Proof.
  intros Hwf. unfold next_in_history, parent_of.
  destruct (commits_table t !! scribe_hash_to_hex cur) as [row|] eqn:Hrow; [|reflexivity].
  destruct (col_parent_hash row) as [text|] eqn:Hparent; [|reflexivity].
  destruct (Hwf _ _ _ Hrow Hparent) as [h ->].
  now rewrite from_hex_to_hex, hash_of_hex_to_hex.
Qed.

Lemma history_walk_chain t : tables_wf t -> forall todo cur acc,
  history_walk t todo cur acc = acc ++ parent_chain t todo cur.
Proof.
  intros Hwf. induction todo as [|todo IH]; intros cur acc.
  - cbn. now rewrite app_nil_r.
  - cbn [history_walk parent_chain].
    destruct (scribe_hash_is_zero (Some cur)); [now rewrite app_nil_r|].
    rewrite IH, next_in_history_wf, <- app_assoc by assumption. cbn [app].
    destruct (parent_of t cur); [reflexivity|].
    cbn [default]. now rewrite parent_chain_zero.
Qed.

Lemma parent_chain_length t limit : forall cur,
  length (parent_chain t limit cur) <= limit.
Proof.
  induction limit as [|n IH]; intros cur; cbn [parent_chain length]; [lia|].
  destruct (scribe_hash_is_zero (Some cur)); cbn [length]; [lia|].
  destruct (parent_of t cur); [specialize (IH s)|cbn [length]]; lia.
Qed.





Lemma get_history_plenty d conn from limit now :
  handle d = Some conn -> tables_wf (current conn) ->
  scribe_db_get_history (Some d) from limit (plenty now)
  = (match (match from with
            | Some f =>
                if negb (scribe_hash_is_zero from) then Some f
                else
                  let r := scribe_db_get_ref (Some d) (Some "HEAD"%string)
                             SCRIBE_ZERO_HASH in
                  if negb (bool_decide (r.1 = SCRIBE_OK))
                     || scribe_hash_is_zero (Some r.2)
                  then None else Some r.2
            | None =>
                let r := scribe_db_get_ref (Some d) (Some "HEAD"%string)
                           SCRIBE_ZERO_HASH in
                if negb (bool_decide (r.1 = SCRIBE_OK))
                   || scribe_hash_is_zero (Some r.2)
                then None else Some r.2
            end) with
     | Some cur =>
         Some (parent_chain (current conn) (effective_limit limit) cur)
     | None => None
     end, plenty now).
Proof.
  intros Hh Hwf. unfold scribe_db_get_history. rewrite Hh.
  unfold bind. cbn [request plenty allocs negb]. cbv zeta.
  match goal with |- (match ?s with _ => _ end) _ = _ => destruct s as [cur|] end;
    [|reflexivity].
  unfold ret. now rewrite (history_walk_chain _ Hwf), app_nil_l.
Qed.

(** ** Stores built by successive commits *)

Lemma is_chain_insert_fresh commits chs refs k row ids :
  commits !! k = None ->
  is_chain (mk_tables commits chs refs) ids ->
  forall chs' refs', is_chain (mk_tables (<[k := row]> commits) chs' refs') ids.
Proof.
  intros Hfree. induction ids as [|c older IH]; [easy|].
  intros (Hnz & (r & Hrow & Hparent) & Hrest) chs' refs'.
  cbn [is_chain commits_table] in *.
  split; [exact Hnz|]. split; [|now apply IH].
  exists r. split; [|exact Hparent].
  rewrite lookup_insert_ne by (intros ->; congruence). exact Hrow.
Qed.

(** The store's writer keeps the parent columns well formed. *)
Lemma store_commit_tables_wf d conn e d' conn' :
  handle d = Some conn -> tables_wf (current conn) ->
  scribe_db_store_commit (Some d) (Some e) = (SCRIBE_OK, Some d') ->
  handle d' = Some conn' -> tables_wf (current conn').
Proof.
  intros Hh Hwf Hstore Hh'.
  apply store_commit_ok_inv in Hstore
    as (conn0 & t2 & row & Hh0 & Hfree & [= ->] & Hc & Hr & Hrowparent).
  assert (conn0 = conn) as -> by congruence.
  cbn in Hh'. injection Hh' as <-. cbn [current with_current].
  intros k row0 text Hrow0 Htext. rewrite Hc in Hrow0.
  destruct (decide (k = scribe_hash_to_hex (commit_id e))) as [->|Hne].
  - rewrite lookup_insert_eq in Hrow0. injection Hrow0 as <-.
    rewrite Hrowparent in Htext. unfold hex_or_null in Htext.
    destruct (scribe_hash_is_zero _); [discriminate|]. injection Htext as <-. eauto.
  - rewrite lookup_insert_ne in Hrow0 by congruence. eapply Hwf; eauto.
Qed.

Lemma head_or_zero_of_chain r ids :
  chain_state r ids ->
  hex_or_null (head_or_zero (Some r))
  = match ids with
    | [] => None
    | p :: _ => Some (scribe_hash_to_hex p)
    end.
Proof.
  intros (d & conn & Hdb & Hh & _ & Hchain & Hhead).
  unfold head_or_zero, scribe_repo_get_head. rewrite Hdb.
  destruct ids as [|p older].
  - unfold scribe_db_get_ref. rewrite Hh, Hhead. reflexivity.
  - rewrite (get_ref_of_hex d conn "HEAD" p _ Hh Hhead). cbn [fst snd].
    destruct Hchain as (Hnz & _).
    rewrite bool_decide_eq_true_2 by reflexivity.
    rewrite (proj2 (is_zero_false p) Hnz). cbn [andb negb].
    unfold hex_or_null. now rewrite (proj2 (is_zero_false p) Hnz).
Qed.

Lemma committed_chain_state r ids : committed r ids -> chain_state r ids.
Proof.
  induction 1 as [|r ids args config w r' w' c _ IH Hrun Hhead Hnz].
  - eexists _, _. split; [reflexivity|]. split; [reflexivity|].
    split; [|split; [exact I|reflexivity]].
    intros k row text Hrow. cbn in Hrow. now rewrite lookup_empty in Hrow.
  - pose proof (head_or_zero_of_chain r ids IH) as Hparent.
    destruct IH as (d & conn & Hdb & Hh & Hwf & Hchain & Hheadtext).
    apply cmd_commit_outcome in Hrun
      as [[Hcode _]|(_ & env & w0 & e' & r1 & _ & Hpid & Hstore & Hmove)];
      [discriminate|].
    unfold scribe_repo_store_commit in Hstore. rewrite Hdb in Hstore.
    destruct (scribe_db_store_commit (Some d) (Some e')) as [err db1] eqn:Hdbs.
    cbn [fst snd] in Hstore. injection Hstore as -> <-.
    pose proof Hdbs as Hkeep.
    apply store_commit_ok_inv in Hdbs
      as (conn0 & t2 & row & Hh0 & Hfree & -> & Hc & Hr & Hrowparent).
    assert (conn0 = conn) as -> by congruence.
    rewrite set_head_after_store in Hmove. injection Hmove as <-.
    assert (Hc' : c = commit_id e').
    { unfold scribe_repo_get_head in Hhead. cbn [repo_db] in Hhead.
      erewrite get_ref_of_hex in Hhead; [| reflexivity | cbn; apply lookup_insert_eq].
      congruence. }
    subst c. rewrite <- Hpid in Hparent.
    eexists _, _. split; [reflexivity|]. split; [reflexivity|].
    cbn [current with_current commits_table refs_table].
    split; [|split].
    + intros k row0 text Hrow0.
      exact (store_commit_tables_wf d conn e' _ (with_current conn t2) Hh Hwf Hkeep
               eq_refl k row0 text Hrow0).
    + cbn [is_chain commits_table]. rewrite Hc. split; [exact Hnz|]. split.
      * exists row. rewrite lookup_insert_eq. split; [reflexivity|].
        now rewrite Hrowparent, Hparent.
      * destruct (current conn) as [cm chs rf] eqn:Htab. cbn [commits_table] in *.
        now apply (is_chain_insert_fresh cm chs rf).
    + apply lookup_insert_eq.
Qed.


(* ===================================================================== *)
(** * Inclusion proofs; examples *)
(* ===================================================================== *)

Lemma add_digests_state digests : forall t w t' w',
  tree_state t -> add_digests digests (Some t) w = (Some t', w') -> tree_state t'.
Proof.
  induction digests as [|h rest IH]; intros t w t' w' Hstate Hrun.
  - injection Hrun as <- _. exact Hstate.
  - cbn [add_digests] in Hrun. unfold bind in Hrun.
    destruct (scribe_merkle_add_hash (Some t) None (Some h) w) as [[err [t1|]] w1] eqn:Hadd.
    + apply (IH t1 w1 t' w'); [|exact Hrun].
      exact (tree_state_add_hash t None (Some h) w err t1 w1 Hstate Hadd).
    + unfold scribe_merkle_add_hash, bind, ret in Hadd.
      destruct (built t); [discriminate|].
      destruct (expand_leaves t w) as [[t2|] w2]; [|discriminate].
      destruct (request w2) as [[] w3]; cbn [negb] in Hadd; [|discriminate].
      destruct (safe_strdup None w3). discriminate.
Qed.

Lemma three_leaf_tree_state : tree_state three_leaf_tree.
Proof.
  apply (add_digests_state
           [scribe_hash_bytes "a"; scribe_hash_bytes "b"; scribe_hash_bytes "c"]
           (mk_tree [] INITIAL_CAPACITY None false) (plenty 0) _ (plenty 0)).
  - apply (tree_state_new (plenty 0) _ (plenty 0)). reflexivity.
  - vm_compute. reflexivity.
Qed.

(** ** Inclusion proofs *)

(** The depth loop of [scribe_merkle_proof_create] ends within as many
    rounds as the tree has leaves. *)
Lemma tree_depth_fuel fuel n depth :
  n <= fuel -> tree_depth (S fuel) n depth = tree_depth fuel n depth.
Proof.
  revert n depth. induction fuel as [|fuel IH]; intros n depth Hn.
  - assert (n = 0) as -> by lia. reflexivity.
  - change (tree_depth (S (S fuel)) n depth)
      with (if n <=? 1 then depth else tree_depth (S fuel) ((n + 1) / 2) (S depth)).
    change (tree_depth (S fuel) n depth)
      with (if n <=? 1 then depth else tree_depth fuel ((n + 1) / 2) (S depth)).
    destruct (n <=? 1) eqn:Hle; [reflexivity|].
    apply Nat.leb_gt in Hle. apply IH.
    apply Nat.lt_succ_r. apply Nat.Div0.div_lt_upper_bound. lia.
Qed.

Lemma proof_create_zero_filled t i now :
  built t = true -> i < leaf_count t ->
  scribe_merkle_proof_create (Some t) i (plenty now)
  = (Some {| proof_hashes :=
               replicate (tree_depth (leaf_count t) (leaf_count t) 0) SCRIBE_ZERO_HASH;
             proof_positions :=
               replicate (tree_depth (leaf_count t) (leaf_count t) 0) 0%Z;
             proof_depth := tree_depth (leaf_count t) (leaf_count t) 0 |},
     plenty now).
Proof.
  intros Hb Hi. unfold scribe_merkle_proof_create. rewrite Hb.
  replace (leaf_count t <=? i) with false by (symmetry; apply Nat.leb_gt; lia).
  reflexivity.
Qed.

(** A tree of a single leaf has depth 0: the empty proof is accepted. *)
Lemma proof_single_leaf_accepted h now :
  exists proof,
    scribe_merkle_proof_create (tree_of_digests [h] (plenty now)).1 0 (plenty now)
    = (Some proof, plenty now)
    /\ scribe_merkle_proof_verify (Some proof) (Some h)
         (scribe_merkle_root (tree_of_digests [h] (plenty now)).1) = true.
Proof.
  exists (mk_proof [] [] 0). split; [reflexivity|].
  cbn. apply bool_decide_eq_true_2. reflexivity.
Qed.

(** C2: on the tree built from the digests of "a" and "b", the proof
    created for leaf 0 holds one zero digest and one zero position, and its
    verification against the leaf's hash and the root returns false. *)
Theorem merkle_proof_two_leaves_rejected :
  scribe_merkle_leaf_count two_leaf_tree = 2
  /\ exists proof,
      scribe_merkle_proof_create two_leaf_tree 0 (plenty 0) = (Some proof, plenty 0)
      /\ proof_hashes proof = [SCRIBE_ZERO_HASH]
      /\ proof_positions proof = [0%Z]
      /\ scribe_merkle_proof_verify (Some proof) (Some (scribe_hash_bytes "a"))
           (scribe_merkle_root two_leaf_tree) = false.
Proof.
  split; [vm_compute; reflexivity|].
  exists (mk_proof [SCRIBE_ZERO_HASH] [0%Z] 1).
  split; [vm_compute; reflexivity|].
  split; [reflexivity|]. split; [reflexivity|]. vm_compute. reflexivity.
Qed.

(** ** Examples *)

Example sha256_abc :
  scribe_hash_to_hex (scribe_hash_bytes "abc")
  = "ba7816bf8f01cfea414140de5dae2223b00361a396177a9cb410ff61f20015ad"%string.
Proof. vm_compute. reflexivity. Qed.

Example sha256_empty :
  scribe_hash_to_hex (scribe_hash_bytes "")
  = "e3b0c44298fc1c149afbf4c8996fb92427ae41e4649b934ca495991b7852b855"%string.
Proof. vm_compute. reflexivity. Qed.

Example seed_commit_id :
  scribe_hash_to_hex (commit_id seed_finalized)
  = "c0a791b96c388bbd8698585298a2c363bc978c99c1d72388f4232f35102565c8"%string.
Proof. vm_compute. reflexivity. Qed.

(** *** Allocation failures that the callers do not look at *)

(** [scribe_envelope_finalize] drops the results of [scribe_merkle_add_hash]
    and [scribe_merkle_build]: when the seventh allocation (the level array
    of the build) fails, finalize still returns OK and [tree_hash] stays
    zero. *)
Example finalize_ignores_build_failure :
  let r := scribe_envelope_finalize (Some update_envelope)
             (mk_world [true; true; true; true; true; true; false] 0) in
  r.1.1 = SCRIBE_OK
  /\ option_map tree_hash r.1.2 = Some SCRIBE_ZERO_HASH.
Proof. vm_compute. split; reflexivity. Qed.

(** When the allocation of the first leaf fails, the leaf is left out and
    [tree_hash] is the digest of the other one. *)
Example finalize_ignores_add_hash_failure :
  let r := scribe_envelope_finalize (Some update_envelope)
             (mk_world [true; true; false] 0) in
  r.1.1 = SCRIBE_OK
  /\ option_map tree_hash r.1.2 = Some (scribe_hash_bytes "b").
Proof. vm_compute. split; reflexivity. Qed.

(** The setters do not report a failed [strdup], and
    [scribe_envelope_clone] does not look at what they return: when the
    copy of the author id fails inside [scribe_envelope_verify], the clone
    lacks it and a finalized envelope is reported as a mismatch. *)
Example verify_mismatch_on_clone_failure :
  scribe_envelope_verify (Some seed_finalized) (mk_world [true; true; false] 0)
  = (SCRIBE_ERR_HASH_MISMATCH, mk_world [] 0).
Proof. vm_compute. reflexivity. Qed.

Lemma first_repo_run :
  cmd_commit first_commit_args None (Some fresh_repo) (plenty 1700000000)
  = ((0%Z, Some first_repo), plenty 1700000000).
Proof. vm_compute. reflexivity. Qed.

Lemma first_repo_committed : committed first_repo [first_commit_id].
Proof.
  apply (committed_next fresh_repo [] first_commit_args None (plenty 1700000000)
           first_repo (plenty 1700000000) first_commit_id).
  - constructor.
  - exact first_repo_run.
  - vm_compute. reflexivity.
  - apply is_zero_false. vm_compute. reflexivity.
Qed.

Lemma first_conn_wf : tables_wf (current first_conn).
Proof.
  destruct (committed_chain_state _ _ first_repo_committed)
    as (d & conn & Hdb & Hh & Hwf & _).
  assert (Hd : repo_db first_repo = Some first_db) by (vm_compute; reflexivity).
  assert (d = first_db) as -> by congruence.
  assert (Hc : handle first_db = Some first_conn) by (vm_compute; reflexivity).
  assert (conn = first_conn) as -> by congruence.
  exact Hwf.
Qed.

(* ===================================================================== *)
(** * The theorems at concrete inputs *)
(* ===================================================================== *)

(** ** The theorems at concrete inputs *)




Lemma merkle_build_reference_witness :
  tree_state three_leaf_tree
  /\ exists t',
      scribe_merkle_build (Some three_leaf_tree) (plenty 0)
      = ((SCRIBE_OK, Some t'), plenty 0)
      /\ built t' = true
      /\ scribe_merkle_root (Some t')
         = Some (reference_root (node_hash <$> leaves three_leaf_tree)).
Proof.
  pose proof three_leaf_tree_state as Hstate.
  split; [exact Hstate|].
  exact (proj1 (proj2 (merkle_build_reference three_leaf_tree Hstate)) 0%Z).
Defined.


(** ** Scenarios S2 and S3 of the specification, through the commit command *)

Example two_commits_history :
  let r2 := (cmd_commit second_commit_args None (Some first_repo)
               (plenty 1700000060)).1.2 in
  option_map (map scribe_hash_to_hex)
    (scribe_repo_get_history r2 None 10 (plenty 0)).1
  = Some [scribe_hash_to_hex (scribe_repo_get_head r2 SCRIBE_ZERO_HASH).2;
          scribe_hash_to_hex first_commit_id].
Proof. vm_compute. reflexivity. Qed.

(* ===================================================================== *)
(** * Hexadecimal text, read back *)
(* ===================================================================== *)

Lemma isxdigit_cases c : isxdigit c = true -> c ∈ hex_digits.
Proof.
  destruct c as [[] [] [] [] [] [] [] []]; vm_compute; intros H;
    try discriminate H; clear H;
    repeat (first [apply list_elem_of_here | apply list_elem_of_further]).
Qed.

Lemma hex_pair_decode_pair high low :
  isxdigit high && isxdigit low = true ->
  hex_pair (decode_pair high low) = [lower_hex high; lower_hex low].
Proof.
  intros H. apply andb_prop in H as [Hh Hl].
  apply isxdigit_cases in Hh, Hl.
  assert (Hall : forallb (fun h => forallb (fun l =>
                    bool_decide (hex_pair (decode_pair h l) = [lower_hex h; lower_hex l]))
                    hex_digits) hex_digits = true) by (vm_compute; reflexivity).
  rewrite forallb_forall in Hall.
  apply list_elem_of_In in Hh, Hl.
  specialize (Hall high Hh). rewrite forallb_forall in Hall.
  specialize (Hall low Hl). now apply bool_decide_eq_true in Hall.
Qed.

Lemma decode_pairs_length digits : length (decode_pairs digits) = length digits / 2.
Proof.
  induction digits as [| x | x y l IH] using list_pair_ind; [reflexivity..|].
  cbn [decode_pairs length]. rewrite IH.
  change (S (S (length l))) with (2 + length l).
  replace (2 + length l) with (length l + 1 * 2) by lia.
  rewrite Nat.div_add by lia. lia.
Qed.

Lemma good_pairs_le digits : good_pairs digits <= length digits / 2.
Proof.
  induction digits as [| x | x y l IH] using list_pair_ind; [cbn; lia..|].
  cbn [good_pairs length].
  replace (S (S (length l))) with (length l + 1 * 2) by lia.
  rewrite Nat.div_add by lia.
  destruct (isxdigit x && isxdigit y); lia.
Qed.

(** The loop, whatever the digits: the pairs before the first bad one are
    stored, the bytes from there on are left as they were. *)
Lemma from_hex_loop_spec digits : forall i out,
  i + good_pairs digits <= length out ->
  from_hex_loop digits i out
  = (if bool_decide (good_pairs digits = length digits / 2)
     then SCRIBE_OK else SCRIBE_ERR_INVALID_ARG,
     take i out ++ decode_pairs (take (2 * good_pairs digits) digits)
       ++ drop (i + good_pairs digits) out).
Proof.
  induction digits as [| x | x y l IH] using list_pair_ind; intros i out Hlen.
  - cbn. rewrite Nat.add_0_r, take_drop. reflexivity.
  - cbn. rewrite Nat.add_0_r, take_drop. reflexivity.
  - cbn [from_hex_loop good_pairs length] in *.
    replace (S (S (length l)) / 2) with (S (length l / 2))
      by (replace (S (S (length l))) with (length l + 1 * 2) by lia;
          rewrite Nat.div_add by lia; lia).
    destruct (isxdigit x && isxdigit y) eqn:Hxy.
    + rewrite IH by (rewrite length_insert; lia).
      f_equal.
      * destruct (bool_decide (good_pairs l = length l / 2)) eqn:Hg.
        -- apply bool_decide_eq_true in Hg. rewrite bool_decide_eq_true_2 by lia.
           reflexivity.
        -- apply bool_decide_eq_false in Hg. rewrite bool_decide_eq_false_2 by lia.
           reflexivity.
      * replace (2 * S (good_pairs l)) with (S (S (2 * good_pairs l))) by lia.
        cbn [take decode_pairs]. fold (decode_pair x y).
        rewrite (take_S_r _ i (decode_pair x y))
          by (apply list_lookup_insert_eq; lia).
        rewrite take_insert_ge, drop_insert_lt by lia.
        rewrite <- app_assoc. cbn [app].
        replace (S i + good_pairs l) with (i + S (good_pairs l)) by lia.
        reflexivity.
    + rewrite bool_decide_eq_false_2 by lia.
      cbn. rewrite Nat.add_0_r, take_drop. reflexivity.
Qed.

Lemma bytes_of_hash_of_bytes l : length l = 32 -> bytes_of_hash (hash_of_bytes l) = l.
Proof.
  intros Hlen. unfold bytes_of_hash, hash_of_bytes. apply list_eq. intros i.
  destruct (decide (i < 32)) as [Hi|Hi].
  - destruct (lookup_lt_is_Some_2 l i ltac:(lia)) as [x Hx]. rewrite Hx.
    apply vlookup_lookup'. exists Hi.
    rewrite lookup_fun_to_vec, fin_to_nat_to_fin, nth_lookup, Hx. reflexivity.
  - rewrite !lookup_ge_None_2; [reflexivity|lia|rewrite length_vec_to_list; lia].
Qed.

Lemma good_pairs_all digits :
  Nat.Even (length digits) ->
  good_pairs digits = length digits / 2 <-> forallb isxdigit digits = true.
Proof.
  induction digits as [| x | x y l IH] using list_pair_ind; intros Heven.
  - cbn. tauto.
  - destruct Heven as [k Hk]. cbn in Hk. lia.
  - assert (Hl : Nat.Even (length l))
      by (destruct Heven as [k Hk]; cbn [length] in Hk; exists (k - 1); lia).
    cbn [good_pairs forallb length].
    replace (S (S (length l)) / 2) with (S (length l / 2))
      by (replace (S (S (length l))) with (length l + 1 * 2) by lia;
          rewrite Nat.div_add by lia; lia).
    destruct (isxdigit x), (isxdigit y); cbn [andb];
      try (split; [lia|discriminate]).
    rewrite <- (IH Hl). lia.
Qed.

Lemma hex_of_decoded digits :
  forallb isxdigit digits = true -> Nat.Even (length digits) ->
  flat_map hex_pair (decode_pairs digits) = map lower_hex digits.
Proof.
  induction digits as [| x | x y l IH] using list_pair_ind; intros Hall Heven.
  - reflexivity.
  - destruct Heven as [k Hk]. cbn in Hk. lia.
  - cbn [forallb] in Hall. apply andb_prop in Hall as [Hx Hall].
    apply andb_prop in Hall as [Hy Hall].
    cbn [decode_pairs flat_map map].
    rewrite hex_pair_decode_pair by (now rewrite Hx, Hy).
    cbn [app]. rewrite IH; [reflexivity|exact Hall|].
    destruct Heven as [k Hk]. cbn [length] in Hk. exists (k - 1). lia.
Qed.

Lemma from_hex_run s out :
  String.length s = 64 ->
  scribe_hash_from_hex (Some s) out
  = (if bool_decide (good_pairs (list_ascii_of_string s) = 32)
     then SCRIBE_OK else SCRIBE_ERR_INVALID_ARG,
     hash_of_bytes
       (decode_pairs (take (2 * good_pairs (list_ascii_of_string s))
                        (list_ascii_of_string s))
        ++ drop (good_pairs (list_ascii_of_string s)) (bytes_of_hash out))).
Proof.
  intros Hlen. unfold scribe_hash_from_hex. rewrite Hlen.
  cbn [Nat.eqb negb SCRIBE_HASH_HEX_SIZE Nat.sub].
  assert (Hchars : length (list_ascii_of_string s) = 64)
    by (rewrite <- Hlen, <- string_of_list_ascii_length,
          string_of_list_ascii_of_string; reflexivity).
  pose proof (good_pairs_le (list_ascii_of_string s)) as Hle.
  rewrite Hchars in Hle. change (64 / 2) with 32 in Hle.
  rewrite from_hex_loop_spec by (rewrite bytes_of_hash_length; lia).
  rewrite Hchars. change (64 / 2) with 32. cbn [fst snd take app Nat.add].
  reflexivity.
Qed.

Lemma hex_pair_lower b : Forall (fun c => c ∈ list_ascii_of_string hex_chars) (hex_pair b).
Proof.
  destruct b as [[] [] [] [] [] [] [] []]; vm_compute;
    repeat constructor;
    repeat (first [apply list_elem_of_here | apply list_elem_of_further]).
Qed.

(** X1: the text [scribe_hash_to_hex] writes has 64 characters, all of them
    lowercase hexadecimal digits; [scribe_hash_from_hex] reads it back to the
    same digest whatever the output buffer held; two digests with the same
    text are equal. *)
Theorem to_hex_from_hex_round_trip :
  (forall h out,
      scribe_hash_from_hex (Some (scribe_hash_to_hex h)) out = (SCRIBE_OK, h))
  /\ (forall h,
        String.length (scribe_hash_to_hex h) = 64
        /\ Forall (fun c => c ∈ list_ascii_of_string hex_chars)
             (list_ascii_of_string (scribe_hash_to_hex h)))
  /\ (forall h1 h2, scribe_hash_to_hex h1 = scribe_hash_to_hex h2 -> h1 = h2).
Proof.
  split; [exact from_hex_to_hex|]. split; [|exact to_hex_inj].
  intros h. split; [apply to_hex_length|].
  rewrite to_hex_unfold, list_ascii_of_string_of_list_ascii.
  induction (bytes_of_hash h) as [|b bs IH]; [constructor|].
  cbn [flat_map]. apply Forall_app. split; [apply hex_pair_lower|exact IH].
Qed.

Lemma from_hex_ok_iff s out :
  (scribe_hash_from_hex (Some s) out).1 = SCRIBE_OK
  <-> String.length s = 64 /\ forallb isxdigit (list_ascii_of_string s) = true.
Proof.
  destruct (decide (String.length s = 64)) as [Hlen|Hlen].
  - assert (Hchars : length (list_ascii_of_string s) = 64)
      by (rewrite <- Hlen, <- string_of_list_ascii_length,
            string_of_list_ascii_of_string; reflexivity).
    assert (Heven : Nat.Even (length (list_ascii_of_string s)))
      by (exists 32; lia).
    pose proof (good_pairs_all _ Heven) as Hgood.
    rewrite Hchars in Hgood. change (64 / 2) with 32 in Hgood.
    rewrite from_hex_run by exact Hlen. cbn [fst snd].
    rewrite <- Hgood. destruct (bool_decide _) eqn:Hd.
    + apply bool_decide_eq_true in Hd. tauto.
    + apply bool_decide_eq_false in Hd. split; [discriminate|tauto].
  - unfold scribe_hash_from_hex.
    replace (String.length s =? SCRIBE_HASH_HEX_SIZE - 1) with false
      by (symmetry; apply Nat.eqb_neq; exact Hlen).
    cbn [negb fst]. split; [discriminate|tauto].
Qed.

(** X2: [scribe_hash_from_hex] returns OK exactly for a text of 64
    hexadecimal digits, in either case; the digest it stores then has the
    lower-cased text as its own text. *)
Theorem from_hex_accepts s out :
  ((scribe_hash_from_hex (Some s) out).1 = SCRIBE_OK
   <-> String.length s = 64 /\ forallb isxdigit (list_ascii_of_string s) = true)
  /\ ((scribe_hash_from_hex (Some s) out).1 = SCRIBE_OK ->
      scribe_hash_to_hex (scribe_hash_from_hex (Some s) out).2
      = string_of_list_ascii (map lower_hex (list_ascii_of_string s))).
Proof.
  destruct (decide (String.length s = 64)) as [Hlen|Hlen].
  - assert (Hchars : length (list_ascii_of_string s) = 64)
      by (rewrite <- Hlen, <- string_of_list_ascii_length,
            string_of_list_ascii_of_string; reflexivity).
    assert (Heven : Nat.Even (length (list_ascii_of_string s)))
      by (exists 32; lia).
    pose proof (good_pairs_all _ Heven) as Hgood.
    rewrite Hchars in Hgood. change (64 / 2) with 32 in Hgood.
    rewrite from_hex_run by exact Hlen. cbn [fst snd].
    assert (Hok : (if bool_decide (good_pairs (list_ascii_of_string s) = 32)
                   then SCRIBE_OK else SCRIBE_ERR_INVALID_ARG) = SCRIBE_OK
                  <-> forallb isxdigit (list_ascii_of_string s) = true).
    { rewrite <- Hgood. destruct (bool_decide _) eqn:Hd.
      - apply bool_decide_eq_true in Hd. tauto.
      - apply bool_decide_eq_false in Hd. split; [discriminate|tauto]. }
    split; [rewrite Hok; tauto|].
    intros Hall. apply Hok in Hall. pose proof (proj2 Hgood Hall) as Hg.
    rewrite Hg. change (2 * 32) with 64.
    rewrite <- Hchars at 1. rewrite firstn_all.
    rewrite drop_ge by (rewrite bytes_of_hash_length; lia).
    rewrite app_nil_r, to_hex_unfold.
    rewrite bytes_of_hash_of_bytes
      by (rewrite decode_pairs_length, Hchars; reflexivity).
    now rewrite hex_of_decoded.
  - assert (Hrun : scribe_hash_from_hex (Some s) out = (SCRIBE_ERR_INVALID_ARG, out)).
    { unfold scribe_hash_from_hex.
      replace (String.length s =? SCRIBE_HASH_HEX_SIZE - 1) with false
        by (symmetry; apply Nat.eqb_neq; exact Hlen).
      reflexivity. }
    rewrite Hrun. cbn [fst]. split; [split; [discriminate|tauto]|discriminate].
Qed.

(** X3: [scribe_hash_from_hex] returns INVALID_ARG and leaves the output
    untouched for a null text and for a text that has not 64 characters; for
    a text of 64 characters with a character that is no hexadecimal digit it
    returns INVALID_ARG after storing the bytes of the pairs before the
    first bad one: the bytes from there on are as they were. *)
Theorem from_hex_rejects :
  (forall out, scribe_hash_from_hex None out = (SCRIBE_ERR_INVALID_ARG, out))
  /\ (forall s out,
        String.length s <> 64 ->
        scribe_hash_from_hex (Some s) out = (SCRIBE_ERR_INVALID_ARG, out))
  /\ (forall s out,
        String.length s = 64 ->
        forallb isxdigit (list_ascii_of_string s) = false ->
        let n := good_pairs (list_ascii_of_string s) in
        n < 32
        /\ scribe_hash_from_hex (Some s) out
           = (SCRIBE_ERR_INVALID_ARG,
              hash_of_bytes
                (decode_pairs (take (2 * n) (list_ascii_of_string s))
                 ++ drop n (bytes_of_hash out)))).
Proof.
  split; [reflexivity|]. split.
  - intros s out Hlen. unfold scribe_hash_from_hex.
    replace (String.length s =? SCRIBE_HASH_HEX_SIZE - 1) with false
      by (symmetry; apply Nat.eqb_neq; exact Hlen).
    reflexivity.
  - intros s out Hlen Hbad n.
    assert (Hchars : length (list_ascii_of_string s) = 64)
      by (rewrite <- Hlen, <- string_of_list_ascii_length,
            string_of_list_ascii_of_string; reflexivity).
    assert (Heven : Nat.Even (length (list_ascii_of_string s)))
      by (exists 32; lia).
    pose proof (good_pairs_all _ Heven) as Hgood.
    pose proof (good_pairs_le (list_ascii_of_string s)) as Hle.
    rewrite Hchars in Hgood, Hle. change (64 / 2) with 32 in Hgood, Hle.
    assert (Hn : n <> 32) by (intros Heq; apply Hgood in Heq; congruence).
    split; [unfold n in *; lia|].
    rewrite from_hex_run by exact Hlen.
    fold n. now rewrite bool_decide_eq_false_2.
Qed.

(* ===================================================================== *)
(** * Merkle tree: invariants and inclusion proofs *)
(* ===================================================================== *)

(** ** Merkle tree: what the interface keeps *)

Lemma expand_leaves_inv t w t1 w1 :
  expand_leaves t w = (Some t1, w1) ->
  leaves t1 = leaves t /\ built t1 = built t /\ root t1 = root t
  /\ (0 < leaf_capacity t -> leaf_count t <= leaf_capacity t ->
      leaf_count t < leaf_capacity t1)
  /\ (leaf_capacity t1 = leaf_capacity t \/ leaf_capacity t1 = leaf_capacity t * 2).
Proof.
  unfold expand_leaves, bind, ret.
  destruct (leaf_capacity t <=? leaf_count t) eqn:Hfull.
  - destruct (request w) as [[] w2]; cbn [negb]; [|discriminate].
    intros [= <- _]. cbn [leaves built root leaf_capacity]. apply Nat.leb_le in Hfull.
    repeat split; auto. unfold leaf_count in *. lia.
  - intros [= <- _]. apply Nat.leb_gt in Hfull. repeat split; auto.
Qed.

Lemma create_leaf_node_inv name data w n w' :
  create_leaf_node name data w = (Some n, w') ->
  node_hash n = scribe_hash_leaf (default [] data)
  /\ node_is_leaf n = true /\ node_left n = None /\ node_right n = None.
Proof.
  unfold create_leaf_node, bind, ret.
  destruct (request w) as [[] w1]; cbn [negb]; [|discriminate].
  destruct (safe_strdup name w1) as [nm w2].
  destruct data as [[|b bytes]|]; cbn [default].
  - intros [= <- _]. cbn [node_hash node_is_leaf node_left node_right]. auto.
  - destruct (request w2) as [[] w3]; cbn [negb]; [|discriminate].
    intros [= <- _]. cbn [node_hash node_is_leaf node_left node_right]. auto.
  - intros [= <- _]. cbn [node_hash node_is_leaf node_left node_right]. auto.
Qed.

Lemma add_field_result t name data w err t' w' :
  scribe_merkle_add_field (Some t) name data w = ((err, t'), w') ->
  exists t1, t' = Some t1
    /\ add_result t (scribe_hash_leaf (default [] data)) err t1
    /\ (leaf_capacity t1 = leaf_capacity t \/ leaf_capacity t1 = leaf_capacity t * 2)
    /\ (0 < leaf_capacity t -> leaf_count t <= leaf_capacity t ->
        leaf_count t1 <= leaf_capacity t1).
Proof.
  unfold scribe_merkle_add_field. destruct (built t) eqn:Hb.
  - intros [= <- <- _]. exists t. split; [reflexivity|]. split; [|auto].
    right. left. auto.
  - unfold bind. destruct (expand_leaves t w) as [[t0|] w0] eqn:Hexp.
    + apply expand_leaves_inv in Hexp as (Hl & Hb0 & Hr & Hcap & Hgrow).
      destruct (create_leaf_node name data w0) as [[n|] w1] eqn:Hnode.
      * intros [= <- <- _]. exists (push_leaf t0 n). split; [reflexivity|].
        apply create_leaf_node_inv in Hnode as (Hh & Hleaf & Hleft & Hright).
        split; [|split; [exact Hgrow|]].
        -- left. cbn [push_leaf leaves built root node_hash node_is_leaf node_left node_right]. rewrite Hl, Hb0, Hr, Hb. repeat split; auto.
           exists n. auto.
        -- intros Hpos Hle. specialize (Hcap Hpos Hle).
           unfold leaf_count in *. cbn [push_leaf leaves leaf_capacity]. rewrite Hl, length_app. cbn [length]. lia.
      * intros [= <- <- _]. exists t0. split; [reflexivity|].
        split; [|split; [exact Hgrow|]].
        -- right. right. rewrite Hl, Hb0, Hr, Hb. auto.
        -- intros Hpos Hle. specialize (Hcap Hpos Hle).
           unfold leaf_count in *. rewrite Hl. lia.
    + intros [= <- <- _]. exists t. split; [reflexivity|]. split; [|auto].
      right. right. auto.
Qed.

Lemma add_hash_result t name h w err t' w' :
  scribe_merkle_add_hash (Some t) name (Some h) w = ((err, t'), w') ->
  exists t1, t' = Some t1
    /\ add_result t h err t1
    /\ (leaf_capacity t1 = leaf_capacity t \/ leaf_capacity t1 = leaf_capacity t * 2)
    /\ (0 < leaf_capacity t -> leaf_count t <= leaf_capacity t ->
        leaf_count t1 <= leaf_capacity t1).
Proof.
  unfold scribe_merkle_add_hash. destruct (built t) eqn:Hb.
  - intros [= <- <- _]. exists t. split; [reflexivity|]. split; [|auto].
    right. left. auto.
  - unfold bind. destruct (expand_leaves t w) as [[t0|] w0] eqn:Hexp.
    + apply expand_leaves_inv in Hexp as (Hl & Hb0 & Hr & Hcap & Hgrow).
      destruct (request w0) as [[] w1]; cbn [negb].
      * destruct (safe_strdup name w1) as [nm w2]. intros [= <- <- _].
        eexists. split; [reflexivity|]. split; [|split; [exact Hgrow|]].
        -- left. cbn [push_leaf leaves built root node_hash node_is_leaf node_left node_right]. rewrite Hl, Hb0, Hr, Hb. repeat split; auto.
           eexists. split; [reflexivity|]. auto.
        -- intros Hpos Hle. specialize (Hcap Hpos Hle).
           unfold leaf_count in *. cbn [push_leaf leaves leaf_capacity]. rewrite Hl, length_app. cbn [length]. lia.
      * intros [= <- <- _]. exists t0. split; [reflexivity|].
        split; [|split; [exact Hgrow|]].
        -- right. right. rewrite Hl, Hb0, Hr, Hb. auto.
        -- intros Hpos Hle. specialize (Hcap Hpos Hle).
           unfold leaf_count in *. rewrite Hl. lia.
    + intros [= <- <- _]. exists t. split; [reflexivity|]. split; [|auto].
      right. right. auto.
Qed.

(** X4: an [add] returns OK only on a tree that is not built, and then
    appends one leaf whose hash is SHA256(0x00 || data) for [add_field] and
    the given digest for [add_hash], leaving the other leaves as they
    were; on a built tree it returns INVALID_ARG and on a failed allocation
    NOMEM, and the leaves, the root and the built flag are unchanged; a
    built tree is also left as it is by [scribe_merkle_build]. *)
Theorem merkle_add_outcome :
  (forall t name data w err t' w',
      scribe_merkle_add_field (Some t) name data w = ((err, t'), w') ->
      exists t1, t' = Some t1
                 /\ add_result t (scribe_hash_leaf (default [] data)) err t1)
  /\ (forall t name h w err t' w',
        scribe_merkle_add_hash (Some t) name (Some h) w = ((err, t'), w') ->
        exists t1, t' = Some t1 /\ add_result t h err t1)
  /\ (forall name data w,
        scribe_merkle_add_field None name data w = ((SCRIBE_ERR_INVALID_ARG, None), w))
  /\ (forall tree name w,
        scribe_merkle_add_hash tree name None w = ((SCRIBE_ERR_INVALID_ARG, tree), w))
  /\ (forall t name data h w,
        built t = true ->
        scribe_merkle_add_field (Some t) name data w
        = ((SCRIBE_ERR_INVALID_ARG, Some t), w)
        /\ scribe_merkle_add_hash (Some t) name (Some h) w
           = ((SCRIBE_ERR_INVALID_ARG, Some t), w)
        /\ scribe_merkle_build (Some t) w = ((SCRIBE_OK, Some t), w)).
Proof.
  repeat apply conj.
  - intros t name data w err t' w' Hrun.
    apply add_field_result in Hrun as (t1 & -> & Hres & _). eauto.
  - intros t name h w err t' w' Hrun.
    apply add_hash_result in Hrun as (t1 & -> & Hres & _). eauto.
  - reflexivity.
  - intros [t|] name w; reflexivity.
  - intros t name data h w Hb.
    unfold scribe_merkle_add_field, scribe_merkle_add_hash, scribe_merkle_build.
    rewrite Hb. auto.
Qed.

Lemma add_result_wf t leaf_hash err t1 :
  add_result t leaf_hash err t1 ->
  (leaf_capacity t1 = leaf_capacity t \/ leaf_capacity t1 = leaf_capacity t * 2) ->
  (0 < leaf_capacity t -> leaf_count t <= leaf_capacity t ->
   leaf_count t1 <= leaf_capacity t1) ->
  tree_wf t -> tree_wf t1.
Proof.
  intros Hres Hgrow Hcap (Hle & (k & Hk) & Hleaves & Hunbuilt & Hbuilt).
  assert (Hpos : 0 < leaf_capacity t).
  { rewrite Hk. unfold INITIAL_CAPACITY. pose proof (Nat.pow_nonzero 2 k). lia. }
  assert (Hk1 : exists k1, leaf_capacity t1 = INITIAL_CAPACITY * 2 ^ k1).
  { destruct Hgrow as [-> | ->]; [eauto|]. exists (S k). rewrite Hk, Nat.pow_succ_r'. lia. }
  destruct Hres as [(_ & Hb & Hb1 & Hr & n & Hl & _ & Hn)
                   |[(_ & _ & ->)|(_ & Hb & Hb1 & Hr & Hl)]].
  - repeat split; auto.
    + rewrite Hl. apply Forall_app. split; [exact Hleaves|]. constructor; auto.
    + intros _. rewrite Hr. auto.
    + congruence.
  - repeat split; auto.
  - repeat split; auto.
    + now rewrite Hl.
    + intros _. rewrite Hr. auto.
    + congruence.
Qed.

Lemma tree_state_wf t : tree_state t -> tree_wf t.
Proof.
  induction 1 as [w t w' Hnew | t name data w err t' w' _ IH Hrun
                  | t name h w err t' w' _ IH Hrun | t w err t' w' _ IH Hrun].
  - unfold scribe_merkle_tree_new, bind, ret in Hnew.
    destruct (request w) as [[] w1]; cbn [negb] in Hnew; [|discriminate].
    destruct (request w1) as [[] w2]; cbn [negb] in Hnew; [|discriminate].
    injection Hnew as <- _. repeat split; cbn [leaves built root leaf_capacity leaf_count length]; auto; try discriminate.
    + unfold INITIAL_CAPACITY. lia.
    + exists 0. reflexivity.
  - apply add_field_result in Hrun as (t1 & [= <-] & Hres & Hgrow & Hcap).
    eapply add_result_wf; eauto.
  - destruct h as [h|].
    + apply add_hash_result in Hrun as (t1 & [= <-] & Hres & Hgrow & Hcap).
      eapply add_result_wf; eauto.
    + injection Hrun as _ <- _. exact IH.
  - destruct (built t) eqn:Hb.
    + unfold scribe_merkle_build in Hrun. rewrite Hb in Hrun.
      injection Hrun as _ <- _. exact IH.
    + destruct (merkle_build_nomem _ _ _ _ _ Hb Hrun) as [->| ->]; [|exact IH].
      destruct (merkle_build_ok _ _ _ _ Hb Hrun) as (Hroot & r & [= ->]).
      destruct IH as (Hle & Hk & Hleaves & _).
      repeat split; auto; cbn [set_root leaves built root leaf_capacity]; try discriminate.
      intros _. destruct r; [eauto|discriminate Hroot].
Qed.

(** X5: every tree made through the interface has its leaves within the
    allocated array, whose capacity is 16 doubled some number of times; its
    leaves are leaf nodes without children; it has a root exactly when it is
    built, and [scribe_merkle_verify] returns OK exactly then (INVALID_ARG
    on a tree that is not built). *)
Theorem tree_state_invariants t :
  tree_state t ->
  tree_wf t
  /\ scribe_merkle_verify (Some t)
     = (if built t then SCRIBE_OK else SCRIBE_ERR_INVALID_ARG).
Proof.
  intros Hstate. pose proof (tree_state_wf t Hstate) as Hwf.
  split; [exact Hwf|].
  destruct Hwf as (_ & _ & _ & _ & Hbuilt).
  unfold scribe_merkle_verify. destruct (built t); [|reflexivity].
  destruct (Hbuilt eq_refl) as [r ->]. reflexivity.
Qed.

(** ** Inclusion proofs: what [scribe_merkle_proof_verify] accepts *)

Lemma proof_fold_path path : forall pre current depth,
  proof_fold (mk_proof (pre.*1 ++ path.*1) (pre.*2 ++ path.*2) depth)
    (length pre) (length path) current
  = fold_left proof_step path current.
Proof.
  induction path as [|[s pos] path IH]; intros pre current depth; [reflexivity|].
  cbn [length proof_fold fold_left proof_hashes proof_positions].
  assert (Hs : (pre.*1 ++ ((s, pos) :: path).*1) !!! length pre = s).
  { apply list_lookup_total_correct.
    rewrite lookup_app_r by (rewrite length_fmap; lia).
    rewrite length_fmap, Nat.sub_diag. reflexivity. }
  assert (Hp : (pre.*2 ++ ((s, pos) :: path).*2) !!! length pre = pos).
  { apply list_lookup_total_correct.
    rewrite lookup_app_r by (rewrite length_fmap; lia).
    rewrite length_fmap, Nat.sub_diag. reflexivity. }
  rewrite Hs, Hp.
  specialize (IH (pre ++ [(s, pos)])
                (proof_step current (s, pos)) depth).
  rewrite !fmap_app, <- !app_assoc, length_app in IH. cbn [fmap list_fmap app length] in IH.
  replace (length pre + 1) with (S (length pre)) in IH by lia.
  exact IH.
Qed.

Lemma sibling_path_step (level : list scribe_hash_t) i :
  2 <= length level -> i < length level ->
  sibling_path level i
  = (if Nat.even i
     then (if S i <? length level then level !!! S i else level !!! i, 0%Z)
     else (level !!! (i - 1), 1%Z))
    :: sibling_path (reference_level level) (i / 2)
  /\ proof_step (level !!! i)
       (if Nat.even i
        then (if S i <? length level then level !!! S i else level !!! i, 0%Z)
        else (level !!! (i - 1), 1%Z))
     = reference_level level !!! (i / 2)
  /\ i / 2 < length (reference_level level).
Proof.
  intros Hlen Hi.
  destruct level as [|x [|y rest]]; cbn [length] in Hlen; try lia.
  split; [now simp sibling_path|].
  set (level := x :: y :: rest) in *.
  assert (Hhalf : i / 2 < (length level + 1) / 2).
  { apply Nat.Div0.div_lt_upper_bound.
    pose proof (Nat.div_mod_eq (length level + 1) 2) as Hd.
    pose proof (Nat.mod_upper_bound (length level + 1) 2). lia. }
  split; [|now rewrite reference_level_length].
  rewrite (list_lookup_total_correct _ _ _ (reference_level_lookup level (i / 2) Hhalf)).
  pose proof (Nat.div_mod_eq i 2) as Hdiv.
  pose proof (Nat.mod_upper_bound i 2 ltac:(lia)) as Hmod.
  destruct (Nat.even i) eqn:Heven.
  - apply Nat.even_spec in Heven. destruct Heven as [k Hk].
    assert (Hi2 : i / 2 * 2 = i).
    { rewrite Hk. rewrite (Nat.mul_comm 2 k), Nat.div_mul by lia. reflexivity. }
    rewrite Hi2. unfold proof_step. cbn [fst snd Z.eqb].
    replace (i + 1) with (S i) by lia.
    destruct (S i <? length level) eqn:Hlt.
    + apply Nat.ltb_lt in Hlt.
      replace (length level <=? S i) with false by (symmetry; apply Nat.leb_gt; lia).
      reflexivity.
    + apply Nat.ltb_ge in Hlt.
      replace (length level <=? S i) with true by (symmetry; apply Nat.leb_le; lia).
      reflexivity.
  - assert (Hodd : Nat.odd i = true) by (rewrite <- Nat.negb_even, Heven; reflexivity).
    apply Nat.odd_spec in Hodd. destruct Hodd as [k Hk].
    assert (Hi2 : i / 2 = k).
    { rewrite Hk. replace (2 * k + 1) with (1 + k * 2) by lia.
      rewrite Nat.div_add by lia. reflexivity. }
    rewrite Hi2. unfold proof_step. cbn [fst snd Z.eqb].
    replace (i - 1) with (k * 2) by lia.
    replace (k * 2 + 1) with i by lia.
    replace (length level <=? i) with false by (symmetry; apply Nat.leb_gt; lia).
    reflexivity.
Qed.

Lemma sibling_path_root : forall n (level : list scribe_hash_t) i,
  length level <= n -> i < length level ->
  fold_left proof_step (sibling_path level i) (level !!! i) = reference_root level.
Proof.
  induction n as [|n IH]; intros level i Hn Hi; [lia|].
  destruct (decide (length level = 1)) as [Hone|Hmore].
  - destruct level as [|x [|]]; try discriminate.
    assert (i = 0) as -> by (cbn in Hi; lia).
    simp sibling_path reference_root. reflexivity.
  - assert (Hlen : 2 <= length level) by lia.
    destruct (sibling_path_step level i Hlen Hi) as (-> & Hstep & Hhalf).
    cbn [fold_left]. rewrite Hstep.
    rewrite (reference_root_step level Hlen).
    apply IH; [|exact Hhalf].
    rewrite reference_level_length.
    assert ((length level + 1) / 2 < length level)
      by (apply Nat.Div0.div_lt_upper_bound; lia).
    lia.
Qed.

Lemma tree_depth_acc fuel : forall n depth,
  tree_depth fuel n depth = depth + tree_depth fuel n 0.
Proof.
  induction fuel as [|fuel IH]; intros n depth; cbn [tree_depth]; [lia|].
  destruct (n <=? 1); [lia|]. rewrite (IH _ (S depth)), (IH _ 1). lia.
Qed.

Lemma sibling_path_length : forall n (level : list scribe_hash_t) i,
  length level <= n -> i < length level ->
  length (sibling_path level i) = tree_depth n (length level) 0.
Proof.
  induction n as [|n IH]; intros level i Hn Hi; [lia|].
  cbn [tree_depth].
  destruct (length level <=? 1) eqn:Hone.
  - apply Nat.leb_le in Hone.
    destruct level as [|x [|]]; cbn [length] in Hone, Hi; try lia.
    now simp sibling_path.
  - apply Nat.leb_gt in Hone.
    destruct (sibling_path_step level i ltac:(lia) Hi) as (-> & _ & Hhalf).
    cbn [length]. rewrite tree_depth_acc. f_equal.
    rewrite <- (reference_level_length level).
    apply IH; [|exact Hhalf].
    rewrite reference_level_length.
    assert ((length level + 1) / 2 < length level)
      by (apply Nat.Div0.div_lt_upper_bound; lia).
    lia.
Qed.

(** X6: on a built tree made through the interface,
    [scribe_merkle_proof_verify] accepts, for every leaf, the proof made of
    its siblings from the leaves to the root, against the leaf's hash and the
    tree's root; that proof has the depth [scribe_merkle_proof_create]
    computes. *)
Theorem proof_verify_accepts_sibling_path t i :
  tree_state t -> built t = true -> i < leaf_count t ->
  scribe_merkle_proof_verify
    (Some (proof_of_path (sibling_path (node_hash <$> leaves t) i)))
    (Some (node_hash (leaves t !!! i))) (scribe_merkle_root (Some t)) = true
  /\ proof_depth (proof_of_path (sibling_path (node_hash <$> leaves t) i))
     = tree_depth (leaf_count t) (leaf_count t) 0.
Proof.
  intros Hstate Hbuilt Hi. unfold leaf_count in *.
  rewrite (tree_state_root t Hstate Hbuilt).
  set (level := node_hash <$> leaves t).
  assert (Hlen : length level = length (leaves t)) by apply length_fmap.
  split.
  - unfold scribe_merkle_proof_verify, proof_of_path.
    cbn [proof_depth].
    pose proof (proof_fold_path (sibling_path level i) []
                  (node_hash (leaves t !!! i)) (length (sibling_path level i))) as Hfold.
    cbn [fmap list_fmap app length] in Hfold. rewrite Hfold.
    rewrite node_hash_lookup_total. fold level.
    rewrite (sibling_path_root (length level) level i) by lia.
    apply hash_equal_refl.
  - cbn [proof_of_path proof_depth]. rewrite <- Hlen.
    apply sibling_path_length; lia.
Qed.

Lemma tree_depth_bounds fuel : forall n,
  1 <= n -> n <= fuel ->
  n <= 2 ^ tree_depth fuel n 0
  /\ (1 < n -> 2 ^ (tree_depth fuel n 0 - 1) < n /\ 0 < tree_depth fuel n 0).
Proof.
  induction fuel as [|fuel IH]; intros n Hn Hfuel; [lia|].
  cbn [tree_depth]. destruct (n <=? 1) eqn:Hone.
  - apply Nat.leb_le in Hone. cbn. lia.
  - apply Nat.leb_gt in Hone. rewrite tree_depth_acc.
    set (m := (n + 1) / 2).
    assert (Hm : 1 <= m /\ m < n /\ n <= 2 * m /\ 2 * m <= n + 1).
    { unfold m. pose proof (Nat.div_mod_eq (n + 1) 2) as Hd.
      pose proof (Nat.mod_upper_bound (n + 1) 2 ltac:(lia)). lia. }
    destruct (IH m ltac:(lia) ltac:(lia)) as [Hup Hlow].
    set (d := tree_depth fuel m 0) in *.
    replace (1 + d - 1) with d by lia.
    change (2 ^ (1 + d)) with (2 ^ S d). rewrite Nat.pow_succ_r'.
    split; [lia|]. intros _. split; [|lia].
    destruct (decide (m = 1)) as [Hm1|Hm1].
    + assert (d = 0) as ->.
      { unfold d. rewrite Hm1. destruct fuel; reflexivity. }
      cbn. lia.
    + destruct (Hlow ltac:(lia)) as [Hlt Hpos].
      destruct d as [|d']; [lia|]. rewrite Nat.pow_succ_r'.
      replace (S d' - 1) with d' in Hlt by lia. lia.
Qed.

(** X7: [scribe_merkle_proof_create] returns NULL, asking for no memory,
    for a null tree, a tree that is not built and an index that is not below
    the number of leaves; otherwise, no allocation failing, it returns a
    proof whose depth [d] is the least with [leaf_count <= 2 ^ d], and whose
    [d] hashes and positions are all zero. *)
Theorem proof_create_bounds :
  (forall i w, scribe_merkle_proof_create None i w = (None, w))
  /\ (forall t i w, built t = false ->
        scribe_merkle_proof_create (Some t) i w = (None, w))
  /\ (forall t i w, leaf_count t <= i ->
        scribe_merkle_proof_create (Some t) i w = (None, w))
  /\ (forall t i now, built t = true -> i < leaf_count t ->
        exists d,
          scribe_merkle_proof_create (Some t) i (plenty now)
          = (Some (mk_proof (replicate d SCRIBE_ZERO_HASH) (replicate d 0%Z) d),
             plenty now)
          /\ leaf_count t <= 2 ^ d
          /\ (forall d', leaf_count t <= 2 ^ d' -> d <= d')).
Proof.
  repeat apply conj.
  - reflexivity.
  - intros t i w Hb. unfold scribe_merkle_proof_create. now rewrite Hb.
  - intros t i w Hi. unfold scribe_merkle_proof_create.
    replace (leaf_count t <=? i) with true by (symmetry; apply Nat.leb_le; exact Hi).
    now rewrite orb_true_r.
  - intros t i now Hb Hi.
    exists (tree_depth (leaf_count t) (leaf_count t) 0).
    split; [apply proof_create_zero_filled; assumption|].
    destruct (tree_depth_bounds (leaf_count t) (leaf_count t) ltac:(lia) ltac:(lia))
      as [Hup Hlow].
    split; [exact Hup|]. intros d' Hd'.
    set (d := tree_depth (leaf_count t) (leaf_count t) 0) in *.
    destruct (decide (1 < leaf_count t)) as [Hmany|Hone].
    + destruct (Hlow Hmany) as [Hlt Hpos].
      destruct (decide (d <= d')) as [|Hgt]; [assumption|].
      assert (Hpow : 2 ^ d' <= 2 ^ (d - 1)) by (apply Nat.pow_le_mono_r; lia).
      lia.
    + assert (Hd : d = 0).
      { unfold d. assert (leaf_count t = 1) as -> by lia. reflexivity. }
      lia.
Qed.

(* ===================================================================== *)
(** * Envelopes: what the interface keeps *)
(* ===================================================================== *)

Lemma same_payload_refl e : same_payload e e.
Proof. repeat split. Qed.

Lemma same_payload_trans e1 e2 e3 :
  same_payload e1 e2 -> same_payload e2 e3 -> same_payload e1 e3.
Proof.
  intros (? & ? & ? & ? & ? & ?) (? & ? & ? & ? & ? & ?).
  repeat split; congruence.
Qed.

Lemma set_author_payload e id role w r w' :
  scribe_envelope_set_author (Some e) id role w = (r, w') ->
  exists e1, r = (SCRIBE_OK, Some e1) /\ same_payload e e1
             /\ process e1 = process e /\ message e1 = message e.
Proof.
  unfold scribe_envelope_set_author, bind, ret.
  destruct (safe_strdup id w) as [a w1]. destruct (safe_strdup role w1) as [b w2].
  intros [= <- _]. eexists. split; [reflexivity|]. repeat split.
Qed.

Lemma set_author_email_payload e email w r w' :
  scribe_envelope_set_author_email (Some e) email w = (r, w') ->
  exists e1, r = (SCRIBE_OK, Some e1) /\ same_payload e e1
             /\ process e1 = process e /\ message e1 = message e.
Proof.
  unfold scribe_envelope_set_author_email, bind, ret.
  destruct (safe_strdup email w) as [a w1].
  intros [= <- _]. eexists. split; [reflexivity|]. repeat split.
Qed.

Lemma set_process_payload e name version params w r w' :
  scribe_envelope_set_process (Some e) name version params w = (r, w') ->
  exists e1, r = (SCRIBE_OK, Some e1) /\ same_payload e e1
             /\ author e1 = author e /\ message e1 = message e.
Proof.
  unfold scribe_envelope_set_process, bind, ret.
  destruct (safe_strdup name w) as [a w1]. destruct (safe_strdup version w1) as [b w2].
  destruct (safe_strdup params w2) as [c w3].
  intros [= <- _]. eexists. split; [reflexivity|]. repeat split.
Qed.

Lemma set_process_source_payload e source w r w' :
  scribe_envelope_set_process_source (Some e) source w = (r, w') ->
  exists e1, r = (SCRIBE_OK, Some e1) /\ same_payload e e1
             /\ author e1 = author e /\ message e1 = message e.
Proof.
  unfold scribe_envelope_set_process_source, bind, ret.
  destruct (safe_strdup source w) as [a w1].
  intros [= <- _]. eexists. split; [reflexivity|]. repeat split.
Qed.

Lemma set_message_payload e msg w r w' :
  scribe_envelope_set_message (Some e) msg w = (r, w') ->
  exists e1, r = (SCRIBE_OK, Some e1) /\ same_payload e e1
             /\ author e1 = author e /\ process e1 = process e.
Proof.
  unfold scribe_envelope_set_message, bind, ret.
  destruct (safe_strdup msg w) as [a w1].
  intros [= <- _]. eexists. split; [reflexivity|]. repeat split.
Qed.

(** How [scribe_envelope_add_change] ends: the change is appended, or the
    array could not grow and the envelope is as it was. *)
Lemma add_change_result e table op pk before after w err e' w' :
  scribe_envelope_add_change (Some e) table op pk before after w = ((err, e'), w') ->
  exists e1, e' = Some e1
    /\ commit_id e1 = commit_id e /\ parent_id e1 = parent_id e
    /\ tree_hash e1 = tree_hash e /\ timestamp e1 = timestamp e
    /\ author e1 = author e /\ process e1 = process e /\ message e1 = message e
    /\ ((err = SCRIBE_OK
         /\ (exists c, changes e1 = changes e ++ [c]
                       /\ before_hash c = default SCRIBE_ZERO_HASH before
                       /\ after_hash c = default SCRIBE_ZERO_HASH after)
         /\ (change_capacity e1 = change_capacity e
             \/ change_capacity e1 = change_capacity e * 2)
         /\ (0 < change_capacity e -> change_count e <= change_capacity e ->
             change_count e1 <= change_capacity e1))
        \/ (err = SCRIBE_ERR_NOMEM /\ e1 = e)).
Proof.
  unfold scribe_envelope_add_change, bind, ret.
  destruct (change_capacity e <=? change_count e) eqn:Hfull.
  - apply Nat.leb_le in Hfull.
    destruct (request w) as [[] w1].
    + destruct (safe_strdup table w1) as [t w2].
      destruct (safe_strdup op w2) as [o w3].
      destruct (safe_strdup pk w3) as [p w4].
      intros [= <- <- _]. eexists. split; [reflexivity|].
      cbn [with_changes commit_id parent_id tree_hash timestamp author process
           message changes change_capacity].
      repeat (split; [reflexivity|]). left. split; [reflexivity|]. split.
      * eexists. split; [reflexivity|].
        cbn [before_hash after_hash]. destruct before, after; auto.
      * split; [auto|]. intros Hpos Hle. unfold change_count in *.
        cbn [with_changes changes change_capacity]. rewrite length_app. cbn [length]. lia.
    + intros [= <- <- _]. exists e. split; [reflexivity|].
      repeat (split; [reflexivity|]). right. auto.
  - apply Nat.leb_gt in Hfull.
    destruct (safe_strdup table w) as [t w2].
    destruct (safe_strdup op w2) as [o w3].
    destruct (safe_strdup pk w3) as [p w4].
    intros [= <- <- _]. eexists. split; [reflexivity|].
    cbn [with_changes commit_id parent_id tree_hash timestamp author process
         message changes change_capacity].
    repeat (split; [reflexivity|]). left. split; [reflexivity|]. split.
    + eexists. split; [reflexivity|].
      cbn [before_hash after_hash]. destruct before, after; auto.
    + split; [auto|]. intros Hpos Hle. unfold change_count in *.
      cbn [with_changes changes change_capacity]. rewrite length_app. cbn [length]. lia.
Qed.

Lemma changes_fit_pos e : changes_fit e -> 0 < change_capacity e.
Proof.
  intros (_ & k & ->). unfold INITIAL_CHANGE_CAPACITY.
  pose proof (Nat.pow_nonzero 2 k). lia.
Qed.

Lemma changes_fit_same e e' :
  changes e' = changes e -> change_capacity e' = change_capacity e ->
  changes_fit e -> changes_fit e'.
Proof. unfold changes_fit, change_count. intros -> ->. auto. Qed.

Lemma add_change_fit e table op pk before after w err e' w' :
  scribe_envelope_add_change (Some e) table op pk before after w
  = ((err, Some e'), w') ->
  changes_fit e -> changes_fit e'.
Proof.
  intros Hrun Hfit. pose proof (changes_fit_pos e Hfit) as Hpos.
  apply add_change_result in Hrun
    as (e1 & [= <-] & _ & _ & _ & _ & _ & _ & _
        & [(_ & _ & Hgrow & Hle)|(_ & ->)]); [|exact Hfit].
  destruct Hfit as (Hfit & k & Hk). split; [auto|].
  destruct Hgrow as [-> | ->]; [eauto|].
  exists (S k). rewrite Hk, Nat.pow_succ_r'. lia.
Qed.

(** What [scribe_envelope_finalize] leaves alone, whatever it returns. *)
Lemma finalize_frame e w err e' w' :
  scribe_envelope_finalize (Some e) w = ((err, e'), w') ->
  exists e1, e' = Some e1
    /\ parent_id e1 = parent_id e /\ author e1 = author e /\ process e1 = process e
    /\ timestamp e1 = timestamp e /\ message e1 = message e
    /\ changes e1 = changes e /\ change_capacity e1 = change_capacity e
    /\ (tree_hash e <> SCRIBE_ZERO_HASH \/ changes e = [] -> tree_hash e1 = tree_hash e).
Proof.
  unfold scribe_envelope_finalize, bind, ret.
  destruct (compute_tree_hash e w) as [[e1|] w1] eqn:Htree.
  - assert (Hkeep : tree_hash e <> SCRIBE_ZERO_HASH \/ changes e = [] -> e1 = e).
    { intros Hcase. unfold compute_tree_hash in Htree.
      replace (scribe_hash_is_zero (Some (tree_hash e)) && (0 <? change_count e))
        with false in Htree; [now injection Htree|].
      symmetry. destruct Hcase as [Hnz|Hnil].
      - now rewrite (proj2 (is_zero_false _) Hnz).
      - unfold change_count. rewrite Hnil. apply andb_false_r. }
    destruct (compute_tree_hash_shape _ _ _ _ Htree) as (th & ->).
    destruct (scribe_envelope_to_json (Some (with_tree_hash e th))).
    + destruct (scribe_envelope_to_json _); intros [= <- <- _];
        (eexists; split; [reflexivity|]);
        repeat (split; [reflexivity|]);
        intros Hcase; specialize (Hkeep Hcase);
        apply (f_equal tree_hash) in Hkeep; exact Hkeep.
    + intros [= <- <- _]. eexists. split; [reflexivity|].
      repeat (split; [reflexivity|]).
      intros Hcase. specialize (Hkeep Hcase).
      apply (f_equal tree_hash) in Hkeep. exact Hkeep.
  - intros [= <- <- _]. exists e. repeat split.
Qed.

Lemma envelope_new_inv w e w' :
  scribe_envelope_new w = (Some e, w') ->
  e = mk_envelope SCRIBE_ZERO_HASH SCRIBE_ZERO_HASH SCRIBE_ZERO_HASH
        (mk_author None None None) (mk_process None None None None)
        (clock w') None [] INITIAL_CHANGE_CAPACITY.
Proof.
  unfold scribe_envelope_new, bind, ret, time_now, request.
  destruct w as [[|[] [|[] rest]] now]; cbn; intros [= <- <-]; reflexivity.
Qed.

Lemma clone_changes_inv cs : forall c0 w c w',
  clone_changes cs (Some c0) w = (c, w') ->
  exists c1, c = Some c1
    /\ commit_id c1 = commit_id c0 /\ parent_id c1 = parent_id c0
    /\ tree_hash c1 = tree_hash c0 /\ timestamp c1 = timestamp c0
    /\ (changes_fit c0 -> changes_fit c1)
    /\ length (changes c1) <= length (changes c0) + length cs.
Proof.
  induction cs as [|x cs IH]; intros c0 w c w' Hrun.
  - injection Hrun as <- _. exists c0.
    repeat (split; [reflexivity|]). split; [auto|cbn [length]; lia].
  - cbn [clone_changes] in Hrun. unfold bind in Hrun.
    destruct (scribe_envelope_add_change (Some c0) (table_name x) (operation x)
                (primary_key x) (Some (before_hash x)) (Some (after_hash x)) w)
      as [[err r] w1] eqn:Hadd.
    pose proof Hadd as Hres.
    apply add_change_result in Hres
      as (e1 & -> & Hc & Hp & Ht & Hts & _ & _ & _ & Hcase).
    cbn [snd] in Hrun. apply IH in Hrun
      as (c1 & -> & Hc1 & Hp1 & Ht1 & Hts1 & Hfit1 & Hlen1).
    exists c1. split; [reflexivity|].
    repeat (split; [congruence|]). split.
    + intros Hfit. apply Hfit1. eapply add_change_fit; eauto.
    + cbn [length].
      destruct Hcase as [(_ & (ch & Hch & _) & _)|(_ & ->)]; [|lia].
      rewrite Hch, length_app in Hlen1. cbn [length] in Hlen1. lia.
Qed.

Lemma clone_inv e w c w' :
  scribe_envelope_clone (Some e) w = (Some c, w') ->
  commit_id c = commit_id e /\ parent_id c = parent_id e
  /\ tree_hash c = tree_hash e /\ timestamp c = timestamp e
  /\ length (changes c) <= length (changes e)
  /\ changes_fit c.
Proof.
  unfold scribe_envelope_clone, bind.
  destruct (scribe_envelope_new w) as [[c0|] w0] eqn:Hnew; [|discriminate].
  apply envelope_new_inv in Hnew. subst c0.
  cbn [with_commit_id with_parent_id with_tree_hash commit_id parent_id tree_hash
       author process timestamp message changes change_capacity scribe_hash_copy].
  match goal with |- context [scribe_envelope_set_author (Some ?x) _ _ w0] =>
    set (c1 := x) end.
  destruct (scribe_envelope_set_author (Some c1) (author_id (author e))
              (author_role (author e)) w0) as [r1 w1] eqn:H1.
  apply set_author_payload in H1 as (e1 & -> & P1 & _). cbn [snd].
  assert (exists e2 w2, (match author_email (author e) with
                         | Some _ => scribe_envelope_set_author_email (Some e1)
                                       (author_email (author e))
                         | None => ret (SCRIBE_OK, Some e1)
                         end) w1 = ((SCRIBE_OK, Some e2), w2) /\ same_payload e1 e2)
    as (e2 & w2 & -> & P2).
  { destruct (author_email (author e)).
    - destruct (scribe_envelope_set_author_email _ _ w1) as [r w2] eqn:H.
      apply set_author_email_payload in H as (e2 & -> & P & _). eauto.
    - eexists _, _. split; [reflexivity|apply same_payload_refl]. }
  cbn [snd].
  destruct (scribe_envelope_set_process (Some e2) (process_name (process e))
              (process_version (process e)) (process_params (process e)) w2)
    as [r3 w3] eqn:H3.
  apply set_process_payload in H3 as (e3 & -> & P3 & _). cbn [snd].
  assert (exists e4 w4, (match process_source (process e) with
                         | Some _ => scribe_envelope_set_process_source (Some e3)
                                       (process_source (process e))
                         | None => ret (SCRIBE_OK, Some e3)
                         end) w3 = ((SCRIBE_OK, Some e4), w4) /\ same_payload e3 e4)
    as (e4 & w4 & -> & P4).
  { destruct (process_source (process e)).
    - destruct (scribe_envelope_set_process_source _ _ w3) as [r w4] eqn:H.
      apply set_process_source_payload in H as (e4 & -> & P & _). eauto.
    - eexists _, _. split; [reflexivity|apply same_payload_refl]. }
  cbn [snd].
  assert (exists e5 w5, (match message e with
                         | Some _ => scribe_envelope_set_message (Some e4) (message e)
                         | None => ret (SCRIBE_OK, Some e4)
                         end) w4 = ((SCRIBE_OK, Some e5), w5) /\ same_payload e4 e5)
    as (e5 & w5 & -> & P5).
  { destruct (message e).
    - destruct (scribe_envelope_set_message _ _ w4) as [r w5] eqn:H.
      apply set_message_payload in H as (e5 & -> & P & _). eauto.
    - eexists _, _. split; [reflexivity|apply same_payload_refl]. }
  cbn [snd option_map]. intros Hrun.
  apply clone_changes_inv in Hrun
    as (c2 & [= <-] & Hc & Hp & Ht & Hts & Hfit & Hlen).
  pose proof (same_payload_trans _ _ _
                (same_payload_trans _ _ _
                   (same_payload_trans _ _ _
                      (same_payload_trans _ _ _ P1 P2) P3) P4) P5)
    as (Q1 & Q2 & Q3 & _ & Q5 & Q6).
  subst c1.
  cbn [with_timestamp with_tree_hash with_parent_id with_commit_id commit_id
       parent_id tree_hash timestamp changes change_capacity length] in *.
  rewrite Q5 in Hlen. cbn [length] in Hlen.
  split; [congruence|]. split; [congruence|]. split; [congruence|].
  split; [congruence|]. split; [lia|].
  apply Hfit. unfold changes_fit, change_count.
  cbn [with_timestamp changes change_capacity]. rewrite Q5, Q6. cbn [length].
  split; [lia|]. exists 0. reflexivity.
Qed.

Lemma env_state_fit e : env_state e -> changes_fit e.
Proof.
  induction 1 as [w e w' Hnew
                 | e id role w err e' w' _ IH Hrun
                 | e email w err e' w' _ IH Hrun
                 | e name version params w err e' w' _ IH Hrun
                 | e source w err e' w' _ IH Hrun
                 | e msg w err e' w' _ IH Hrun
                 | e parent err e' _ IH Hrun
                 | e h err e' _ IH Hrun
                 | e table op pk before after w err e' w' _ IH Hrun
                 | e w err e' w' _ IH Hrun
                 | e w e' w' _ IH Hrun].
  - apply envelope_new_inv in Hnew. subst e. split; [cbn; lia|]. exists 0. reflexivity.
  - apply set_author_payload in Hrun as (e1 & [= _ <-] & (_ & _ & _ & _ & Hc & Hcap) & _).
    eapply changes_fit_same; eauto.
  - apply set_author_email_payload in Hrun
      as (e1 & [= _ <-] & (_ & _ & _ & _ & Hc & Hcap) & _).
    eapply changes_fit_same; eauto.
  - apply set_process_payload in Hrun
      as (e1 & [= _ <-] & (_ & _ & _ & _ & Hc & Hcap) & _).
    eapply changes_fit_same; eauto.
  - apply set_process_source_payload in Hrun
      as (e1 & [= _ <-] & (_ & _ & _ & _ & Hc & Hcap) & _).
    eapply changes_fit_same; eauto.
  - apply set_message_payload in Hrun
      as (e1 & [= _ <-] & (_ & _ & _ & _ & Hc & Hcap) & _).
    eapply changes_fit_same; eauto.
  - injection Hrun as _ <-. exact IH.
  - injection Hrun as _ <-. exact IH.
  - eapply add_change_fit; eauto.
  - apply finalize_frame in Hrun as (e1 & [= <-] & _ & _ & _ & _ & _ & Hc & Hcap & _).
    eapply changes_fit_same; eauto.
  - apply clone_inv in Hrun. tauto.
Qed.

(** X8: every envelope made through the interface keeps its changes within
    the allocated array, whose capacity is 8 doubled some number of times;
    in particular [scribe_envelope_add_change] never writes past it. *)
Theorem env_state_changes_fit e :
  env_state e ->
  changes_fit e
  /\ (forall table op pk before after w err e' w',
        scribe_envelope_add_change (Some e) table op pk before after w
        = ((err, Some e'), w') ->
        changes_fit e'
        /\ (err = SCRIBE_OK -> change_count e < change_capacity e'
                               /\ change_count e' = S (change_count e))
        /\ (err <> SCRIBE_OK -> e' = e)).
Proof.
  intros Hstate. pose proof (env_state_fit e Hstate) as Hfit.
  split; [exact Hfit|].
  intros table op pk before after w err e' w' Hrun.
  split; [eapply add_change_fit; eauto|].
  pose proof (changes_fit_pos e Hfit) as Hpos.
  apply add_change_result in Hrun
    as (e1 & [= <-] & _ & _ & _ & _ & _ & _ & _
        & [(-> & (c & Hc & _) & _ & Hle)|(-> & ->)]).
  - split; [|congruence]. intros _.
    specialize (Hle Hpos (proj1 Hfit)).
    unfold change_count in *. rewrite Hc, length_app in *. cbn [length] in *. lia.
  - split; [discriminate|reflexivity].
Qed.

Lemma compute_tree_hash_commit_id e x w :
  compute_tree_hash (with_commit_id e x) w
  = (option_map (fun e1 => with_commit_id e1 x) (compute_tree_hash e w).1,
     (compute_tree_hash e w).2).
Proof.
  destruct e as [cid pid th a p ts msg cs cap].
  unfold compute_tree_hash, change_count.
  cbn [with_commit_id with_tree_hash commit_id parent_id tree_hash author process
       timestamp message changes change_capacity].
  destruct (scribe_hash_is_zero (Some th) && (0 <? length cs)); [|reflexivity].
  unfold bind. destruct (scribe_merkle_tree_new w) as [[t|] w1]; [|reflexivity].
  destruct (add_change_hashes cs (Some t) w1) as [t1 w2].
  destruct (scribe_merkle_build t1 w2) as [r w3].
  destruct (scribe_merkle_root r.2); reflexivity.
Qed.

(** X9: whatever [scribe_envelope_finalize] returns, the parent, the author,
    the process, the timestamp, the message and the changes of the envelope
    are as they were, and so is a [tree_hash] that was set or that has no
    change to be computed from; the [commit_id] the envelope came with has
    no effect on a successful result. *)
Theorem finalize_keeps_payload :
  (forall e w err e' w',
      scribe_envelope_finalize (Some e) w = ((err, e'), w') ->
      exists e1, e' = Some e1
        /\ parent_id e1 = parent_id e /\ author e1 = author e
        /\ process e1 = process e /\ timestamp e1 = timestamp e
        /\ message e1 = message e /\ changes e1 = changes e
        /\ change_capacity e1 = change_capacity e
        /\ (tree_hash e <> SCRIBE_ZERO_HASH \/ changes e = [] ->
            tree_hash e1 = tree_hash e))
  /\ (forall e x w,
        (scribe_envelope_finalize (Some e) w).1.1 = SCRIBE_OK ->
        scribe_envelope_finalize (Some (with_commit_id e x)) w
        = scribe_envelope_finalize (Some e) w).
Proof.
  split; [exact finalize_frame|].
  intros e x w. unfold scribe_envelope_finalize, bind, ret.
  rewrite compute_tree_hash_commit_id.
  destruct (compute_tree_hash e w) as [[e1|] w1]; cbn [fst snd option_map];
    [|discriminate].
  pose proof (to_json_commit_id_some e1 x) as Hsome.
  destruct (scribe_envelope_to_json (Some e1)) as [j|] eqn:Hj; [|discriminate].
  destruct (scribe_envelope_to_json (Some (with_commit_id e1 x))) as [j'|];
    [|destruct (proj2 Hsome ltac:(eauto)); discriminate].
  reflexivity.
Qed.

(** X10: [scribe_envelope_clone] returns NULL for a null envelope; whatever
    the allocator does, a clone it returns has the digests and the timestamp
    of the original (not the time of the call), no more changes than the
    original, and its changes fit the allocated array; when no allocation
    fails the clone is the original with a capacity of its own, and it
    serializes to the same text. *)
Theorem clone_keeps_payload :
  (forall w, scribe_envelope_clone None w = (None, w))
  /\ (forall e w c w',
        scribe_envelope_clone (Some e) w = (Some c, w') ->
        commit_id c = commit_id e /\ parent_id c = parent_id e
        /\ tree_hash c = tree_hash e /\ timestamp c = timestamp e
        /\ length (changes c) <= length (changes e)
        /\ changes_fit c)
  /\ (forall e now,
        exists cap,
          scribe_envelope_clone (Some e) (plenty now)
          = (Some (with_changes e (changes e) cap), plenty now)
          /\ scribe_envelope_to_json (Some (with_changes e (changes e) cap))
             = scribe_envelope_to_json (Some e)).
Proof.
  split; [reflexivity|]. split; [exact clone_inv|].
  intros e now. destruct (clone_plenty e now) as (cap & Hclone).
  exists cap. split; [exact Hclone|reflexivity].
Qed.


(* ===================================================================== *)
(** * The commit store: rows written and read back *)
(* ===================================================================== *)

Lemma insert_changes_rows commit_hex cs : forall t,
  is_Some (commits_table t !! commit_hex) ->
  fold_left (insert_change commit_hex) cs t
  = mk_tables (commits_table t)
      (changes_table t ++ omap (change_row_of commit_hex) cs) (refs_table t).
Proof.
  induction cs as [|c cs IH]; intros t Hkey.
  - cbn. rewrite app_nil_r. now destruct t.
  - cbn [fold_left omap list_omap].
    assert (Hstep : insert_change commit_hex t c
                    = mk_tables (commits_table t)
                        (changes_table t
                         ++ match change_row_of commit_hex c with
                            | Some row => [row]
                            | None => []
                            end) (refs_table t)).
    { unfold insert_change, change_row_of.
      destruct (table_name c), (operation c), (primary_key c);
        try (rewrite app_nil_r; now destruct t).
      rewrite (bool_decide_eq_true_2 _ Hkey), andb_true_r.
      destruct (operation_allowed _); [reflexivity|].
      rewrite app_nil_r. now destruct t. }
    rewrite Hstep, IH by exact Hkey. cbn [commits_table changes_table refs_table].
    rewrite <- app_assoc. now destruct (change_row_of commit_hex c).
Qed.

(** What a successful [scribe_db_store_commit] writes. *)
Lemma store_commit_rows d e db' :
  scribe_db_store_commit (Some d) (Some e) = (SCRIBE_OK, db') ->
  exists conn a_id p_name,
    handle d = Some conn
    /\ author_id (author e) = Some a_id /\ process_name (process e) = Some p_name
    /\ commits_table (current conn) !! scribe_hash_to_hex (commit_id e) = None
    /\ db' = Some (with_handle d (with_current conn
               (mk_tables
                  (<[scribe_hash_to_hex (commit_id e) := commit_row_of e a_id p_name]>
                     (commits_table (current conn)))
                  (changes_table (current conn)
                   ++ omap (change_row_of (scribe_hash_to_hex (commit_id e))) (changes e))
                  (refs_table (current conn))))).
Proof.
  unfold scribe_db_store_commit.
  destruct (handle d) as [conn|]; [|discriminate].
  destruct (insert_commit (current conn) e) as [t1|] eqn:Hins; [|discriminate].
  intros [= <-]. unfold insert_commit in Hins.
  destruct (commits_table (current conn) !! scribe_hash_to_hex (commit_id e)) eqn:Hfree;
    [discriminate|].
  destruct (author_id (author e)) as [a_id|]; [|discriminate].
  destruct (process_name (process e)) as [p_name|]; [|discriminate].
  injection Hins as <-.
  rewrite insert_changes_rows
    by (cbn [commits_table]; rewrite lookup_insert_eq; eauto).
  exists conn, a_id, p_name. repeat split; auto.
Qed.

Lemma change_row_of_commit commit_hex (cs : list scribe_change_t) row :
  row ∈ omap (change_row_of commit_hex) cs -> col_commit_hash row = commit_hex.
Proof.
  induction cs as [|c cs IH]; cbn [omap list_omap]; [now intros ?%not_elem_of_nil|].
  destruct (change_row_of commit_hex c) as [r|] eqn:Hr; [|exact IH].
  intros [->|Hin]%elem_of_cons; [|auto].
  unfold change_row_of in Hr.
  destruct (table_name c), (operation c), (primary_key c); try discriminate.
  destruct (operation_allowed _); [|discriminate]. now injection Hr as <-.
Qed.

Lemma hash_from_hex_or_null h :
  hash_from_column (hex_or_null h) SCRIBE_ZERO_HASH = h.
Proof.
  unfold hex_or_null, hash_from_column.
  destruct (scribe_hash_is_zero (Some h)) eqn:Hz.
  - apply is_zero_true in Hz. congruence.
  - now rewrite from_hex_to_hex.
Qed.

Lemma change_row_of_storable commit_hex c :
  storable c = true ->
  exists row, change_row_of commit_hex c = Some row /\ change_of_row row = c.
Proof.
  unfold storable, change_row_of.
  destruct c as [[tbl|] [op|] [pk|] before after];
    cbn [table_name operation primary_key before_hash after_hash]; try discriminate.
  intros ->. eexists. split; [reflexivity|].
  unfold change_of_row. cbn [col_table_name col_operation col_primary_key
                               col_before_hash col_after_hash].
  now rewrite !hash_from_hex_or_null.
Qed.

Lemma change_row_of_unstorable commit_hex c :
  storable c = false -> change_row_of commit_hex c = None.
Proof.
  unfold storable, change_row_of.
  destruct (table_name c), (operation c), (primary_key c); try reflexivity.
  now intros ->.
Qed.

Lemma change_of_row_of commit_hex (cs : list scribe_change_t) :
  change_of_row <$> omap (change_row_of commit_hex) cs
  = filter (fun c => storable c = true) cs.
Proof.
  induction cs as [|c cs IH]; [reflexivity|].
  cbn [omap list_omap]. destruct (storable c) eqn:Hc.
  - destruct (change_row_of_storable commit_hex c Hc) as (row & -> & Hrow).
    rewrite filter_cons_True by exact Hc.
    cbn [fmap list_fmap]. now rewrite IH, Hrow.
  - rewrite (change_row_of_unstorable commit_hex c Hc).
    rewrite filter_cons_False by congruence. exact IH.
Qed.

Lemma load_changes_plenty now rows : forall e,
  exists cap,
    load_changes rows (Some e) (plenty now)
    = (Some (with_changes e (changes e ++ (change_of_row <$> rows)) cap), plenty now).
Proof.
  induction rows as [|row rows IH]; intros e.
  - exists (change_capacity e). cbn. rewrite app_nil_r. now destruct e.
  - cbn [load_changes]. unfold bind.
    destruct (add_change_plenty e (Some (col_table_name row)) (Some (col_operation row))
                (Some (col_primary_key row))
                (hash_from_column (col_before_hash row) SCRIBE_ZERO_HASH)
                (hash_from_column (col_after_hash row) SCRIBE_ZERO_HASH) now)
      as (cap & ->).
    cbn [snd].
    match goal with |- context [load_changes rows (Some ?x) _] =>
      destruct (IH x) as (cap' & ->) end.
    exists cap'. cbn [with_changes changes commit_id parent_id tree_hash author
                        process timestamp message fmap list_fmap].
    rewrite <- app_assoc. reflexivity.
Qed.

(** What [scribe_db_load_commit] builds from a row when no allocation
    fails. *)
Lemma load_commit_plenty d conn h row now :
  handle d = Some conn ->
  commits_table (current conn) !! scribe_hash_to_hex h = Some row ->
  exists cap,
    scribe_db_load_commit (Some d) (Some h) (plenty now)
    = (Some {| commit_id := h;
               parent_id := hash_from_column (col_parent_hash row) SCRIBE_ZERO_HASH;
               tree_hash := hash_from_column (Some (col_tree_hash row)) SCRIBE_ZERO_HASH;
               author := mk_author (Some (col_author_id row)) (col_author_role row)
                           (col_author_email row);
               process := mk_process (Some (col_process_name row))
                            (col_process_version row) (col_process_params row)
                            (col_process_source row);
               timestamp := col_timestamp row;
               message := col_message row;
               changes := change_of_row
                            <$> changes_of_commit (current conn) (scribe_hash_to_hex h);
               change_capacity := cap |}, plenty now).
Proof.
  intros Hh Hrow. unfold scribe_db_load_commit. rewrite Hh, Hrow.
  rewrite (bind_run _ _ _ _ _ (envelope_new_plenty now)).
  cbn [with_commit_id with_parent_id with_tree_hash commit_id parent_id tree_hash
       author process timestamp message changes change_capacity].
  unfold hash_from_column at 1. rewrite from_hex_to_hex. cbn [snd].
  rewrite (bind_run _ _ _ _ _ (set_author_plenty _ _ _ now)). cbn [snd].
  destruct row as [parent tree a_id a_role a_email p_name p_ver p_par p_src msg ts].
  cbn [col_parent_hash col_tree_hash col_author_id col_author_role col_author_email
       col_process_name col_process_version col_process_params col_process_source
       col_message col_timestamp].
  destruct a_email as [email|].
  all: try rewrite (bind_run _ _ _ _ _ (set_author_email_plenty _ _ now)).
  all: try rewrite (bind_run _ _ _ _ _ (eq_refl : ret _ (plenty now) = (_, _))).
  all: cbn [snd]; rewrite (bind_run _ _ _ _ _ (set_process_plenty _ _ _ _ now)).
  all: cbn [snd]; destruct p_src as [src|].
  all: try rewrite (bind_run _ _ _ _ _ (set_process_source_plenty _ _ now)).
  all: try rewrite (bind_run _ _ _ _ _ (eq_refl : ret _ (plenty now) = (_, _))).
  all: cbn [snd]; destruct msg as [m|].
  all: try rewrite (bind_run _ _ _ _ _ (set_message_plenty _ _ now)).
  all: try rewrite (bind_run _ _ _ _ _ (eq_refl : ret _ (plenty now) = (_, _))).
  all: cbn [snd option_map].
  all: match goal with |- context [load_changes ?l (Some ?c0) _] =>
      destruct (load_changes_plenty now l c0) as (cap & ->) end.
  all: exists cap; reflexivity.
Qed.

Lemma filter_rows_same commit_hex (rows : list change_row) :
  (forall row, row ∈ rows -> col_commit_hash row = commit_hex) ->
  filter (fun row => col_commit_hash row = commit_hex) rows = rows.
Proof.
  induction rows as [|r rows IH]; intros Hall; [reflexivity|].
  rewrite filter_cons_True by (apply Hall; left).
  f_equal. apply IH. intros row Hin. apply Hall. now right.
Qed.

Lemma filter_rows_other commit_hex (rows : list change_row) :
  (forall row, row ∈ rows -> col_commit_hash row <> commit_hex) ->
  filter (fun row => col_commit_hash row = commit_hex) rows = [].
Proof.
  induction rows as [|r rows IH]; intros Hall; [reflexivity|].
  rewrite filter_cons_False by (apply Hall; left).
  apply IH. intros row Hin. apply Hall. now right.
Qed.

Lemma store_commit_fk d conn e d' conn' :
  handle d = Some conn -> tables_fk (current conn) ->
  scribe_db_store_commit (Some d) (Some e) = (SCRIBE_OK, Some d') ->
  handle d' = Some conn' -> tables_fk (current conn').
Proof.
  intros Hh Hfk Hstore Hh'.
  apply store_commit_rows in Hstore
    as (conn0 & a_id & p_name & Hh0 & _ & _ & _ & [= ->]).
  assert (conn0 = conn) as -> by congruence.
  cbn in Hh'. injection Hh' as <-. cbn [current with_current].
  intros row Hin. cbn [changes_table commits_table] in *.
  apply elem_of_app in Hin as [Hold|Hnew].
  - apply lookup_insert_is_Some. destruct (Hfk row Hold) as [x Hx].
    destruct (decide (scribe_hash_to_hex (commit_id e) = col_commit_hash row));
      [now left|right]. split; [assumption|eauto].
  - apply change_row_of_commit in Hnew. rewrite Hnew, lookup_insert_eq. eauto.
Qed.

(** X12: a successful [scribe_db_store_commit] needs the author id and the
    process name, and a [commit_id] that is not yet a key; it adds one row to
    [commits] under the text of [commit_id], appends to [changes] the rows of
    the storable changes in order (a change with an absent string or another
    operation gets no row), leaves every other row and every reference as
    they were, raises the number of commits by one and keeps the foreign key
    of [changes]. *)
Theorem store_commit_writes d conn e d' :
  handle d = Some conn ->
  scribe_db_store_commit (Some d) (Some e) = (SCRIBE_OK, Some d') ->
  exists conn' a_id p_name,
    handle d' = Some conn'
    /\ author_id (author e) = Some a_id /\ process_name (process e) = Some p_name
    /\ commits_table (current conn) !! scribe_hash_to_hex (commit_id e) = None
    /\ commits_table (current conn')
       = <[scribe_hash_to_hex (commit_id e) := commit_row_of e a_id p_name]>
           (commits_table (current conn))
    /\ changes_table (current conn')
       = changes_table (current conn)
         ++ omap (change_row_of (scribe_hash_to_hex (commit_id e))) (changes e)
    /\ length (omap (change_row_of (scribe_hash_to_hex (commit_id e))) (changes e))
       = length (filter (fun c => storable c = true) (changes e))
    /\ refs_table (current conn') = refs_table (current conn)
    /\ snapshot conn' = snapshot conn
    /\ scribe_db_commit_count (Some d') = S (scribe_db_commit_count (Some d))
    /\ (tables_fk (current conn) -> tables_fk (current conn')).
Proof.
  intros Hh Hstore. pose proof Hstore as Hkeep.
  apply store_commit_rows in Hstore
    as (conn0 & a_id & p_name & Hh0 & Ha & Hp & Hfree & [= ->]).
  assert (conn0 = conn) as -> by congruence.
  eexists _, a_id, p_name. split; [reflexivity|].
  cbn [current with_current commits_table changes_table refs_table snapshot].
  repeat (split; [first [assumption|reflexivity]|]).
  split.
  { rewrite <- (change_of_row_of (scribe_hash_to_hex (commit_id e))).
    now rewrite length_fmap. }
  repeat (split; [reflexivity|]). split.
  - unfold scribe_db_commit_count. rewrite Hh.
    cbn [handle with_handle current with_current commits_table].
    now rewrite map_size_insert_None.
  - intros Hfk.
    exact (store_commit_fk d conn e _ (with_current conn _) Hh Hfk Hkeep eq_refl).
Qed.

Lemma filter_all_storable (cs : list scribe_change_t) :
  Forall (fun c => storable c = true) cs ->
  filter (fun c => storable c = true) cs = cs.
Proof.
  induction 1 as [|c cs Hc _ IH]; [reflexivity|].
  rewrite filter_cons_True by exact Hc. now rewrite IH.
Qed.

(** Reading back the commit just stored. *)
Lemma load_stored_commit d conn e d' now :
  handle d = Some conn -> tables_fk (current conn) ->
  scribe_db_store_commit (Some d) (Some e) = (SCRIBE_OK, Some d') ->
  exists cap,
    scribe_db_load_commit (Some d') (Some (commit_id e)) (plenty now)
    = (Some (with_changes e (filter (fun c => storable c = true) (changes e)) cap),
       plenty now).
Proof.
  intros Hh Hfk Hstore.
  apply store_commit_rows in Hstore
    as (conn0 & a_id & p_name & Hh0 & Ha & Hp & Hfree & [= ->]).
  assert (conn0 = conn) as -> by congruence.
  match goal with |- context [with_current conn ?t] => set (t2 := t) end.
  destruct (load_commit_plenty (with_handle d (with_current conn t2))
              (with_current conn t2) (commit_id e) (commit_row_of e a_id p_name) now)
    as (cap & Hload).
  { reflexivity. }
  { cbn. apply lookup_insert_eq. }
  exists cap.
  rewrite Hload. f_equal. f_equal.
  cbn [commit_row_of col_parent_hash col_tree_hash col_author_id col_author_role
       col_author_email col_process_name col_process_version col_process_params
       col_process_source col_message col_timestamp].
  rewrite hash_from_hex_or_null.
  unfold hash_from_column. rewrite from_hex_to_hex. cbn [snd].
  unfold changes_of_commit. cbn [current with_current t2 changes_table].
  rewrite filter_app.
  rewrite (filter_rows_other _ (changes_table (current conn))).
  2:{ intros row Hin Heq. destruct (Hfk row Hin) as [x Hx]. congruence. }
  rewrite filter_rows_same by (intros row; apply change_row_of_commit).
  cbn [app]. rewrite change_of_row_of.
  destruct e as [cid pid th [a_i a_r a_e] [p_n p_v p_p p_s] ts msg cs cap0].
  cbn in Ha, Hp. subst. reflexivity.
Qed.

(** X13: a commit that [scribe_db_store_commit] stored is read back by
    [scribe_db_load_commit] (no allocation failing) as the envelope that was
    stored, with its digests, author, process, timestamp and message, and
    with its storable changes in order; when every change is storable the
    envelope read back serializes to the same text as the one stored. *)
Theorem store_then_load d conn e d' now :
  handle d = Some conn -> tables_fk (current conn) ->
  scribe_db_store_commit (Some d) (Some e) = (SCRIBE_OK, Some d') ->
  exists cap,
    scribe_db_load_commit (Some d') (Some (commit_id e)) (plenty now)
    = (Some (with_changes e (filter (fun c => storable c = true) (changes e)) cap),
       plenty now)
    /\ (Forall (fun c => storable c = true) (changes e) ->
        scribe_envelope_to_json
          (Some (with_changes e (filter (fun c => storable c = true) (changes e)) cap))
        = scribe_envelope_to_json (Some e)).
Proof.
  intros Hh Hfk Hstore.
  destruct (load_stored_commit d conn e d' now Hh Hfk Hstore) as (cap & Hload).
  exists cap. split; [exact Hload|].
  intros Hall. rewrite (filter_all_storable _ Hall). reflexivity.
Qed.

Lemma load_changes_inv rows : forall e0 w e w',
  load_changes rows (Some e0) w = (e, w') ->
  exists e1, e = Some e1
    /\ commit_id e1 = commit_id e0 /\ parent_id e1 = parent_id e0
    /\ tree_hash e1 = tree_hash e0 /\ timestamp e1 = timestamp e0
    /\ (changes_fit e0 -> changes_fit e1)
    /\ length (changes e1) <= length (changes e0) + length rows.
Proof.
  induction rows as [|row rows IH]; intros e0 w e w' Hrun.
  - injection Hrun as <- _. exists e0.
    repeat (split; [reflexivity|]). split; [auto|cbn [length]; lia].
  - cbn [load_changes] in Hrun. unfold bind in Hrun.
    match type of Hrun with context [scribe_envelope_add_change ?a ?b ?c ?d ?x ?y w] =>
      destruct (scribe_envelope_add_change a b c d x y w) as [[err r] w1] eqn:Hadd end.
    pose proof Hadd as Hres.
    apply add_change_result in Hres
      as (e1 & -> & Hc & Hp & Ht & Hts & _ & _ & _ & Hcase).
    cbn [snd] in Hrun. apply IH in Hrun
      as (e2 & -> & Hc2 & Hp2 & Ht2 & Hts2 & Hfit2 & Hlen2).
    exists e2. split; [reflexivity|].
    repeat (split; [congruence|]). split.
    + intros Hfit. apply Hfit2. eapply add_change_fit; eauto.
    + cbn [length].
      destruct Hcase as [(_ & (ch & Hch & _) & _)|(_ & ->)]; [|lia].
      rewrite Hch, length_app in Hlen2. cbn [length] in Hlen2. lia.
Qed.

Lemma load_commit_inv d h w e w' :
  scribe_db_load_commit (Some d) (Some h) w = (Some e, w') ->
  exists conn row,
    handle d = Some conn
    /\ commits_table (current conn) !! scribe_hash_to_hex h = Some row
    /\ commit_id e = h
    /\ parent_id e = hash_from_column (col_parent_hash row) SCRIBE_ZERO_HASH
    /\ timestamp e = col_timestamp row
    /\ length (changes e)
       <= length (changes_of_commit (current conn) (scribe_hash_to_hex h))
    /\ changes_fit e.
Proof.
  unfold scribe_db_load_commit.
  destruct (handle d) as [conn|]; [|discriminate].
  destruct (commits_table (current conn) !! scribe_hash_to_hex h) as [row|] eqn:Hrow;
    [|discriminate].
  unfold bind.
  destruct (scribe_envelope_new w) as [[c0|] w0] eqn:Hnew; [|discriminate].
  apply envelope_new_inv in Hnew. subst c0.
  cbn [with_commit_id with_parent_id with_tree_hash commit_id parent_id tree_hash
       author process timestamp message changes change_capacity].
  unfold hash_from_column at 1. rewrite from_hex_to_hex. cbn [snd].
  match goal with |- context [scribe_envelope_set_author (Some ?x) _ _ w0] =>
    set (c1 := x) end.
  destruct (scribe_envelope_set_author (Some c1) (Some (col_author_id row))
              (col_author_role row) w0) as [r1 w1] eqn:H1.
  apply set_author_payload in H1 as (e1 & -> & P1 & _). cbn [snd].
  assert (exists e2 w2, (match col_author_email row with
                         | Some _ => scribe_envelope_set_author_email (Some e1)
                                       (col_author_email row)
                         | None => ret (SCRIBE_OK, Some e1)
                         end) w1 = ((SCRIBE_OK, Some e2), w2) /\ same_payload e1 e2)
    as (e2 & w2 & -> & P2).
  { destruct (col_author_email row).
    - destruct (scribe_envelope_set_author_email _ _ w1) as [r w2] eqn:H.
      apply set_author_email_payload in H as (e2 & -> & P & _). eauto.
    - eexists _, _. split; [reflexivity|apply same_payload_refl]. }
  cbn [snd].
  destruct (scribe_envelope_set_process (Some e2) (Some (col_process_name row))
              (col_process_version row) (col_process_params row) w2)
    as [r3 w3] eqn:H3.
  apply set_process_payload in H3 as (e3 & -> & P3 & _). cbn [snd].
  assert (exists e4 w4, (match col_process_source row with
                         | Some _ => scribe_envelope_set_process_source (Some e3)
                                       (col_process_source row)
                         | None => ret (SCRIBE_OK, Some e3)
                         end) w3 = ((SCRIBE_OK, Some e4), w4) /\ same_payload e3 e4)
    as (e4 & w4 & -> & P4).
  { destruct (col_process_source row).
    - destruct (scribe_envelope_set_process_source _ _ w3) as [r w4] eqn:H.
      apply set_process_source_payload in H as (e4 & -> & P & _). eauto.
    - eexists _, _. split; [reflexivity|apply same_payload_refl]. }
  cbn [snd].
  assert (exists e5 w5, (match col_message row with
                         | Some _ => scribe_envelope_set_message (Some e4) (col_message row)
                         | None => ret (SCRIBE_OK, Some e4)
                         end) w4 = ((SCRIBE_OK, Some e5), w5) /\ same_payload e4 e5)
    as (e5 & w5 & -> & P5).
  { destruct (col_message row).
    - destruct (scribe_envelope_set_message _ _ w4) as [r w5] eqn:H.
      apply set_message_payload in H as (e5 & -> & P & _). eauto.
    - eexists _, _. split; [reflexivity|apply same_payload_refl]. }
  cbn [snd option_map]. intros Hrun.
  apply load_changes_inv in Hrun
    as (c2 & [= <-] & Hc & Hp & Ht & Hts & Hfit & Hlen).
  pose proof (same_payload_trans _ _ _
                (same_payload_trans _ _ _
                   (same_payload_trans _ _ _
                      (same_payload_trans _ _ _ P1 P2) P3) P4) P5)
    as (Q1 & Q2 & Q3 & _ & Q5 & Q6).
  subst c1.
  cbn [with_timestamp with_tree_hash with_parent_id with_commit_id commit_id
       parent_id tree_hash timestamp changes change_capacity length] in *.
  rewrite Q5 in Hlen. cbn [length] in Hlen.
  exists conn, row. split; [reflexivity|]. split; [exact Hrow|].
  split; [congruence|]. split; [congruence|]. split; [congruence|].
  split; [lia|].
  apply Hfit. unfold changes_fit, change_count.
  cbn [with_timestamp changes change_capacity]. rewrite Q5, Q6. cbn [length].
  split; [lia|]. exists 0. reflexivity.
Qed.

Lemma load_commit_tables d d' conn conn' h w :
  handle d = Some conn -> handle d' = Some conn' ->
  commits_table (current conn') = commits_table (current conn) ->
  changes_table (current conn') = changes_table (current conn) ->
  scribe_db_load_commit (Some d') (Some h) w = scribe_db_load_commit (Some d) (Some h) w.
Proof.
  intros Hh Hh' Hc Hch. unfold scribe_db_load_commit, changes_of_commit.
  now rewrite Hh, Hh', Hc, Hch.
Qed.

(** Storing a commit does not change what is read for another one. *)
Lemma load_other_commit d e d' h w :
  scribe_db_store_commit (Some d) (Some e) = (SCRIBE_OK, Some d') ->
  h <> commit_id e ->
  scribe_db_load_commit (Some d') (Some h) w
  = scribe_db_load_commit (Some d) (Some h) w.
Proof.
  intros Hstore Hne.
  apply store_commit_rows in Hstore
    as (conn & a_id & p_name & Hh & _ & _ & _ & [= ->]).
  unfold scribe_db_load_commit. rewrite Hh.
  cbn [handle with_handle current with_current commits_table].
  rewrite lookup_insert_ne by (intros Heq; apply to_hex_inj in Heq; congruence).
  destruct (commits_table (current conn) !! scribe_hash_to_hex h); [|reflexivity].
  unfold changes_of_commit. cbn [changes_table].
  rewrite filter_app, (filter_rows_other _ (omap _ _)), app_nil_r; [reflexivity|].
  intros row Hin Heq. apply change_row_of_commit in Hin.
  rewrite Hin in Heq. apply to_hex_inj in Heq. congruence.
Qed.

(** Setting a reference does not change what is read for a commit. *)
Lemma load_commit_after_set_ref d name x err d' h w :
  scribe_db_set_ref (Some d) name x = (err, Some d') ->
  scribe_db_load_commit (Some d') (Some h) w
  = scribe_db_load_commit (Some d) (Some h) w.
Proof.
  intros Hset.
  unfold scribe_db_set_ref in Hset.
  destruct name as [n|], x as [v|]; try (injection Hset as _ <-; reflexivity).
  destruct (handle d) as [conn|] eqn:Hh; [|now injection Hset as _ <-].
  injection Hset as _ <-.
  eapply (load_commit_tables d _ conn); [exact Hh|reflexivity..].
Qed.

(** X14: [scribe_db_load_commit] returns NULL, asking for no memory, for a
    null store, a null digest and a digest that is no key of [commits];
    whatever the allocator does, an envelope it returns has the digest asked
    for as its [commit_id], the parent and the timestamp of the row, no more
    changes than the commit has rows, and changes that fit the allocated
    array; what it returns for a commit is not changed by storing another
    commit or by setting a reference. *)
Theorem load_commit_outcome :
  (forall hash w, scribe_db_load_commit None hash w = (None, w))
  /\ (forall db w, scribe_db_load_commit db None w = (None, w))
  /\ (forall d conn h w,
        handle d = Some conn ->
        commits_table (current conn) !! scribe_hash_to_hex h = None ->
        scribe_db_load_commit (Some d) (Some h) w = (None, w))
  /\ (forall d h w e w',
        scribe_db_load_commit (Some d) (Some h) w = (Some e, w') ->
        exists conn row,
          handle d = Some conn
          /\ commits_table (current conn) !! scribe_hash_to_hex h = Some row
          /\ commit_id e = h
          /\ parent_id e = hash_from_column (col_parent_hash row) SCRIBE_ZERO_HASH
          /\ timestamp e = col_timestamp row
          /\ length (changes e)
             <= length (changes_of_commit (current conn) (scribe_hash_to_hex h))
          /\ changes_fit e)
  /\ (forall d e d' h w,
        scribe_db_store_commit (Some d) (Some e) = (SCRIBE_OK, Some d') ->
        h <> commit_id e ->
        scribe_db_load_commit (Some d') (Some h) w
        = scribe_db_load_commit (Some d) (Some h) w)
  /\ (forall d name x err d' h w,
        scribe_db_set_ref (Some d) name x = (err, Some d') ->
        scribe_db_load_commit (Some d') (Some h) w
        = scribe_db_load_commit (Some d) (Some h) w).
Proof.
  repeat apply conj.
  - reflexivity.
  - intros [d|] w; reflexivity.
  - intros d conn h w Hh Hrow. unfold scribe_db_load_commit. now rewrite Hh, Hrow.
  - exact load_commit_inv.
  - exact load_other_commit.
  - exact load_commit_after_set_ref.
Qed.

(** ** References *)

(** X15: on an open store [scribe_db_set_ref] returns OK, after which
    [scribe_db_get_ref] gives the digest back for that name, whatever the
    output held, and answers as before for every other name; the commits,
    the changes and the transaction state are untouched.  [scribe_db_get_ref]
    returns NOT_FOUND, leaving the output as it was, for a name that is not
    stored, and OK with the zero digest for a stored text that has not 64
    characters (the empty text of a new HEAD).  The same holds through
    [scribe_repo_set_head] and [scribe_repo_get_head]. *)
Theorem ref_set_get :
  (forall d conn name h,
      handle d = Some conn ->
      exists conn',
        scribe_db_set_ref (Some d) (Some name) (Some h)
        = (SCRIBE_OK, Some (with_handle d conn'))
        /\ (forall out,
              scribe_db_get_ref (Some (with_handle d conn')) (Some name) out
              = (SCRIBE_OK, h))
        /\ (forall other out,
              other <> name ->
              scribe_db_get_ref (Some (with_handle d conn')) (Some other) out
              = scribe_db_get_ref (Some d) (Some other) out)
        /\ commits_table (current conn') = commits_table (current conn)
        /\ changes_table (current conn') = changes_table (current conn)
        /\ snapshot conn' = snapshot conn)
  /\ (forall d conn name out,
        handle d = Some conn ->
        refs_table (current conn) !! name = None ->
        scribe_db_get_ref (Some d) (Some name) out = (SCRIBE_ERR_NOT_FOUND, out))
  /\ (forall d conn name text out,
        handle d = Some conn ->
        refs_table (current conn) !! name = Some text ->
        String.length text <> 64 ->
        scribe_db_get_ref (Some d) (Some name) out = (SCRIBE_OK, SCRIBE_ZERO_HASH))
  /\ (forall db name out,
        db = None \/ name = None ->
        scribe_db_get_ref db name out = (SCRIBE_ERR_INVALID_ARG, out))
  /\ (forall db name h,
        db = None \/ name = None \/ h = None ->
        scribe_db_set_ref db name h = (SCRIBE_ERR_INVALID_ARG, db))
  /\ (forall r d conn h,
        repo_db r = Some d -> handle d = Some conn ->
        exists r',
          scribe_repo_set_head (Some r) (Some h) = (SCRIBE_OK, Some r')
          /\ forall out, scribe_repo_get_head (Some r') out = (SCRIBE_OK, h)).
Proof.
  repeat apply conj.
  - intros d conn name h Hh. unfold scribe_db_set_ref. rewrite Hh.
    eexists. split; [reflexivity|].
    repeat apply conj; try reflexivity.
    + intros out. eapply get_ref_of_hex; [reflexivity|].
      cbn. apply lookup_insert_eq.
    + intros other out Hne. unfold scribe_db_get_ref. rewrite Hh.
      cbn [handle with_handle current with_current refs_table].
      now rewrite lookup_insert_ne by congruence.
  - intros d conn name out Hh Hnone. unfold scribe_db_get_ref. now rewrite Hh, Hnone.
  - intros d conn name text out Hh Htext Hlen. unfold scribe_db_get_ref.
    rewrite Hh, Htext.
    replace (String.length text =? SCRIBE_HASH_HEX_SIZE - 1) with false
      by (symmetry; apply Nat.eqb_neq; exact Hlen).
    reflexivity.
  - intros db name out [-> | ->]; [reflexivity|]. now destruct db.
  - intros db name h [-> | [-> | ->]]; [reflexivity| |].
    + now destruct db.
    + now destruct db, name.
  - intros r d conn h Hdb Hh.
    unfold scribe_repo_set_head, scribe_repo_get_head, scribe_db_set_ref.
    rewrite Hdb, Hh. cbn [fst snd]. eexists. split; [reflexivity|].
    intros out. cbn [repo_db].
    eapply get_ref_of_hex; [reflexivity|].
    cbn. apply lookup_insert_eq.
Qed.

(** X16: on an open store [scribe_db_init_schema] returns OK and leaves the
    commits, the changes and every reference that exists as they were: it
    only adds a HEAD with an empty text when there is none, so that
    [scribe_db_get_ref] then answers for HEAD as before or, for a new HEAD,
    with the zero digest; running it again changes nothing; on a null or
    closed store it returns INVALID_ARG. *)
Theorem init_schema_keeps_data :
  (forall d conn,
      handle d = Some conn ->
      exists conn',
        scribe_db_init_schema (Some d) = (SCRIBE_OK, Some (with_handle d conn'))
        /\ commits_table (current conn') = commits_table (current conn)
        /\ changes_table (current conn') = changes_table (current conn)
        /\ snapshot conn' = snapshot conn
        /\ (forall name text,
              refs_table (current conn) !! name = Some text ->
              refs_table (current conn') !! name = Some text)
        /\ (forall name,
              name <> "HEAD"%string ->
              refs_table (current conn') !! name = refs_table (current conn) !! name)
        /\ (refs_table (current conn) !! "HEAD"%string = None ->
            forall out,
              scribe_db_get_ref (Some (with_handle d conn')) (Some "HEAD"%string) out
              = (SCRIBE_OK, SCRIBE_ZERO_HASH))
        /\ scribe_db_init_schema (Some (with_handle d conn'))
           = (SCRIBE_OK, Some (with_handle d conn')))
  /\ scribe_db_init_schema None = (SCRIBE_ERR_INVALID_ARG, None)
  /\ (forall d, handle d = None ->
        scribe_db_init_schema (Some d) = (SCRIBE_ERR_INVALID_ARG, Some d)).
Proof.
  repeat apply conj.
  - intros d conn Hh. unfold scribe_db_init_schema. rewrite Hh.
    eexists. split; [reflexivity|].
    cbn [handle with_handle current with_current commits_table changes_table
         refs_table snapshot].
    repeat apply conj; try reflexivity.
    + intros name text Href.
      destruct (refs_table (current conn) !! "HEAD"%string) eqn:Hhead; [exact Href|].
      rewrite lookup_insert_ne by congruence. exact Href.
    + intros name Hne.
      destruct (refs_table (current conn) !! "HEAD"%string); [reflexivity|].
      now rewrite lookup_insert_ne by congruence.
    + intros Hnone out. rewrite Hnone. unfold scribe_db_get_ref.
      cbn [handle with_handle current with_current refs_table].
      now rewrite lookup_insert_eq.
    + destruct (refs_table (current conn) !! "HEAD"%string) eqn:Hhead.
      * rewrite Hhead. destruct d, conn as [[] ?]; reflexivity.
      * rewrite lookup_insert_eq. reflexivity.
  - reflexivity.
  - intros d Hh. unfold scribe_db_init_schema. now rewrite Hh.
Qed.

(** X17: [scribe_db_begin] returns the DB error inside a transaction, and
    [scribe_db_commit] and [scribe_db_rollback] outside one, the store being
    left as it was; after [scribe_db_begin], a [scribe_db_rollback] brings
    the tables back to what they were whatever [scribe_db_store_commit] and
    [scribe_db_set_ref] did in between, and a [scribe_db_commit] keeps what
    they did. *)
Theorem transaction_outcome :
  (forall d conn,
      handle d = Some conn -> snapshot conn <> None ->
      scribe_db_begin (Some d) = (SCRIBE_ERR_DB, Some d))
  /\ (forall d conn,
        handle d = Some conn -> snapshot conn = None ->
        scribe_db_commit (Some d) = (SCRIBE_ERR_DB, Some d)
        /\ scribe_db_rollback (Some d) = (SCRIBE_ERR_DB, Some d)
        /\ exists d1,
            scribe_db_begin (Some d) = (SCRIBE_OK, Some d1)
            /\ db_tables (Some d1) = db_tables (Some d)
            /\ forall e name h,
                let stored := (scribe_db_store_commit (Some d1) (Some e)).2 in
                let moved := (scribe_db_set_ref stored name h).2 in
                (exists d2, scribe_db_rollback moved = (SCRIBE_OK, Some d2)
                            /\ db_tables (Some d2) = db_tables (Some d)
                            /\ db_snapshot (Some d2) = None)
                /\ (exists d3, scribe_db_commit moved = (SCRIBE_OK, Some d3)
                               /\ db_tables (Some d3) = db_tables moved
                               /\ db_snapshot (Some d3) = None)).
Proof.
  split.
  - intros d conn Hh Hs. unfold scribe_db_begin. rewrite Hh.
    destruct (snapshot conn); [reflexivity|congruence].
  - intros d conn Hh Hs.
    unfold scribe_db_commit, scribe_db_rollback, scribe_db_begin. rewrite Hh, Hs.
    split; [reflexivity|]. split; [reflexivity|].
    eexists. split; [reflexivity|]. split; [cbn; now rewrite Hh|].
    intros e name h.
    unfold scribe_db_store_commit. cbn [handle with_handle current].
    destruct (insert_commit (current conn) e); cbn [snd];
      unfold scribe_db_set_ref; destruct name, h;
        cbn [handle with_handle current with_current snapshot snd];
        (split; eexists; (split; [reflexivity|]); cbn; rewrite ?Hh; auto).
Qed.

(* ===================================================================== *)
(** * The commit and verify commands *)
(* ===================================================================== *)

(** ** The commit command: what it records *)

Lemma add_change_plenty_opt e table op pk before after now :
  scribe_envelope_add_change (Some e) table op pk before after (plenty now)
  = ((SCRIBE_OK,
      Some (with_changes e
              (changes e ++ [mk_change table op pk (default SCRIBE_ZERO_HASH before)
                               (default SCRIBE_ZERO_HASH after)])
              (if change_capacity e <=? change_count e
               then change_capacity e * 2 else change_capacity e))),
     plenty now).
Proof.
  unfold scribe_envelope_add_change, bind.
  destruct (change_capacity e <=? change_count e);
    cbn [request plenty allocs ret]; rewrite !safe_strdup_plenty;
    destruct before, after; reflexivity.
Qed.

Lemma head_or_zero_cases repo :
  let head := scribe_repo_get_head repo SCRIBE_ZERO_HASH in
  (if bool_decide (head.1 = SCRIBE_OK) && negb (scribe_hash_is_zero (Some head.2))
   then head.2 else SCRIBE_ZERO_HASH) = head_or_zero repo.
Proof. reflexivity. Qed.

(** [cmd_commit] when no allocation fails. *)
Lemma cmd_commit_plenty args config r now :
  cmd_commit args config (Some r) (plenty now)
  = (let fin := (scribe_envelope_finalize
                   (Some (commit_envelope args config (head_or_zero (Some r)) now))
                   (plenty now)).1 in
     if negb (bool_decide (fin.1 = SCRIBE_OK)) then (1%Z, Some r) else
     let stored := scribe_repo_store_commit (Some r) fin.2 in
     if negb (bool_decide (stored.1 = SCRIBE_OK)) then (1%Z, stored.2) else
     let moved := scribe_repo_set_head stored.2 (option_map commit_id fin.2) in
     if negb (bool_decide (moved.1 = SCRIBE_OK)) then (1%Z, moved.2) else
     (0%Z, moved.2), plenty now).
Proof.
  unfold cmd_commit.
  rewrite (bind_run _ _ _ _ _ (envelope_new_plenty now)). cbv beta iota zeta.
  rewrite (bind_run _ _ _ _ _ (set_author_plenty _ _ _ now)). cbn [snd].
  rewrite (bind_run _ _ _ _ _ (set_process_plenty _ _ _ _ now)). cbn [snd].
  match goal with |- (let* r0 := ?m in _) _ = _ =>
    assert (Hm : exists e1, m (plenty now) = ((SCRIBE_OK, Some e1), plenty now)
                   /\ e1 = with_changes
                             (commit_envelope args config SCRIBE_ZERO_HASH now) []
                             INITIAL_CHANGE_CAPACITY)
  end.
  { destruct (arg_message args) as [msg|] eqn:Hmsg.
    - rewrite set_message_plenty. eexists; split; [reflexivity|].
      unfold commit_envelope. rewrite Hmsg. reflexivity.
    - eexists; split; [reflexivity|].
      unfold commit_envelope. rewrite Hmsg. reflexivity. }
  destruct Hm as (e1 & Hm & He1).
  rewrite (bind_run _ _ _ _ _ Hm). cbn [snd].
  match goal with |- (let* env2 := add_requested_change args ?env1 in _) _ = _ =>
    assert (Henv : env1 = Some (with_changes
                                  (commit_envelope args config (head_or_zero (Some r)) now)
                                  [] INITIAL_CHANGE_CAPACITY))
  end.
  { unfold head_or_zero. destruct (_ && _); subst e1; reflexivity. }
  rewrite Henv. clear Henv Hm He1 e1.
  assert (Hadd : add_requested_change args
                   (Some (with_changes
                            (commit_envelope args config (head_or_zero (Some r)) now)
                            [] INITIAL_CHANGE_CAPACITY)) (plenty now)
                 = (Some (commit_envelope args config (head_or_zero (Some r)) now),
                    plenty now)).
  { unfold add_requested_change, commit_envelope, requested_changes.
    destruct (arg_table args) as [tbl|], (arg_operation args) as [op|];
      try reflexivity.
    rewrite (bind_run _ _ _ _ _ (add_change_plenty_opt _ _ _ _ _ _ now)).
    reflexivity. }
  rewrite (bind_run _ _ _ _ _ Hadd).
  unfold bind.
  destruct (scribe_envelope_finalize _ (plenty now)) as [fin w] eqn:Hfin.
  assert (w = plenty now) as ->.
  { rewrite finalize_plenty in Hfin. now injection Hfin. }
  cbn [fst snd]. cbv zeta.
  repeat (destruct (negb _); [reflexivity|]). reflexivity.
Qed.

(** A successful run of [cmd_commit], no allocation failing: the envelope
    finalized, the store written and HEAD moved. *)
Lemma cmd_commit_plenty_ok args config r now r' :
  (cmd_commit args config (Some r) (plenty now)).1 = (0%Z, Some r') ->
  exists e' d conn t2,
    scribe_envelope_finalize
      (Some (commit_envelope args config (head_or_zero (Some r)) now)) (plenty now)
    = ((SCRIBE_OK, Some e'), plenty now)
    /\ repo_db r = Some d /\ handle d = Some conn
    /\ scribe_db_store_commit (Some d) (Some e')
       = (SCRIBE_OK, Some (with_handle d (with_current conn t2)))
    /\ r' = mk_repo
              (Some (with_handle d
                       (with_current conn
                          (mk_tables (commits_table t2) (changes_table t2)
                             (<["HEAD"%string := scribe_hash_to_hex (commit_id e')]>
                                (refs_table t2)))))).
Proof.
  rewrite cmd_commit_plenty. cbn [fst]. cbv zeta.
  destruct (scribe_envelope_finalize _ (plenty now)) as [[ferr fenv] w] eqn:Hfin.
  assert (w = plenty now) as ->.
  { rewrite finalize_plenty in Hfin. now injection Hfin. }
  cbn [fst snd].
  destruct (bool_decide (ferr = SCRIBE_OK)) eqn:Hferr; cbn [negb]; [|discriminate].
  apply bool_decide_eq_true in Hferr. subst ferr.
  destruct (finalize_frame _ _ _ _ _ Hfin) as (e' & -> & _).
  destruct (scribe_repo_store_commit (Some r) (Some e')) as [serr srepo] eqn:Hstore.
  cbn [fst snd].
  destruct (bool_decide (serr = SCRIBE_OK)) eqn:Hserr; cbn [negb]; [|discriminate].
  apply bool_decide_eq_true in Hserr. subst serr.
  unfold scribe_repo_store_commit in Hstore.
  destruct (repo_db r) as [d|] eqn:Hdb; [|discriminate].
  destruct (scribe_db_store_commit (Some d) (Some e')) as [err db1] eqn:Hdbs.
  cbn [fst snd] in Hstore. injection Hstore as -> <-.
  pose proof Hdbs as Hkeep.
  apply store_commit_ok_inv in Hdbs
    as (conn & t2 & row & Hh & _ & -> & _).
  cbn [option_map]. rewrite set_head_after_store. cbn [fst snd].
  rewrite bool_decide_eq_true_2 by reflexivity. cbn [negb].
  intros [= <-].
  exists e', d, conn, t2. repeat split; assumption.
Qed.

Lemma head_or_zero_chain r ids :
  chain_state r ids ->
  head_or_zero (Some r) = match ids with
                          | [] => SCRIBE_ZERO_HASH
                          | p :: _ => p
                          end.
Proof.
  intros Hchain. pose proof (head_or_zero_of_chain r ids Hchain) as Hhex.
  unfold hex_or_null in Hhex.
  destruct (scribe_hash_is_zero (Some (head_or_zero (Some r)))) eqn:Hz.
  - destruct ids; [|discriminate]. now apply is_zero_true.
  - destruct ids as [|p older]; [discriminate|].
    injection Hhex as Hhex. now apply to_hex_inj.
Qed.

Lemma load_known_commit d conn h row now :
  handle d = Some conn ->
  commits_table (current conn) !! scribe_hash_to_hex h = Some row ->
  exists e, scribe_db_load_commit (Some d) (Some h) (plenty now) = (Some e, plenty now).
Proof.
  intros Hh Hrow.
  destruct (load_commit_plenty d conn h row now Hh Hrow) as (cap & Hload). eauto.
Qed.


(** ** Verifying what the commit command wrote *)

Lemma clean_committed r ids : clean_history r ids -> committed r ids.
Proof.
  induction 1 as [|r ids args config now r' c _ IH _ Hrun Hhead Hnz];
    [constructor|].
  exact (committed_next r ids args config _ r' _ c IH Hrun Hhead Hnz).
Qed.

(** A commit that verified still verifies after another one is stored. *)
Lemma verify_commit_frame r d e' d1 r' c w w' :
  repo_db r = Some d ->
  scribe_db_store_commit (Some d) (Some e') = (SCRIBE_OK, Some d1) ->
  (forall h w0, scribe_repo_load_commit (Some r') (Some h) w0
                = scribe_db_load_commit (Some d1) (Some h) w0) ->
  verify_commit (Some r) c w = (1%Z, w') ->
  verify_commit (Some r') c w = (1%Z, w').
Proof.
  intros Hdb Hstore Hr' Hver.
  assert (Hold : forall h w0 e w1,
             scribe_db_load_commit (Some d) (Some h) w0 = (Some e, w1) ->
             scribe_repo_load_commit (Some r') (Some h) w0 = (Some e, w1)).
  { intros h w0 e w1 Hl. rewrite Hr', (load_other_commit d e' d1 h); [exact Hl|exact Hstore|].
    intros ->. apply load_commit_inv in Hl as (conn & row & Hh & Hrow & _).
    apply store_commit_ok_inv in Hstore as (conn0 & t2 & row0 & Hh0 & Hfree & _).
    congruence. }
  unfold verify_commit in *. unfold scribe_repo_load_commit in Hver.
  rewrite Hdb in Hver. unfold bind in *.
  destruct (scribe_db_load_commit (Some d) (Some c) w) as [[e|] w1] eqn:Hl;
    [|discriminate].
  rewrite (Hold _ _ _ _ Hl).
  destruct (scribe_envelope_verify (Some e) w1) as [err w2].
  destruct (negb (bool_decide (err = SCRIBE_OK))); [exact Hver|].
  destruct (negb (scribe_hash_is_zero (Some (parent_id e)))); [|exact Hver].
  destruct (scribe_db_load_commit (Some d) (Some (parent_id e)) w2) as [[p|] w3] eqn:Hp;
    [|discriminate].
  now rewrite (Hold _ _ _ _ Hp).
Qed.

(** On a repository built by clean runs the foreign key holds and every
    commit of the history passes [verify_commit]. *)
Lemma clean_verified r ids :
  clean_history r ids ->
  (exists d conn, repo_db r = Some d /\ handle d = Some conn /\ tables_fk (current conn))
  /\ Forall (fun c => forall now,
                 verify_commit (Some r) c (plenty now) = (1%Z, plenty now)) ids.
Proof.
  induction 1 as [|r ids args config now r' c Hclean IH Hstorable Hrun Hhead Hnz].
  - split; [|constructor].
    eexists _, _. split; [reflexivity|]. split; [reflexivity|].
    intros row Hin. cbn in Hin. now apply not_elem_of_nil in Hin.
  - pose proof (committed_chain_state r ids (clean_committed r ids Hclean)) as Hchain.
    pose proof (head_or_zero_chain r ids Hchain) as Hparent.
    destruct IH as ((d & conn & Hdb & Hh & Hfk) & Hall).
    assert (Hrun1 : (cmd_commit args config (Some r) (plenty now)).1 = (0%Z, Some r'))
      by now rewrite Hrun.
    apply cmd_commit_plenty_ok in Hrun1
      as (e' & d0 & conn0 & t2 & Hfin & Hdb0 & Hh0 & Hstore & ->).
    assert (d0 = d) as -> by congruence. assert (conn0 = conn) as -> by congruence.
    assert (Hc' : c = commit_id e').
    { unfold scribe_repo_get_head in Hhead. cbn [repo_db] in Hhead.
      erewrite get_ref_of_hex in Hhead; [| reflexivity | cbn; apply lookup_insert_eq].
      congruence. }
    subst c.
    match goal with |- context [mk_repo (Some ?db)] => set (d2 := db) end.
    assert (Hr' : forall h w0,
               scribe_repo_load_commit (Some (mk_repo (Some d2))) (Some h) w0
               = scribe_db_load_commit
                   (Some (with_handle d (with_current conn t2))) (Some h) w0).
    { intros h w0. unfold scribe_repo_load_commit. cbn [repo_db].
      eapply load_commit_tables; reflexivity. }
    split.
    + eexists _, _. split; [reflexivity|]. split; [reflexivity|].
      exact (store_commit_fk d conn e' _ (with_current conn t2) Hh Hfk Hstore eq_refl).
    + constructor.
      * intros now'.
        destruct (finalize_frame _ _ _ _ _ Hfin)
          as (e1 & [= <-] & Hp & _ & _ & _ & _ & Hcs & _).
        cbn [commit_envelope parent_id changes] in Hp, Hcs.
        unfold verify_commit.
        destruct (load_stored_commit d conn e' _ now' Hh Hfk Hstore) as (cap & Hload).
        rewrite Hcs, (filter_all_storable _ Hstorable), <- Hcs in Hload.
        rewrite <- Hr' in Hload. rewrite (bind_run _ _ _ _ _ Hload).
        apply finalize_ok_inv in Hfin as (e1 & json & _ & Hjson & He').
        assert (Hverify : scribe_envelope_verify
                            (Some (with_changes e' (changes e') cap)) (plenty now')
                          = (SCRIBE_OK, plenty now')).
        { apply (verify_plenty _ json); [|now rewrite He'].
          rewrite <- Hjson, He'. reflexivity. }
        rewrite (bind_run _ _ _ _ _ Hverify).
        rewrite bool_decide_eq_true_2 by reflexivity. cbn [negb].
        cbn [with_changes parent_id]. rewrite Hp, Hparent.
        destruct ids as [|p older]; [reflexivity|].
        destruct Hchain as (d1 & conn1 & Hdb1 & Hh1 & _ & (Hpnz & (row & Hrow & _) & _) & _).
        assert (d1 = d) as -> by congruence. assert (conn1 = conn) as -> by congruence.
        rewrite (proj2 (is_zero_false p) Hpnz). cbn [negb].
        destruct (load_known_commit d conn p row now' Hh Hrow) as (ep & Hep).
        rewrite <- (load_other_commit d e' _ p _ Hstore), <- Hr' in Hep.
        -- now rewrite (bind_run _ _ _ _ _ Hep).
        -- intros ->.
           apply store_commit_ok_inv in Hstore as (conn0 & t3 & row0 & Hh0' & Hfree & _).
           congruence.
      * eapply Forall_impl; [exact Hall|].
        intros c Hc now'. cbn beta in Hc.
        exact (verify_commit_frame r d e' _ _ c _ _ Hdb Hstore Hr' (Hc now')).
Qed.

(** ** The verify command *)

Lemma verify_plenty_world env now :
  (scribe_envelope_verify env (plenty now)).2 = plenty now.
Proof.
  destruct env as [e|]; [|reflexivity].
  unfold scribe_envelope_verify.
  destruct (clone_plenty e now) as (cap & Hclone).
  rewrite (bind_run _ _ _ _ _ Hclone).
  destruct (scribe_envelope_to_json _); [|reflexivity].
  destruct (negb _); reflexivity.
Qed.

Lemma load_commit_plenty_world db hash now :
  (scribe_db_load_commit db hash (plenty now)).2 = plenty now.
Proof.
  destruct db as [d|], hash as [h|]; try reflexivity.
  destruct (handle d) as [conn|] eqn:Hh;
    [|unfold scribe_db_load_commit; now rewrite Hh].
  destruct (commits_table (current conn) !! scribe_hash_to_hex h) as [row|] eqn:Hrow.
  - destruct (load_commit_plenty d conn h row now Hh Hrow) as (cap & ->). reflexivity.
  - unfold scribe_db_load_commit. now rewrite Hh, Hrow.
Qed.

Lemma repo_load_commit_plenty_world repo hash now :
  (scribe_repo_load_commit repo hash (plenty now)).2 = plenty now.
Proof.
  destruct repo as [r|], hash as [h|]; try reflexivity.
  unfold scribe_repo_load_commit. destruct (repo_db r); [|reflexivity].
  apply load_commit_plenty_world.
Qed.

Lemma run_plenty {A} (c : World A) now :
  (c (plenty now)).2 = plenty now -> c (plenty now) = ((c (plenty now)).1, plenty now).
Proof. destruct (c (plenty now)) as [x w]. cbn. now intros ->. Qed.

Lemma verify_commit_plenty_world repo c now :
  (verify_commit repo c (plenty now)).2 = plenty now.
Proof.
  unfold verify_commit.
  rewrite (bind_run _ _ _ _ _ (run_plenty _ now (repo_load_commit_plenty_world repo _ now))).
  destruct (scribe_repo_load_commit repo (Some c) (plenty now)).1 as [e|]; [|reflexivity].
  rewrite (bind_run _ _ _ _ _ (run_plenty _ now (verify_plenty_world _ now))).
  destruct (negb (bool_decide _)); [reflexivity|].
  destruct (negb (scribe_hash_is_zero _)); [|reflexivity].
  rewrite (bind_run _ _ _ _ _ (run_plenty _ now (repo_load_commit_plenty_world repo _ now))).
  destruct (scribe_repo_load_commit repo _ (plenty now)).1; reflexivity.
Qed.

Lemma verify_all_plenty repo now : forall hashes verified failed,
  verify_all repo hashes verified failed (plenty now)
  = ((verified + Z.of_nat (length (filter (fun c => passes repo now c = true) hashes)),
      failed + Z.of_nat (length (filter (fun c => passes repo now c = false) hashes)))%Z,
     plenty now).
Proof.
  induction hashes as [|h rest IH]; intros verified failed.
  - cbn. now rewrite !Z.add_0_r.
  - cbn [verify_all].
    rewrite (bind_run _ _ _ _ _ (run_plenty _ now (verify_commit_plenty_world repo h now))).
    fold (passes repo now h).
    destruct (passes repo now h) eqn:Hp.
    + rewrite IH, filter_cons_True, filter_cons_False by (rewrite ?Hp; congruence).
      cbn [length]. f_equal. f_equal. lia.
    + rewrite IH, filter_cons_False, filter_cons_True by (rewrite ?Hp; congruence).
      cbn [length]. f_equal. f_equal. lia.
Qed.

Lemma no_failures repo now (hashes : list scribe_hash_t) :
  (Z.of_nat (length (filter (fun c => passes repo now c = false) hashes)) =? 0)%Z
  = forallb (passes repo now) hashes.
Proof.
  induction hashes as [|h rest IH]; [reflexivity|].
  cbn [forallb]. destruct (passes repo now h) eqn:Hp.
  - rewrite filter_cons_False by (rewrite Hp; congruence). exact IH.
  - rewrite filter_cons_True by exact Hp. cbn [length andb].
    apply Z.eqb_neq. lia.
Qed.

Lemma repo_get_history_plenty r d conn from limit now :
  repo_db r = Some d -> handle d = Some conn -> tables_wf (current conn) ->
  from <> SCRIBE_ZERO_HASH ->
  scribe_repo_get_history (Some r) (Some from) limit (plenty now)
  = (Some (parent_chain (current conn) (effective_limit limit) from), plenty now).
Proof.
  intros Hdb Hh Hwf Hnz. unfold scribe_repo_get_history. rewrite Hdb.
  rewrite (bind_run _ _ _ _ _ (get_history_plenty d conn (Some from) limit now Hh Hwf)).
  rewrite (proj2 (is_zero_false from) Hnz). reflexivity.
Qed.

(** [cmd_verify] from a given non-zero commit. *)
Lemma cmd_verify_from r d conn start now :
  repo_db r = Some d -> handle d = Some conn -> tables_wf (current conn) ->
  start <> SCRIBE_ZERO_HASH ->
  cmd_verify (Some (scribe_hash_to_hex start)) (Some r) (plenty now)
  = (if forallb (passes (Some r) now) (parent_chain (current conn) 1000 start)
     then 0%Z else 1%Z, plenty now).
Proof.
  intros Hdb Hh Hwf Hnz. unfold cmd_verify.
  rewrite from_hex_to_hex. cbn [fst snd].
  rewrite bool_decide_eq_true_2 by reflexivity. cbn [negb].
  rewrite (proj2 (is_zero_false start) Hnz).
  rewrite (bind_run _ _ _ _ _
             (repo_get_history_plenty r d conn start 1000 now Hdb Hh Hwf Hnz)).
  rewrite (bind_run _ _ _ _ _ (verify_all_plenty _ now _ 0%Z 0%Z)).
  cbn [snd]. rewrite Z.add_0_l, no_failures. reflexivity.
Qed.

Lemma parent_chain_sub t : forall older c n x,
  is_chain t (c :: older) -> x ∈ parent_chain t n c -> x ∈ c :: older.
Proof.
  induction older as [|p older IH]; intros c n x (Hnz & (row & Hrow & Hparent) & Hrest) Hin;
    (destruct n as [|n]; [now apply not_elem_of_nil in Hin|]);
    cbn [parent_chain] in Hin; rewrite (proj2 (is_zero_false c) Hnz) in Hin;
    unfold parent_of in Hin; rewrite Hrow, Hparent in Hin.
  - exact Hin.
  - rewrite hash_of_hex_to_hex in Hin.
    apply elem_of_cons in Hin as [->|Hin]; [left|right].
    exact (IH p n x Hrest Hin).
Qed.

Lemma is_chain_from t : forall ids c,
  is_chain t ids -> c ∈ ids ->
  exists older, is_chain t (c :: older) /\ forall x, x ∈ c :: older -> x ∈ ids.
Proof.
  induction ids as [|a ids IH]; intros c Hchain Hin;
    [now apply not_elem_of_nil in Hin|].
  apply elem_of_cons in Hin as [->|Hin].
  - exists ids. split; [exact Hchain|auto].
  - destruct Hchain as (_ & _ & Hrest).
    destruct (IH c Hrest Hin) as (older & Hc & Hsub).
    exists older. split; [exact Hc|]. intros x Hx. right. auto.
Qed.

(** X19: with no allocation failing, [cmd_verify] looks at the commits of
    the parent chain from the commit given (or from HEAD), at most 1000 of
    them, and exits with 0 exactly when each one passes [verify_commit];
    commits further down a longer history are not looked at. *)
Theorem cmd_verify_checks_chain r d conn now :
  repo_db r = Some d -> handle d = Some conn -> tables_wf (current conn) ->
  (forall start,
      start <> SCRIBE_ZERO_HASH ->
      cmd_verify (Some (scribe_hash_to_hex start)) (Some r) (plenty now)
      = (if forallb (passes (Some r) now) (parent_chain (current conn) 1000 start)
         then 0%Z else 1%Z, plenty now))
  /\ (forall start,
        (scribe_repo_get_head (Some r) SCRIBE_ZERO_HASH).2 = start ->
        start <> SCRIBE_ZERO_HASH ->
        cmd_verify None (Some r) (plenty now)
        = (if forallb (passes (Some r) now) (parent_chain (current conn) 1000 start)
           then 0%Z else 1%Z, plenty now))
  /\ (forall start n,
        length (parent_chain (current conn) n start) <= n).
Proof.
  intros Hdb Hh Hwf. split; [|split].
  - intros start Hnz. exact (cmd_verify_from r d conn start now Hdb Hh Hwf Hnz).
  - intros start Hhead Hnz.
    rewrite <- (cmd_verify_from r d conn start now Hdb Hh Hwf Hnz).
    unfold cmd_verify. now rewrite Hhead, from_hex_to_hex.
  - intros start n. apply parent_chain_length.
Qed.

(** X20: on a repository built from a fresh one by runs of [cmd_commit] in
    which no allocation failed and every requested change had one of the
    operations INSERT, UPDATE and DELETE, [cmd_verify] exits with 0 (no
    allocation failing), from HEAD and from each commit of the history. *)
Theorem cmd_verify_clean_history r ids now :
  clean_history r ids ->
  cmd_verify None (Some r) (plenty now) = (0%Z, plenty now)
  /\ forall c, c ∈ ids ->
       cmd_verify (Some (scribe_hash_to_hex c)) (Some r) (plenty now)
       = (0%Z, plenty now).
Proof.
  intros Hclean.
  destruct (clean_verified r ids Hclean) as (_ & Hall).
  pose proof (committed_chain_state r ids (clean_committed r ids Hclean))
    as (d & conn & Hdb & Hh & Hwf & Hchain & Hhead).
  assert (Hfrom : forall c, c ∈ ids ->
            cmd_verify (Some (scribe_hash_to_hex c)) (Some r) (plenty now)
            = (0%Z, plenty now)).
  { intros c Hin.
    destruct (is_chain_from _ ids c Hchain Hin) as (older & Hc & Hsub).
    rewrite (cmd_verify_from r d conn c now Hdb Hh Hwf (proj1 Hc)).
    replace (forallb _ _) with true; [reflexivity|].
    symmetry. apply forallb_forall. intros x Hx.
    apply list_elem_of_In in Hx.
    apply (parent_chain_sub _ older c 1000 x Hc), Hsub in Hx.
    rewrite Forall_forall in Hall. unfold passes. now rewrite (Hall x Hx now). }
  split; [|exact Hfrom].
  destruct ids as [|c older].
  - unfold cmd_verify, scribe_repo_get_head. rewrite Hdb.
    unfold scribe_db_get_ref. rewrite Hh, Hhead. reflexivity.
  - rewrite <- (Hfrom c) by left.
    unfold cmd_verify, scribe_repo_get_head. rewrite Hdb.
    rewrite (get_ref_of_hex d conn "HEAD" c _ Hh Hhead).
    now rewrite from_hex_to_hex.
Qed.

(** X21: [cmd_verify] exits with 1, doing nothing else, when its argument
    is not a text of 64 hexadecimal digits; with 0 when HEAD is unborn, and
    also when the argument is the text of the zero digest, whatever the
    repository holds; and with 1 when the argument names a commit that is
    not in the store (no allocation failing). *)
Theorem cmd_verify_edge_cases :
  (forall text repo w,
      ~ (String.length text = 64 /\ forallb isxdigit (list_ascii_of_string text) = true) ->
      cmd_verify (Some text) repo w = (1%Z, w))
  /\ (forall repo w,
        (scribe_repo_get_head repo SCRIBE_ZERO_HASH).2 = SCRIBE_ZERO_HASH ->
        cmd_verify None repo w = (0%Z, w))
  /\ (forall repo w,
        cmd_verify (Some (scribe_hash_to_hex SCRIBE_ZERO_HASH)) repo w = (0%Z, w))
  /\ (forall r d conn c now,
        repo_db r = Some d -> handle d = Some conn -> tables_wf (current conn) ->
        c <> SCRIBE_ZERO_HASH ->
        commits_table (current conn) !! scribe_hash_to_hex c = None ->
        cmd_verify (Some (scribe_hash_to_hex c)) (Some r) (plenty now)
        = (1%Z, plenty now)).
Proof.
  repeat apply conj.
  - intros text repo w Hbad. unfold cmd_verify.
    rewrite bool_decide_eq_false_2; [reflexivity|].
    intros Hok. apply Hbad. exact (proj1 (from_hex_ok_iff text _) Hok).
  - intros repo w Hhead. unfold cmd_verify. now rewrite Hhead.
  - intros repo w. unfold cmd_verify. now rewrite from_hex_to_hex.
  - intros r d conn c now Hdb Hh Hwf Hnz Hnone.
    rewrite (cmd_verify_from r d conn c now Hdb Hh Hwf Hnz).
    change 1000 with (S 999). cbn [parent_chain].
    rewrite (proj2 (is_zero_false c) Hnz). cbn [forallb].
    unfold passes at 1, verify_commit, scribe_repo_load_commit. rewrite Hdb.
    unfold scribe_db_load_commit at 1. unfold bind at 1. rewrite Hh, Hnone.
    reflexivity.
Qed.

(** A commit whose operation the schema refuses is stored without its
    change, and no longer verifies. *)
Example upsert_commit_fails_verify :
  let run := cmd_commit upsert_args None (Some fresh_repo) (plenty 1700000000) in
  run.1.1 = 0%Z
  /\ cmd_verify None run.1.2 (plenty 1700000001) = (1%Z, plenty 1700000001).
Proof. vm_compute. split; reflexivity. Qed.

(* ===================================================================== *)
(** * Paths and the search for the repository *)
(* ===================================================================== *)

(** ** Paths *)

Lemma trim_base_len_front (t : list ascii) : forall n l,
  n <= length l -> trim_base_len (l ++ t) n = trim_base_len l n.
Proof.
  induction n as [|n IH]; intros l Hn; [reflexivity|].
  cbn [trim_base_len]. rewrite lookup_app_l by lia.
  rewrite IH by lia. reflexivity.
Qed.

Lemma trim_base_len_slashes (b : list ascii) : forall k,
  last b <> Some slash ->
  trim_base_len (b ++ replicate k slash) (length b + k) = length b.
Proof.
  intros k Hlast. induction k as [|k IH].
  - rewrite Nat.add_0_r. cbn [replicate]. rewrite app_nil_r.
    destruct (length b) as [|n] eqn:Hlen; [reflexivity|].
    cbn [trim_base_len]. rewrite last_lookup, Hlen in Hlast. cbn [pred] in Hlast.
    now rewrite bool_decide_eq_false_2.
  - rewrite Nat.add_succ_r. cbn [trim_base_len].
    rewrite bool_decide_eq_true_2.
    + rewrite replicate_S_end, app_assoc.
      rewrite trim_base_len_front by (rewrite length_app, length_replicate; lia).
      exact IH.
    + rewrite lookup_app_r by lia.
      apply lookup_replicate_2. lia.
Qed.

Lemma skip_slashes_slashes (c : list ascii) : forall j,
  head c <> Some slash -> skip_slashes (replicate j slash ++ c) = c.
Proof.
  intros j Hhead. induction j as [|j IH].
  - destruct c as [|x rest]; [reflexivity|].
    cbn [replicate app skip_slashes].
    rewrite bool_decide_eq_false_2; [reflexivity|].
    intros ->. now apply Hhead.
  - cbn [replicate app skip_slashes]. now rewrite bool_decide_eq_true_2.
Qed.

Lemma request_plenty now : request (plenty now) = (true, plenty now).
Proof. reflexivity. Qed.

(** [scribe_path_join] on a base without trailing slash. *)
Lemma path_join_plain (b c : list ascii) now :
  last b <> Some slash -> head c <> Some slash ->
  scribe_path_join (Some (string_of_list_ascii b)) (Some (string_of_list_ascii c))
    (plenty now)
  = (Some (string_of_list_ascii (b ++ slash :: c)), plenty now).
Proof.
  intros Hb Hc. unfold scribe_path_join.
  rewrite !list_ascii_of_string_of_list_ascii. cbv zeta.
  rewrite (bind_run _ _ _ _ _ (request_plenty now)). cbn [negb].
  pose proof (trim_base_len_slashes b 0 Hb) as Htrim.
  cbn [replicate] in Htrim. rewrite app_nil_r, Nat.add_0_r in Htrim.
  rewrite Htrim, firstn_all.
  pose proof (skip_slashes_slashes c 0 Hc) as Hskip. cbn [replicate app] in Hskip.
  now rewrite Hskip.
Qed.

(** X22: [scribe_path_join] returns NULL, asking for no memory, when either
    argument is null, and NULL when the allocation fails; otherwise the base
    without its trailing slashes, one slash, and the component without its
    leading slashes.  So an empty base (or one made of slashes) gives a path
    from the root, and an empty component a path that ends in a slash. *)
Theorem path_join_outcome :
  (forall component w, scribe_path_join None component w = (None, w))
  /\ (forall base w, scribe_path_join base None w = (None, w))
  /\ (forall base component w,
        (request w).1 = false ->
        (scribe_path_join (Some base) (Some component) w).1 = None)
  /\ (forall (b c : list ascii) k j now,
        last b <> Some slash -> head c <> Some slash ->
        scribe_path_join (Some (string_of_list_ascii (b ++ replicate k slash)))
          (Some (string_of_list_ascii (replicate j slash ++ c))) (plenty now)
        = (Some (string_of_list_ascii (b ++ slash :: c)), plenty now))
  /\ (forall (c : list ascii) k now,
        head c <> Some slash ->
        scribe_path_join (Some (string_of_list_ascii (replicate k slash)))
          (Some (string_of_list_ascii c)) (plenty now)
        = (Some (string_of_list_ascii (slash :: c)), plenty now))
  /\ (forall (b : list ascii) now,
        last b <> Some slash ->
        scribe_path_join (Some (string_of_list_ascii b)) (Some ""%string) (plenty now)
        = (Some (string_of_list_ascii (b ++ [slash])), plenty now)).
Proof.
  assert (Hmain : forall (b c : list ascii) k j now,
             last b <> Some slash -> head c <> Some slash ->
             scribe_path_join (Some (string_of_list_ascii (b ++ replicate k slash)))
               (Some (string_of_list_ascii (replicate j slash ++ c))) (plenty now)
             = (Some (string_of_list_ascii (b ++ slash :: c)), plenty now)).
  { intros b c k j now Hb Hc. unfold scribe_path_join.
    rewrite !list_ascii_of_string_of_list_ascii. cbv zeta.
    rewrite (bind_run _ _ _ _ _ (request_plenty now)). cbn [negb].
    rewrite length_app, length_replicate, (trim_base_len_slashes b k Hb).
    rewrite take_app_length, (skip_slashes_slashes c j Hc). reflexivity. }
  repeat apply conj.
  - reflexivity.
  - intros [b|] w; reflexivity.
  - intros base component w Hfail. unfold scribe_path_join, bind.
    destruct (request w) as [ok w1]. cbn [fst] in Hfail. subst ok. reflexivity.
  - exact Hmain.
  - intros c k now Hc. exact (Hmain [] c k 0 now ltac:(discriminate) Hc).
  - intros b now Hb.
    pose proof (Hmain b [] 0 0 now Hb ltac:(discriminate)) as H.
    cbn [replicate app] in H. now rewrite app_nil_r in H.
Qed.

Lemma strrchr_none (s : list ascii) c : c ∉ s -> strrchr s c = None.
Proof.
  induction s as [|x rest IH]; intros Hnot; [reflexivity|].
  cbn [strrchr]. rewrite IH by (intros Hin; apply Hnot; now right).
  rewrite bool_decide_eq_false_2; [reflexivity|].
  intros ->. apply Hnot. left.
Qed.

Lemma strrchr_last (dir name : list ascii) c :
  c ∉ name -> strrchr (dir ++ c :: name) c = Some (length dir).
Proof.
  intros Hnot. induction dir as [|x dir IH].
  - cbn [app strrchr length]. rewrite (strrchr_none name c Hnot).
    now rewrite bool_decide_eq_true_2.
  - cbn [app strrchr length]. now rewrite IH.
Qed.

Lemma strrchr_none_inv (s : list ascii) c : strrchr s c = None -> c ∉ s.
Proof.
  induction s as [|x rest IH]; intros Hnone Hin; [now apply not_elem_of_nil in Hin|].
  cbn [strrchr] in Hnone. destruct (strrchr rest c); [discriminate|].
  destruct (bool_decide (x = c)) eqn:Hx; [discriminate|].
  apply bool_decide_eq_false in Hx.
  apply elem_of_cons in Hin as [Heq|Hin]; [congruence|now apply IH].
Qed.

Lemma strrchr_some (s : list ascii) c i :
  strrchr s c = Some i -> s !! i = Some c /\ c ∉ drop (S i) s.
Proof.
  revert i. induction s as [|x rest IH]; intros i; [discriminate|].
  cbn [strrchr]. destruct (strrchr rest c) as [k|] eqn:Hrest.
  - intros [= <-]. destruct (IH k eq_refl) as (Hat & Hnot). split; assumption.
  - destruct (bool_decide (x = c)) eqn:Hx; [|discriminate].
    apply bool_decide_eq_true in Hx. subst x. intros [= <-].
    split; [reflexivity|]. cbn [drop]. now apply strrchr_none_inv.
Qed.

(** X23: [scribe_path_basename] returns what follows the last slash, which
    holds no slash, and the whole path when it has none;
    [scribe_path_dirname] (no allocation failing) returns what precedes the
    last slash, "/" when that is nothing and "." when the path has no
    slash; both return NULL for a null path.  Joining the two gives the path
    back when the part before the last slash is empty or does not end in a
    slash. *)
Theorem path_dirname_basename :
  scribe_path_basename None = None
  /\ (forall w, scribe_path_dirname None w = (None, w))
  /\ (forall p name,
        scribe_path_basename (Some p) = Some name ->
        slash ∉ list_ascii_of_string name)
  /\ (forall (name : list ascii) now,
        slash ∉ name ->
        scribe_path_basename (Some (string_of_list_ascii name))
        = Some (string_of_list_ascii name)
        /\ scribe_path_dirname (Some (string_of_list_ascii name)) (plenty now)
           = (Some "."%string, plenty now))
  /\ (forall (dir name : list ascii) now,
        slash ∉ name ->
        let p := string_of_list_ascii (dir ++ slash :: name) in
        scribe_path_basename (Some p) = Some (string_of_list_ascii name)
        /\ scribe_path_dirname (Some p) (plenty now)
           = (Some (match dir with
                    | [] => "/"%string
                    | _ => string_of_list_ascii dir
                    end), plenty now)
        /\ (last dir <> Some slash ->
            scribe_path_join (scribe_path_dirname (Some p) (plenty now)).1
              (scribe_path_basename (Some p)) (plenty now)
            = (Some p, plenty now))).
Proof.
  repeat apply conj.
  - reflexivity.
  - reflexivity.
  - intros p name. unfold scribe_path_basename.
    destruct (strrchr (list_ascii_of_string p) slash) as [i|] eqn:Hlast.
    + intros [= <-]. rewrite list_ascii_of_string_of_list_ascii.
      exact (proj2 (strrchr_some _ _ _ Hlast)).
    + intros [= <-]. now apply strrchr_none_inv.
  - intros name now Hnot.
    unfold scribe_path_basename, scribe_path_dirname.
    rewrite (bind_run _ _ _ _ _ (safe_strdup_plenty _ now)).
    rewrite list_ascii_of_string_of_list_ascii, (strrchr_none _ _ Hnot).
    split; reflexivity.
  - intros dir name now Hnot p.
    assert (Hbase : scribe_path_basename (Some p) = Some (string_of_list_ascii name)).
    { unfold scribe_path_basename, p.
      rewrite list_ascii_of_string_of_list_ascii, (strrchr_last _ _ _ Hnot).
      rewrite cons_middle, app_assoc, drop_app_length'; [reflexivity|].
      rewrite length_app. cbn [length]. lia. }
    assert (Hdir : scribe_path_dirname (Some p) (plenty now)
                   = (Some (match dir with
                            | [] => "/"%string
                            | _ => string_of_list_ascii dir
                            end), plenty now)).
    { unfold scribe_path_dirname, p.
      rewrite (bind_run _ _ _ _ _ (safe_strdup_plenty _ now)).
      rewrite list_ascii_of_string_of_list_ascii, (strrchr_last _ _ _ Hnot).
      destruct dir as [|x dir]; [reflexivity|].
      cbn [length]. unfold ret. rewrite <- (take_app_length (x :: dir) (slash :: name)) at 2.
      reflexivity. }
    split; [exact Hbase|]. split; [exact Hdir|].
    intros Hlast. rewrite Hdir, Hbase. cbn [fst].
    assert (Hname : head name <> Some slash).
    { destruct name as [|y name]; [discriminate|].
      intros [= ->]. apply Hnot. left. }
    destruct dir as [|x dir].
    + change "/"%string with (string_of_list_ascii (replicate 1 slash)).
      pose proof (trim_base_len_slashes [] 1 ltac:(discriminate)) as Htrim.
      unfold scribe_path_join.
      rewrite !list_ascii_of_string_of_list_ascii. cbv zeta.
      rewrite (bind_run _ _ _ _ _ (request_plenty now)). cbn [negb].
      cbn [app length Nat.add] in Htrim. cbn [length replicate].
      cbn [replicate] in Htrim. rewrite Htrim.
      pose proof (skip_slashes_slashes name 0 Hname) as Hskip.
      cbn [replicate app] in Hskip. rewrite Hskip. reflexivity.
    + exact (path_join_plain (x :: dir) name now Hlast Hname).
Qed.

Lemma path_of_snoc segs s : path_of (segs ++ [s]) = path_of segs ++ slash :: s.
Proof. unfold path_of. rewrite flat_map_app. cbn [flat_map]. now rewrite app_nil_r. Qed.

Lemma path_of_length segs : length segs <= length (path_of segs).
Proof.
  unfold path_of. induction segs as [|s segs IH]; [reflexivity|].
  cbn [flat_map]. rewrite length_app. cbn [length]. lia.
Qed.

Lemma segment_last (b s : list ascii) : segment s -> last (b ++ slash :: s) <> Some slash.
Proof.
  intros (Hne & Hnot).
  destruct (exists_last Hne) as (front & x & ->).
  rewrite cons_middle, !app_assoc, last_snoc. intros [= ->].
  apply Hnot. apply elem_of_app. right. left.
Qed.

(** The loop of [scribe_find_repo_root] from the ancestor with [k]
    segments. *)
Lemma find_repo_root_loop_segments is_dir segs now :
  Forall segment segs ->
  forall k fuel,
    0 < k <= length segs -> k <= fuel ->
    find_repo_root_loop is_dir fuel (string_of_list_ascii (path_of (take k segs)))
      (plenty now)
    = (nearest_repo is_dir k segs, plenty now).
Proof.
  intros Hsegs. induction k as [|k IH]; intros fuel Hk Hfuel; [lia|].
  destruct fuel as [|fuel]; [lia|].
  assert (Hlt : k < length segs) by lia.
  destruct (lookup_lt_is_Some_2 segs k Hlt) as [s Hs].
  pose proof (proj1 (Forall_lookup _ _) Hsegs k s Hs) as Hseg.
  cbn [find_repo_root_loop nearest_repo].
  rewrite (take_S_r _ _ _ Hs), path_of_snoc.
  change SCRIBE_DIR_NAME
    with (string_of_list_ascii (list_ascii_of_string ".scribe")).
  assert (Hdot : head (list_ascii_of_string ".scribe") <> Some slash) by discriminate.
  rewrite (bind_run _ _ _ _ _
             (path_join_plain _ _ now (segment_last (path_of (take k segs)) s Hseg) Hdot)).
  change (slash :: list_ascii_of_string ".scribe") with (list_ascii_of_string "/.scribe").
  destruct (is_dir _); [reflexivity|].
  rewrite list_ascii_of_string_of_list_ascii, (strrchr_last _ _ _ (proj2 Hseg)).
  destruct k as [|k]; [reflexivity|].
  destruct (length (path_of (take (S k) segs))) as [|i] eqn:Hlen.
  - pose proof (path_of_length (take (S k) segs)) as Hle.
    rewrite length_take in Hle. lia.
  - rewrite <- Hlen, take_app_length. apply IH; lia.
Qed.

(** X24: [scribe_find_repo_root], when [realpath] gives the canonical path
    [/s1/.../sn] (n > 0) and no allocation fails, returns the [.scribe]
    directory of the nearest of [/s1/.../sn], ..., [/s1] that has one and
    NULL when none has: the root directory itself is not looked at, so a
    repository at [/] is found only from [/].  It returns NULL for a null
    path, when [realpath] fails and when the copy of the path cannot be
    allocated. *)
Theorem find_repo_root_nearest :
  (forall realpath is_dir w, scribe_find_repo_root realpath is_dir None w = (None, w))
  /\ (forall realpath is_dir p w,
        realpath p = None ->
        scribe_find_repo_root realpath is_dir (Some p) w = (None, w))
  /\ (forall realpath is_dir p w,
        (request w).1 = false ->
        (scribe_find_repo_root realpath is_dir (Some p) w).1 = None)
  /\ (forall realpath is_dir p segs now,
        Forall segment segs -> segs <> [] ->
        realpath p = Some (string_of_list_ascii (path_of segs)) ->
        scribe_find_repo_root realpath is_dir (Some p) (plenty now)
        = (nearest_repo is_dir (length segs) segs, plenty now))
  /\ (forall realpath is_dir p now,
        realpath p = Some "/"%string ->
        scribe_find_repo_root realpath is_dir (Some p) (plenty now)
        = (if is_dir "/.scribe"%string then Some "/.scribe"%string else None,
           plenty now))
  /\ (forall is_dir k segs candidate,
        nearest_repo is_dir k segs = Some candidate ->
        is_dir candidate = true
        /\ exists j, 0 < j <= k
             /\ candidate = string_of_list_ascii
                              (path_of (take j segs) ++ list_ascii_of_string "/.scribe")
             /\ forall i, j < i <= k ->
                  is_dir (string_of_list_ascii
                            (path_of (take i segs) ++ list_ascii_of_string "/.scribe"))
                  = false).
Proof.
  repeat apply conj.
  - reflexivity.
  - intros realpath is_dir p w Hnone. unfold scribe_find_repo_root. now rewrite Hnone.
  - intros realpath is_dir p w Hfail. unfold scribe_find_repo_root.
    destruct (realpath p) as [resolved|]; [|reflexivity].
    unfold safe_strdup, bind, ret. destruct (request w) as [ok w1].
    cbn [fst] in Hfail. subst ok. reflexivity.
  - intros realpath is_dir p segs now Hsegs Hne Hreal.
    unfold scribe_find_repo_root. rewrite Hreal.
    rewrite (bind_run _ _ _ _ _ (safe_strdup_plenty _ now)).
    rewrite <- (firstn_all segs) at 2.
    apply find_repo_root_loop_segments; [exact Hsegs| |].
    + destruct segs; [congruence|]. cbn [length]. lia.
    + rewrite string_of_list_ascii_length. pose proof (path_of_length segs). lia.
  - intros realpath is_dir p now Hreal.
    unfold scribe_find_repo_root. rewrite Hreal.
    rewrite (bind_run _ _ _ _ _ (safe_strdup_plenty _ now)).
    cbn. destruct (is_dir _); reflexivity.
  - intros is_dir k segs candidate. induction k as [|k IH]; [discriminate|].
    cbn [nearest_repo].
    destruct (is_dir (string_of_list_ascii (path_of (take (S k) segs) ++ _))) eqn:Hdir.
    + intros [= <-]. split; [exact Hdir|].
      exists (S k). split; [lia|]. split; [reflexivity|]. intros i Hi. lia.
    + intros Hrest. destruct (IH Hrest) as (Hd & j & Hj & Hcand & Hnone).
      split; [exact Hd|]. exists j. split; [lia|]. split; [exact Hcand|].
      intros i Hi. destruct (decide (i = S k)) as [->|Hne]; [exact Hdir|].
      apply Hnone. lia.
Qed.

(* ===================================================================== *)
(** * More theorems at concrete inputs *)
(* ===================================================================== *)

Lemma three_leaf_built_state : tree_state three_leaf_built.
Proof.
  apply (tree_state_build three_leaf_tree (plenty 0) SCRIBE_OK three_leaf_built (plenty 0)
           three_leaf_tree_state).
  vm_compute. reflexivity.
Qed.

Lemma fresh_conn_fk : tables_fk (current fresh_conn).
Proof. intros row Hin. vm_compute in Hin. now apply not_elem_of_nil in Hin. Qed.

Lemma first_repo_clean : clean_history first_repo [first_commit_id].
Proof.
  apply (clean_next fresh_repo [] first_commit_args None 1700000000 first_repo
           first_commit_id clean_fresh).
  - repeat constructor.
  - exact first_repo_run.
  - vm_compute. reflexivity.
  - intros Heq. vm_compute in Heq. discriminate Heq.
Qed.

Lemma tree_state_invariants_witness :
  tree_state three_leaf_tree
  /\ tree_wf three_leaf_tree
  /\ scribe_merkle_verify (Some three_leaf_tree) = SCRIBE_ERR_INVALID_ARG.
Proof.
  pose proof three_leaf_tree_state as Hstate.
  split; [exact Hstate|].
  exact (tree_state_invariants three_leaf_tree Hstate).
Defined.

Lemma proof_verify_accepts_sibling_path_witness :
  tree_state three_leaf_built /\ built three_leaf_built = true
  /\ 2 < leaf_count three_leaf_built
  /\ scribe_merkle_proof_verify
       (Some (proof_of_path (sibling_path (node_hash <$> leaves three_leaf_built) 2)))
       (Some (node_hash (leaves three_leaf_built !!! 2)))
       (scribe_merkle_root (Some three_leaf_built)) = true.
Proof.
  pose proof three_leaf_built_state as Hstate.
  assert (Hbuilt : built three_leaf_built = true) by (vm_compute; reflexivity).
  assert (Hi : 2 < leaf_count three_leaf_built) by (vm_compute; lia).
  split; [exact Hstate|]. split; [exact Hbuilt|]. split; [exact Hi|].
  exact (proj1 (proof_verify_accepts_sibling_path three_leaf_built 2 Hstate Hbuilt Hi)).
Defined.

Lemma env_state_changes_fit_witness :
  env_state (default seed_envelope (scribe_envelope_new (plenty 0)).1)
  /\ changes_fit (default seed_envelope (scribe_envelope_new (plenty 0)).1).
Proof.
  assert (Hstate : env_state (default seed_envelope (scribe_envelope_new (plenty 0)).1)).
  { apply (env_state_new (plenty 0) _ (plenty 0)). reflexivity. }
  split; [exact Hstate|].
  exact (proj1 (env_state_changes_fit _ Hstate)).
Defined.

Lemma store_commit_writes_witness :
  handle fresh_db = Some fresh_conn
  /\ exists d',
      scribe_db_store_commit (Some fresh_db) (Some seed_finalized) = (SCRIBE_OK, Some d')
      /\ scribe_db_commit_count (Some d') = S (scribe_db_commit_count (Some fresh_db)).
Proof.
  assert (Hh : handle fresh_db = Some fresh_conn) by (vm_compute; reflexivity).
  split; [exact Hh|].
  destruct (scribe_db_store_commit (Some fresh_db) (Some seed_finalized))
    as [err [d'|]] eqn:Hstore; [|vm_compute in Hstore; discriminate Hstore].
  assert (err = SCRIBE_OK) as ->
    by (vm_compute in Hstore; injection Hstore as <- _; reflexivity).
  exists d'. split; [reflexivity|].
  destruct (store_commit_writes fresh_db fresh_conn seed_finalized d' Hh Hstore)
    as (conn' & a_id & p_name & _ & _ & _ & _ & _ & _ & _ & _ & _ & Hcount & _).
  exact Hcount.
Defined.

Lemma store_then_load_witness :
  handle fresh_db = Some fresh_conn
  /\ tables_fk (current fresh_conn)
  /\ exists d',
      scribe_db_store_commit (Some fresh_db) (Some seed_finalized) = (SCRIBE_OK, Some d')
      /\ exists cap,
          scribe_db_load_commit (Some d') (Some (commit_id seed_finalized)) (plenty 0)
          = (Some (with_changes seed_finalized
                     (filter (fun c => storable c = true) (changes seed_finalized)) cap),
             plenty 0).
Proof.
  assert (Hh : handle fresh_db = Some fresh_conn) by (vm_compute; reflexivity).
  pose proof fresh_conn_fk as Hfk.
  split; [exact Hh|]. split; [exact Hfk|].
  destruct (scribe_db_store_commit (Some fresh_db) (Some seed_finalized))
    as [err [d'|]] eqn:Hstore; [|vm_compute in Hstore; discriminate Hstore].
  assert (err = SCRIBE_OK) as ->
    by (vm_compute in Hstore; injection Hstore as <- _; reflexivity).
  exists d'. split; [reflexivity|].
  destruct (store_then_load fresh_db fresh_conn seed_finalized d' 0 Hh Hfk Hstore)
    as (cap & Hload & _).
  exists cap. exact Hload.
Defined.


Lemma cmd_verify_checks_chain_witness :
  repo_db first_repo = Some first_db /\ handle first_db = Some first_conn
  /\ tables_wf (current first_conn)
  /\ cmd_verify (Some (scribe_hash_to_hex first_commit_id)) (Some first_repo) (plenty 0)
     = (if forallb (passes (Some first_repo) 0)
             (parent_chain (current first_conn) 1000 first_commit_id)
        then 0%Z else 1%Z, plenty 0).
Proof.
  assert (Hdb : repo_db first_repo = Some first_db) by (vm_compute; reflexivity).
  assert (Hh : handle first_db = Some first_conn) by (vm_compute; reflexivity).
  pose proof first_conn_wf as Hwf.
  split; [exact Hdb|]. split; [exact Hh|]. split; [exact Hwf|].
  apply (proj1 (cmd_verify_checks_chain first_repo first_db first_conn 0 Hdb Hh Hwf)).
  intros Heq. vm_compute in Heq. discriminate Heq.
Defined.

Lemma cmd_verify_clean_history_witness :
  clean_history first_repo [first_commit_id]
  /\ cmd_verify None (Some first_repo) (plenty 1700000001) = (0%Z, plenty 1700000001).
Proof.
  pose proof first_repo_clean as Hclean.
  split; [exact Hclean|].
  exact (proj1 (cmd_verify_clean_history first_repo [first_commit_id] 1700000001 Hclean)).
Defined.
